(** * A shallow embedding of the WebAssembly (asm.js binary) module writer

    The development follows the sources of the bundled [webassembly] package:

    - [reflect/FunctionDefinition.js]: the constructor, [getVariable], the
      in-place [replace], the one-pass [optimize] and [asmHeader];
    - [stmt/behavior/StoreBehavior.js] and [stmt/behavior/LoadBehavior.js]:
      [validate];
    - [Writer.js]: the resumable section-by-section state machine.

    JavaScript objects that are mutated in place (statement nodes, the root
    statement list) live in an explicit store addressed by references, so
    that identity ([===]) and aliasing are those of the program.  A function
    that may raise returns a [result]; the writer's steps, which mutate the
    writer before they raise, return the writer reached together with it. *)

From Stdlib Require Import ZArith List String Ascii Bool Lia.
From stdpp Require Import gmap strings list.
Import ListNotations.

(** ** Exceptions *)

(** The exceptions the modelled code raises: the buffer queue's shared
    [E_MORE] object, the errors of [util.assertInteger], the assertion errors
    of node's [assert] module and plain [Error(...)] values. *)
Inductive exn : Type :=
| E_MORE
| TypeError (msg : string)
| RangeError (msg : string)
| AssertionError (msg : string)
| Error (msg : string).

Inductive result (A : Type) : Type :=
| Ok (a : A)
| Throw (e : exn).
Arguments Ok {A} a.
Arguments Throw {A} e.

Definition bind {A B : Type} (r : result A) (k : A -> result B) : result B :=
  match r with
  | Ok a => k a
  | Throw e => Throw e
  end.

Notation "'let!' x ':=' r 'in' k" := (bind r (fun x => k))
  (at level 10, x name, r at level 100, k at level 200).
Notation "'run!' r 'in' k" := (bind r (fun _ => k))
  (at level 10, r at level 100, k at level 200).

(** ** The [types] module *)

Module types.

(** Modelled from the spec: the numeric types of the [types] module, which is
    not among the sources.  [Type.I32], [Type.F32] and [Type.F64] are the
    three value types; [Void] is the fourth return type, and stands for any
    type tag that is not a value type. *)
Inductive Type_ : Type := I32 | F32 | F64 | Void.

Definition Type_eqb (a b : Type_) : bool :=
  match a, b with
  | I32, I32 | F32, F32 | F64, F64 | Void, Void => true
  | _, _ => false
  end.

(** Modelled from the spec: [types.ExportFormat], "Default=0, Record=1". *)
Definition ExportFormat_Default : Z := 0.
Definition ExportFormat_Record : Z := 1.

End types.

(** ** JavaScript numbers as optional arguments *)

(** A numeric argument that the caller may leave out. *)
Inductive JsNumber : Type :=
| undefined
| num (z : Z).

(** JavaScript truthiness of such a value: [undefined] and [0] are falsy. *)
Definition truthy (v : JsNumber) : bool :=
  match v with
  | undefined => false
  | num z => negb (z =? 0)%Z
  end.

(** [v || d] for a numeric default [d]. *)
Definition js_or (v : JsNumber) (d : Z) : Z :=
  match v with
  | num z => if truthy v then z else d
  | undefined => d
  end.

(** ** [util.assertInteger] *)

(** Modelled from the spec: [util.assertInteger(name, value, min, max)] of
    the absent [util] module; an index outside [min..max] "fails with a range
    error".  The value is an integer by its type here. *)
Definition assertInteger (name : string) (value min max : Z) : result unit :=
  if ((min <=? value) && (value <=? max))%Z then Ok tt
  else Throw (RangeError (name +:+ " out of range")).

(** ** Reflection entities used by [FunctionDefinition] *)

Record FunctionSignature : Type := {
  sig_index : Z;
  returnType : types.Type_;
  argumentTypes : list types.Type_
}.

Record FunctionDeclaration : Type := {
  decl_index : Z;
  signature : FunctionSignature
}.

(** [new LocalVariable(definition, type)]: the back reference to the owning
    definition is the definition that holds the variable table. *)
Record LocalVariable : Type := {
  var_type : types.Type_
}.

Definition new_LocalVariable (type : types.Type_) : LocalVariable :=
  {| var_type := type |}.

(** ** Statement nodes in the store *)

Definition ref : Type := nat.

(** An operand is a nested node ([instanceof BaseStmt]) or an immediate. *)
Inductive Operand : Type :=
| OStmt (r : ref)
| OImm (v : Z).

(** The class of a node: a plain statement, or an expression with its result
    type ([ExprI32] is [CExpr types.I32], and so on). *)
Inductive StmtClass : Type :=
| CStmt
| CExpr (type : types.Type_).

Record Stmt : Type := {
  cls : StmtClass;
  code : Z;
  operands : list Operand;
  behavior : nat
}.

(** ** [FunctionDefinition] *)

Record FunctionDefinition : Type := {
  declaration : FunctionDeclaration;
  variables : list LocalVariable;
  byteOffset : Z;
  byteLength : Z;
  ast : option (list ref)
}.

(** The constructor.  The array is allocated at its full length and filled
    from index 0 upwards by the [forEach] over the argument types and the
    three [for] loops; the table is the concatenation of the four runs. *)
Definition new_FunctionDefinition (declaration : FunctionDeclaration)
    (nI32vars nF32vars nF64vars : nat) (byteOffset byteLength : JsNumber)
  : FunctionDefinition :=
  {| declaration := declaration;
     variables :=
       map new_LocalVariable (argumentTypes (signature declaration))
       ++ replicate nI32vars (new_LocalVariable types.I32)
       ++ replicate nF32vars (new_LocalVariable types.F32)
       ++ replicate nF64vars (new_LocalVariable types.F64);
     byteOffset := js_or byteOffset (-1);
     byteLength := js_or byteLength (-1);
     ast := None |}.

(** [FunctionDefinition.prototype.getVariable]. *)
Definition getVariable (def : FunctionDefinition) (index : Z)
  : result (option LocalVariable) :=
  run! assertInteger "index" index 0 (Z.of_nat (length (variables def)) - 1) in
  Ok (variables def !! Z.to_nat index).

(** Modelled from the spec: [LocalVariable#isArgument] of the absent
    [LocalVariable] class.  The constructor receives the type only, and the
    index "is positional (argument indices first)": the variable at position
    [k] is an argument when [k] is below the signature's argument count. *)
Definition isArgument (def : FunctionDefinition) (k : nat) : bool :=
  k <? length (argumentTypes (signature (declaration def))).

(** ** The node store, [replace] and [optimize] *)

(** The objects reachable from a function body: every statement node by its
    reference.  A reference that the store does not hold has no counterpart
    in the program; the traversals skip it. *)
Abbreviation Store := (gmap ref Stmt).

(** The node operands of an operand list, in order. *)
Fixpoint stmt_operands (ops : list Operand) : list ref :=
  match ops with
  | [] => []
  | OStmt r :: ops' => r :: stmt_operands ops'
  | OImm _ :: ops' => stmt_operands ops'
  end.

Definition operands_of (s : Store) (r : ref) : list Operand :=
  match s !! r with
  | Some node => operands node
  | None => []
  end.

(** [stmt.operands = ops], in place. *)
Definition set_operands (node : Stmt) (ops : list Operand) : Stmt :=
  {| cls := cls node; code := code node; operands := ops;
     behavior := behavior node |}.

(** The first loop of [replace]: [i] runs from [ast.length-1] down to 0; each
    root is pushed as it was, then overwritten when it is [oldStmt].  The
    stack is a list whose head is the top. *)
Fixpoint replace_roots (i : nat) (ast stack : list ref) (oldStmt newStmt : ref)
  : list ref * list ref :=
  match i with
  | O => (ast, stack)
  | S i' =>
      match ast !! i' with
      | Some r =>
          replace_roots i'
            (if decide (r = oldStmt) then <[i' := newStmt]> ast else ast)
            (r :: stack) oldStmt newStmt
      | None => replace_roots i' ast stack oldStmt newStmt
      end
  end.

(** The inner [for] of [replace] over [current.operands], left to right: a
    node operand identical to [oldStmt] is overwritten, and the operand read
    before the write is pushed. *)
Fixpoint replace_operands (ops : list Operand) (oldStmt newStmt : ref)
    (stack : list ref) : list Operand * list ref :=
  match ops with
  | [] => ([], stack)
  | OStmt r :: ops' =>
      let '(ops'', stack') := replace_operands ops' oldStmt newStmt (r :: stack) in
      ((if decide (r = oldStmt) then OStmt newStmt else OStmt r) :: ops'', stack')
  | OImm v :: ops' =>
      let '(ops'', stack') := replace_operands ops' oldStmt newStmt stack in
      (OImm v :: ops'', stack')
  end.

(** The [while (stack.length > 0)] loop of [replace].  [None]: the fuel ran
    out before the stack emptied. *)
Fixpoint replace_loop (fuel : nat) (s : Store) (stack : list ref)
    (oldStmt newStmt : ref) : option Store :=
  match stack with
  | [] => Some s
  | current :: stack' =>
      match fuel with
      | O => None
      | S fuel' =>
          match s !! current with
          | Some node =>
              let '(ops, stack'') :=
                replace_operands (operands node) oldStmt newStmt stack' in
              replace_loop fuel' (<[current := set_operands node ops]> s)
                stack'' oldStmt newStmt
          | None => replace_loop fuel' s stack' oldStmt newStmt
          end
      end
  end.

(** [replace(ast, oldStmt, newStmt)]: the root list and the store after it. *)
Definition replace (fuel : nat) (ast : list ref) (s : Store)
    (oldStmt newStmt : ref) : option (list ref * Store) :=
  let '(ast', stack) := replace_roots (length ast) ast [] oldStmt newStmt in
  match replace_loop fuel s stack oldStmt newStmt with
  | Some s' => Some (ast', s')
  | None => None
  end.

(** The state of [optimize]'s loop: the store, the root list [this.ast], the
    work stack (head = top), the counter [n], and the nodes popped so far
    (oldest first), which the program does not keep and which is recorded
    here to state what the traversal visits. *)
Record OptState : Type := {
  o_store : Store;
  o_ast : list ref;
  o_stack : list ref;
  o_n : nat;
  o_visited : list ref
}.

Section Optimizer.

(** The behavior table: [optimizeOf b] is [behavior.optimize] of the behavior
    [b] when it is a function.  It receives the definition and the node, may
    update nodes in place or allocate new ones, and returns a node. *)
Variable optimizeOf :
  nat -> option (FunctionDefinition -> Store -> ref -> Store * ref).

(** The [if (typeof behavior.optimize === 'function')] block for the popped
    [stmt]: the store, the root list and the counter after it. *)
Definition optimize_call (fuel : nat) (def : FunctionDefinition) (s : Store)
    (ast : list ref) (n : nat) (stmt : ref) (node : Stmt)
  : option (Store * list ref * nat) :=
  match optimizeOf (behavior node) with
  | Some optimize =>
      let code0 := code node in
      let '(s1, optimizedStmt) := optimize def s stmt in
      if decide (optimizedStmt = stmt) then
        match s1 !! optimizedStmt with
        | Some node' =>
            if (code node' =? code0)%Z then Some (s1, ast, n)
            else Some (s1, ast, S n)
        | None => Some (s1, ast, n)
        end
      else
        match replace fuel ast s1 stmt optimizedStmt with
        | Some (ast', s2) => Some (s2, ast', S n)
        | None => None
        end
  | None => Some (s, ast, n)
  end.

(** One iteration of [optimize]'s [while]: pop [stmt], run the block above,
    then push the node operands of [stmt] (the popped node), [i] running from
    the last operand down to the first, so that the first is on top. *)
Definition optimize_visit (fuel : nat) (def : FunctionDefinition)
    (st : OptState) : option OptState :=
  match o_stack st with
  | [] => Some st
  | stmt :: stack' =>
      match o_store st !! stmt with
      | Some node =>
          match optimize_call fuel def (o_store st) (o_ast st) (o_n st) stmt node with
          | Some (s', ast', n') =>
              Some {| o_store := s'; o_ast := ast';
                      o_stack := stmt_operands (operands_of s' stmt) ++ stack';
                      o_n := n';
                      o_visited := o_visited st ++ [stmt] |}
          | None => None
          end
      | None =>
          Some {| o_store := o_store st; o_ast := o_ast st; o_stack := stack';
                  o_n := o_n st; o_visited := o_visited st ++ [stmt] |}
      end
  end.

Fixpoint optimize_loop (fuel : nat) (def : FunctionDefinition) (st : OptState)
  : option OptState :=
  match o_stack st with
  | [] => Some st
  | _ :: _ =>
      match fuel with
      | O => None
      | S fuel' =>
          match optimize_visit fuel def st with
          | Some st' => optimize_loop fuel' def st'
          | None => None
          end
      end
  end.

(** [FunctionDefinition.prototype.optimize]: the initial stack holds the
    roots with [ast[0]] on top.  There is no result either when the fuel runs
    out or when [this.ast] is still [null] (the program raises there). *)
Definition optimize (fuel : nat) (def : FunctionDefinition) (s : Store)
  : option OptState :=
  match ast def with
  | Some roots =>
      optimize_loop fuel def
        {| o_store := s; o_ast := roots; o_stack := roots; o_n := 0;
           o_visited := [] |}
  | None => None
  end.

End Optimizer.

(** ** [StoreBehavior] *)

Record StoreBehavior : Type := {
  sb_name : string;
  sb_description : string;
  heapType : types.Type_
}.

(** [assert(cond, message)] and, for values with a decidable equality,
    [assert.strictEqual(a, b, message)] with [cond] the comparison. *)
Definition assert_ (cond : bool) (message : string) : result unit :=
  if cond then Ok tt else Throw (AssertionError message).

(** [operand instanceof ExprI32]: false for an immediate. *)
Definition instanceof_ExprI32 (s : Store) (operand : option Operand) : bool :=
  match operand with
  | Some (OStmt r) =>
      match s !! r with
      | Some node =>
          match cls node with
          | CExpr types.I32 => true
          | _ => false
          end
      | None => false
      end
  | _ => false
  end.

(** [operand instanceof BaseExpr], with the expression's [type] when so. *)
Definition as_BaseExpr (s : Store) (operand : option Operand)
  : option types.Type_ :=
  match operand with
  | Some (OStmt r) =>
      match s !! r with
      | Some node =>
          match cls node with
          | CExpr t => Some t
          | CStmt => None
          end
      | None => None
      end
  | _ => None
  end.

Section Validate.

(** [types.RTypeNames], a table of the absent [types] module. *)
Variable RTypeNames : types.Type_ -> string.

(** [StoreBehavior.prototype.validate]. *)
Definition StoreBehavior_validate (this : StoreBehavior) (s : Store)
    (definition : FunctionDefinition) (stmt : Stmt) : result unit :=
  run! assert_ (length (operands stmt) =? 2)
         "Store requires exactly 2 operands" in
  let index := operands stmt !! 0 in
  run! assert_ (instanceof_ExprI32 s index)
         "Store heap index (operand 0) must be an I32 expression" in
  let value := operands stmt !! 1 in
  match as_BaseExpr s value with
  | None => Throw (AssertionError "Store value (operand 1) must be an expression")
  | Some value_type =>
      assert_ (types.Type_eqb value_type (heapType this))
        ("Store value (operand 1) expression must be "
           +:+ RTypeNames (heapType this))
  end.

End Validate.

(** ** The buffer queue and its primitive encodings *)

(** Modelled from the spec: [util.BufferQueue], which is not among the
    sources.  Writes are staged and reach the destination "only on an explicit
    commit"; a commit for which the destination's room is too small fails with
    the recoverable [E_MORE] and leaves the queue as it was.  [capacity] is
    the room pushed by [_read] since the queue was last cleared, [committed]
    the bytes committed and not yet handed over, [staged] the current batch. *)
Record BufferQueue : Type := {
  capacity : nat;
  committed : list Z;
  staged : list Z
}.

Definition new_BufferQueue : BufferQueue :=
  {| capacity := 0; committed := []; staged := [] |}.

(** [push(new Buffer(size))]. *)
Definition bq_push (size : nat) (q : BufferQueue) : BufferQueue :=
  {| capacity := capacity q + size; committed := committed q;
     staged := staged q |}.

Definition bq_write (bytes : list Z) (q : BufferQueue) : BufferQueue :=
  {| capacity := capacity q; committed := committed q;
     staged := staged q ++ bytes |}.

Definition bq_commit (q : BufferQueue) : result BufferQueue :=
  if length (committed q) + length (staged q) <=? capacity q then
    Ok {| capacity := capacity q; committed := committed q ++ staged q;
          staged := [] |}
  else Throw E_MORE.

(** [reset()]: back to the last commit. *)
Definition bq_reset (q : BufferQueue) : BufferQueue :=
  {| capacity := capacity q; committed := committed q; staged := [] |}.

Definition bq_toBuffer (q : BufferQueue) : list Z := committed q.

(** [clear()] and [clear(true)]: the buffers are dropped. *)
Definition bq_clear (q : BufferQueue) : BufferQueue := new_BufferQueue.

(** Modelled from the spec: the primitive encodings of the absent buffer
    queue: "fixed-width integers little-endian", "variable-length unsigned
    integers" (LEB128 style, here of the value as an unsigned 32-bit number)
    and "NUL-terminated name strings". *)
Definition uint8 (v : Z) : list Z := [(v mod 256)%Z].

Definition uint32LE (v : Z) : list Z :=
  [(v mod 256)%Z; (v / 256 mod 256)%Z; (v / 65536 mod 256)%Z;
   (v / 16777216 mod 256)%Z].

Fixpoint varint_loop (fuel : nat) (v : Z) : list Z :=
  match fuel with
  | O => [v]
  | S fuel' =>
      if (v <? 128)%Z then [v]
      else Z.lor (Z.land v 127) 128 :: varint_loop fuel' (Z.shiftr v 7)
  end.

Definition varint (v : Z) : list Z := varint_loop 4 (v mod 2 ^ 32)%Z.

Definition cstring (name : string) : list Z :=
  map (fun c => Z.of_nat (nat_of_ascii c)) (list_ascii_of_string name) ++ [0%Z].

(** ** JavaScript objects as ordered maps *)

(** A plain object with string keys: its properties in insertion order, each
    key once. *)
Definition JsObject (V : Type) : Type := list (string * V).

Definition digit_of (c : ascii) : option Z :=
  let n := Z.of_nat (nat_of_ascii c) in
  if ((48 <=? n) && (n <=? 57))%Z then Some (n - 48)%Z else None.

Fixpoint parse_digits (s : string) (acc : Z) : option Z :=
  match s with
  | EmptyString => Some acc
  | String c s' =>
      match digit_of c with
      | Some d => parse_digits s' (10 * acc + d)%Z
      | None => None
      end
  end.

(** The array index a property key denotes, if any: the canonical decimal
    form of an integer from 0 to 2^32-2. *)
Definition array_index (key : string) : option Z :=
  match key with
  | EmptyString => None
  | String c rest =>
      if (Ascii.eqb c "0" && negb (String.eqb rest ""))%bool then None
      else
        match parse_digits key 0 with
        | Some n => if (n <=? 4294967294)%Z then Some n else None
        | None => None
        end
  end.

Fixpoint insert_index (k : Z * string) (l : list (Z * string))
  : list (Z * string) :=
  match l with
  | [] => [k]
  | k' :: l' =>
      if (fst k <=? fst k')%Z then k :: l else k' :: insert_index k l'
  end.

Fixpoint index_keys {V : Type} (o : JsObject V) : list (Z * string) :=
  match o with
  | [] => []
  | (key, _) :: o' =>
      match array_index key with
      | Some n => insert_index (n, key) (index_keys o')
      | None => index_keys o'
      end
  end.

Fixpoint string_keys {V : Type} (o : JsObject V) : list string :=
  match o with
  | [] => []
  | (key, _) :: o' =>
      match array_index key with
      | Some _ => string_keys o'
      | None => key :: string_keys o'
      end
  end.

(** [Object.keys(o)]: the keys that are array indices in ascending numeric
    order, then the other keys in insertion order. *)
Definition Object_keys {V : Type} (o : JsObject V) : list string :=
  map snd (index_keys o) ++ string_keys o.

(** [o[key]]. *)
Fixpoint Object_get {V : Type} (o : JsObject V) (key : string) : option V :=
  match o with
  | [] => None
  | (k, v) :: o' => if String.eqb k key then Some v else Object_get o' key
  end.

(** ** The assembly *)

Record FunctionImportSignature : Type := {
  fis_signature : FunctionSignature
}.

Record FunctionImport : Type := {
  imp_importName : string;
  imp_signatures : list FunctionImportSignature
}.

(** A global variable is zero-initialized ([importName] is null) or bound to
    an import. *)
Record GlobalVariable : Type := {
  gv_type : types.Type_;
  gv_importName : option string
}.

Record FunctionPointerElement : Type := {
  el_value : Z
}.

Record FunctionPointerTable : Type := {
  fpt_signature : FunctionSignature;
  fpt_elements : list FunctionPointerElement
}.

(** [assembly.export]: a [DefaultExport], a [RecordExport], or a value of
    neither class. *)
Inductive Export : Type :=
| DefaultExport (function : FunctionDeclaration)
| RecordExport (functions : JsObject FunctionDeclaration)
| OtherExport.

(** The states of [Writer.State], in the order of their codes. *)
Inductive State : Type :=
| HEADER
| CONSTANTS_COUNT
| CONSTANTS_I32
| CONSTANTS_F32
| CONSTANTS_F64
| SIGNATURES_COUNT
| SIGNATURES
| FUNCTION_IMPORTS_COUNT
| FUNCTION_IMPORTS
| GLOBAL_VARIABLES_COUNT
| GLOBAL_VARIABLES
| FUNCTION_DECLARATIONS_COUNT
| FUNCTION_DECLARATIONS
| FUNCTION_POINTER_TABLES_COUNT
| FUNCTION_POINTER_TABLES
| FUNCTION_POINTER_ELEMENTS
| FUNCTION_DEFINITIONS
| EXPORT
| END
| ERROR.

Definition State_code (st : State) : nat :=
  match st with
  | HEADER => 0
  | CONSTANTS_COUNT => 1
  | CONSTANTS_I32 => 2
  | CONSTANTS_F32 => 3
  | CONSTANTS_F64 => 4
  | SIGNATURES_COUNT => 5
  | SIGNATURES => 6
  | FUNCTION_IMPORTS_COUNT => 7
  | FUNCTION_IMPORTS => 8
  | GLOBAL_VARIABLES_COUNT => 9
  | GLOBAL_VARIABLES => 10
  | FUNCTION_DECLARATIONS_COUNT => 11
  | FUNCTION_DECLARATIONS => 12
  | FUNCTION_POINTER_TABLES_COUNT => 13
  | FUNCTION_POINTER_TABLES => 14
  | FUNCTION_POINTER_ELEMENTS => 15
  | FUNCTION_DEFINITIONS => 16
  | EXPORT => 17
  | END => 18
  | ERROR => 19
  end.

(** The while loop of [_writeGlobalVariablesCount]:
    [while (current < vars.length && vars[current].type === type)], which
    returns the count and the position reached. *)
Fixpoint scan_globals (fuel : nat) (vars : list GlobalVariable)
    (type : types.Type_) (n current : nat) : nat * nat :=
  match fuel with
  | O => (n, current)
  | S fuel' =>
      match vars !! current with
      | Some v =>
          if types.Type_eqb (gv_type v) type
          then scan_globals fuel' vars type (S n) (S current)
          else (n, current)
      | None => (n, current)
      end
  end.

(** The [forEach] of [_writeFunctionDefinitions] over [definition.variables],
    [k] being the position of the variable at the head. *)
Fixpoint count_variables (def : FunctionDefinition) (vars : list LocalVariable)
    (k nI32Vars nF32Vars nF64Vars : nat) : result (nat * nat * nat) :=
  match vars with
  | [] => Ok (nI32Vars, nF32Vars, nF64Vars)
  | variable :: vars' =>
      if isArgument def k then
        count_variables def vars' (S k) nI32Vars nF32Vars nF64Vars
      else
        match var_type variable with
        | types.I32 =>
            count_variables def vars' (S k) (S nI32Vars) nF32Vars nF64Vars
        | types.F32 =>
            count_variables def vars' (S k) nI32Vars (S nF32Vars) nF64Vars
        | types.F64 =>
            count_variables def vars' (S k) nI32Vars nF32Vars (S nF64Vars)
        | types.Void => Throw (Error "illegal variable type")
        end
  end.

(** ** The writer *)

(** What the absent modules supply.  [Float] stands for the numbers of the
    F32 and F64 constant pools, with the buffer queue's two IEEE-754
    encodings; the other fields are constants of the [types] module
    ([TypeCode] gives the number a type tag is written as), [util.packWithImm]
    and the bytes the body writer ([ast/Writer]) emits for a function body. *)
Class Externals : Type := {
  Float : Type;
  floatLE : Float -> list Z;
  doubleLE : Float -> list Z;
  MagicNumber : Z;
  TypeCode : types.Type_ -> Z;
  VarType_I32 : Z;
  VarType_F32 : Z;
  VarType_F64 : Z;
  OpWithImm_ImmMax : Z;
  VarTypeWithImm_OnlyI32 : Z;
  packWithImm : Z -> Z -> Z;
  astEncode : FunctionDefinition -> list Z
}.

Section Writer.

Context `{Externals}.

(** The assembly: its pools, each constant by its [value]. *)
Record Assembly : Type := {
  precomputedSize : Z;
  constantsI32 : list Z;
  constantsF32 : list Float;
  constantsF64 : list Float;
  functionSignatures : list FunctionSignature;
  functionImports : list FunctionImport;
  functionImportSignaturePoolSize : nat;
  globalVariables : list GlobalVariable;
  functionDeclarations : list FunctionDeclaration;
  functionPointerTables : list FunctionPointerTable;
  functionDefinitions : list FunctionDefinition;
  export : Export
}.

(** Modelled from the spec: the pool accessors of the absent [Assembly] class
    ([getConstant], [getFunctionSignature], ...): the entry at an index of
    the pool, a range error outside it. *)
Definition pool_get {A : Type} (pool : list A) (i : nat) : result A :=
  match pool !! i with
  | Some x => Ok x
  | None => Throw (RangeError "index out of range")
  end.

Record Writer : Type := {
  state : State;
  bufferQueue : BufferQueue;
  sequence : nat;
  subSequence : nat;
  astWriter : option FunctionDefinition;
  _lastSwallowedRead : Z;
  pushed : list (list Z);
  ended : bool;
  errors : list exn
}.

(** [new Writer(assembly, options)]; [pushed] collects the chunks handed to
    [stream.Readable.push], [ended] records [push(null)] and [errors] the
    [error] events. *)
Definition new_Writer : Writer :=
  {| state := HEADER; bufferQueue := new_BufferQueue; sequence := 0;
     subSequence := 0; astWriter := None; _lastSwallowedRead := (-1)%Z;
     pushed := []; ended := false; errors := [] |}.

Definition set_state (st : State) (w : Writer) : Writer :=
  {| state := st; bufferQueue := bufferQueue w; sequence := sequence w;
     subSequence := subSequence w; astWriter := astWriter w;
     _lastSwallowedRead := _lastSwallowedRead w; pushed := pushed w;
     ended := ended w; errors := errors w |}.

Definition set_bufferQueue (q : BufferQueue) (w : Writer) : Writer :=
  {| state := state w; bufferQueue := q; sequence := sequence w;
     subSequence := subSequence w; astWriter := astWriter w;
     _lastSwallowedRead := _lastSwallowedRead w; pushed := pushed w;
     ended := ended w; errors := errors w |}.

Definition set_sequence (n : nat) (w : Writer) : Writer :=
  {| state := state w; bufferQueue := bufferQueue w; sequence := n;
     subSequence := subSequence w; astWriter := astWriter w;
     _lastSwallowedRead := _lastSwallowedRead w; pushed := pushed w;
     ended := ended w; errors := errors w |}.

Definition set_subSequence (n : nat) (w : Writer) : Writer :=
  {| state := state w; bufferQueue := bufferQueue w; sequence := sequence w;
     subSequence := n; astWriter := astWriter w;
     _lastSwallowedRead := _lastSwallowedRead w; pushed := pushed w;
     ended := ended w; errors := errors w |}.

Definition set_astWriter (o : option FunctionDefinition) (w : Writer) : Writer :=
  {| state := state w; bufferQueue := bufferQueue w; sequence := sequence w;
     subSequence := subSequence w; astWriter := o;
     _lastSwallowedRead := _lastSwallowedRead w; pushed := pushed w;
     ended := ended w; errors := errors w |}.

Definition set_lastSwallowedRead (size : Z) (w : Writer) : Writer :=
  {| state := state w; bufferQueue := bufferQueue w; sequence := sequence w;
     subSequence := subSequence w; astWriter := astWriter w;
     _lastSwallowedRead := size; pushed := pushed w;
     ended := ended w; errors := errors w |}.

(** [this.push(chunk)]. *)
Definition push_chunk (chunk : list Z) (w : Writer) : Writer :=
  {| state := state w; bufferQueue := bufferQueue w; sequence := sequence w;
     subSequence := subSequence w; astWriter := astWriter w;
     _lastSwallowedRead := _lastSwallowedRead w; pushed := pushed w ++ [chunk];
     ended := ended w; errors := errors w |}.

(** [this.push(null)]. *)
Definition push_null (w : Writer) : Writer :=
  {| state := state w; bufferQueue := bufferQueue w; sequence := sequence w;
     subSequence := subSequence w; astWriter := astWriter w;
     _lastSwallowedRead := _lastSwallowedRead w; pushed := pushed w;
     ended := true; errors := errors w |}.

(** [this.emit("error", err)]. *)
Definition emit_error (err : exn) (w : Writer) : Writer :=
  {| state := state w; bufferQueue := bufferQueue w; sequence := sequence w;
     subSequence := subSequence w; astWriter := astWriter w;
     _lastSwallowedRead := _lastSwallowedRead w; pushed := pushed w;
     ended := ended w; errors := errors w ++ [err] |}.

(** A method of the writer: it returns or raises, and leaves the writer as
    mutated up to that point. *)
Definition M (A : Type) : Type := Writer -> result A * Writer.

Definition wret {A : Type} (a : A) : M A := fun w => (Ok a, w).

Definition wthrow {A : Type} (e : exn) : M A := fun w => (Throw e, w).

Definition wbind {A B : Type} (m : M A) (k : A -> M B) : M B :=
  fun w =>
    match m w with
    | (Ok a, w') => k a w'
    | (Throw e, w') => (Throw e, w')
    end.

Definition wlift {A : Type} (r : result A) : M A := fun w => (r, w).

Definition modify (f : Writer -> Writer) : M unit := fun w => (Ok tt, f w).

Notation "'do!' x ':=' m 'in' k" := (wbind m (fun x => k))
  (at level 10, x name, m at level 100, k at level 200).
Notation "m >> k" := (wbind m (fun _ => k))
  (at level 65, right associativity).

(** The chained calls on [this.bufferQueue]. *)
Definition write (bytes : list Z) : M unit :=
  modify (fun w => set_bufferQueue (bq_write bytes (bufferQueue w)) w).

Definition writeUInt8 (v : Z) : M unit := write (uint8 v).
Definition writeUInt32LE (v : Z) : M unit := write (uint32LE v).
Definition writeVarint (v : Z) : M unit := write (varint v).
Definition writeFloatLE (v : Float) : M unit := write (floatLE v).
Definition writeDoubleLE (v : Float) : M unit := write (doubleLE v).

(** [writeCString(name)]; a [null] name has no encoding and raises. *)
Definition writeCString (name : option string) : M unit :=
  match name with
  | Some n => write (cstring n)
  | None => wthrow (TypeError "name is not a string")
  end.

Definition commit : M unit :=
  fun w =>
    match bq_commit (bufferQueue w) with
    | Ok q => (Ok tt, set_bufferQueue q w)
    | Throw e => (Throw e, w)
    end.

(** [while (cond) body], with the number of iterations bounded by [fuel]. *)
Fixpoint while_ (fuel : nat) (cond : Writer -> bool) (body : M unit) : M unit :=
  fun w =>
    match fuel with
    | O => (Ok tt, w)
    | S fuel' =>
        if cond w then
          match body w with
          | (Ok _, w') => while_ fuel' cond body w'
          | (Throw e, w') => (Throw e, w')
          end
        else (Ok tt, w)
    end.

(** [while (this.sequence < size) { body; ++this.sequence; }]: at most
    [size - this.sequence] iterations. *)
Definition while_sequence (size : nat) (body : nat -> M unit) : M unit :=
  fun w =>
    while_ (size - sequence w) (fun w' => sequence w' <? size)
      (fun w' =>
         (body (sequence w')
          >> modify (fun w'' => set_sequence (S (sequence w'')) w'')) w')
      w.

Definition while_subSequence (size : nat) (body : nat -> M unit) : M unit :=
  fun w =>
    while_ (size - subSequence w) (fun w' => subSequence w' <? size)
      (fun w' =>
         (body (subSequence w')
          >> modify (fun w'' => set_subSequence (S (subSequence w'')) w'')) w')
      w.

(** [array.forEach(f)]. *)
Fixpoint forEach {A : Type} (l : list A) (f : A -> M unit) : M unit :=
  match l with
  | [] => wret tt
  | x :: l' => f x >> forEach l' f
  end.

Variable assembly : Assembly.

Definition _writeHeader : M unit :=
  writeUInt32LE MagicNumber
  >> writeUInt32LE (precomputedSize assembly)
  >> commit
  >> modify (set_state CONSTANTS_COUNT).

Definition _writeConstantsCount : M unit :=
  let nI32 := length (constantsI32 assembly) in
  let nF32 := length (constantsF32 assembly) in
  let nF64 := length (constantsF64 assembly) in
  writeVarint (Z.of_nat nI32)
  >> writeVarint (Z.of_nat nF32)
  >> writeVarint (Z.of_nat nF64)
  >> commit
  >> modify (set_state CONSTANTS_I32)
  >> modify (set_sequence 0).

Definition _writeConstantsI32 : M unit :=
  let size := length (constantsI32 assembly) in
  while_sequence size (fun i =>
    do! constant := wlift (pool_get (constantsI32 assembly) i) in
    writeVarint constant >> commit)
  >> modify (set_state CONSTANTS_F32)
  >> modify (set_sequence 0).

Definition _writeConstantsF32 : M unit :=
  let size := length (constantsF32 assembly) in
  while_sequence size (fun i =>
    do! constant := wlift (pool_get (constantsF32 assembly) i) in
    writeFloatLE constant >> commit)
  >> modify (set_state CONSTANTS_F64)
  >> modify (set_sequence 0).

Definition _writeConstantsF64 : M unit :=
  let size := length (constantsF64 assembly) in
  while_sequence size (fun i =>
    do! constant := wlift (pool_get (constantsF64 assembly) i) in
    writeDoubleLE constant >> commit)
  >> modify (set_state SIGNATURES_COUNT).

Definition _writeSignaturesCount : M unit :=
  let count := length (functionSignatures assembly) in
  writeVarint (Z.of_nat count)
  >> commit
  >> modify (set_state SIGNATURES)
  >> modify (set_sequence 0).

Definition _writeSignatures : M unit :=
  let size := length (functionSignatures assembly) in
  while_sequence size (fun i =>
    do! signature := wlift (pool_get (functionSignatures assembly) i) in
    writeUInt8 (TypeCode (returnType signature))
    >> writeVarint (Z.of_nat (length (argumentTypes signature)))
    >> forEach (argumentTypes signature) (fun type => writeUInt8 (TypeCode type))
    >> commit)
  >> modify (set_state FUNCTION_IMPORTS_COUNT).

Definition _writeFunctionImportsCount : M unit :=
  let nImports := length (functionImports assembly) in
  let nSigs := functionImportSignaturePoolSize assembly in
  writeVarint (Z.of_nat nImports)
  >> writeVarint (Z.of_nat nSigs)
  >> commit
  >> modify (set_state FUNCTION_IMPORTS)
  >> modify (set_sequence 0).

Definition _writeFunctionImports : M unit :=
  let size := length (functionImports assembly) in
  while_sequence size (fun i =>
    do! imprt := wlift (pool_get (functionImports assembly) i) in
    writeCString (Some (imp_importName imprt))
    >> writeVarint (Z.of_nat (length (imp_signatures imprt)))
    >> forEach (imp_signatures imprt) (fun signature =>
         writeVarint (sig_index (fis_signature signature)))
    >> commit)
  >> modify (set_state GLOBAL_VARIABLES_COUNT).

Definition _writeGlobalVariablesCount : M unit :=
  let vars := globalVariables assembly in
  let fuel := length vars in
  let I32zero := scan_globals fuel vars types.I32 0 0 in
  let F32zero := scan_globals fuel vars types.F32 0 (snd I32zero) in
  let F64zero := scan_globals fuel vars types.F64 0 (snd F32zero) in
  let I32import := scan_globals fuel vars types.I32 0 (snd F64zero) in
  let F32import := scan_globals fuel vars types.F32 0 (snd I32import) in
  let F64import := scan_globals fuel vars types.F64 0 (snd F32import) in
  writeVarint (Z.of_nat (fst I32zero))
  >> writeVarint (Z.of_nat (fst F32zero))
  >> writeVarint (Z.of_nat (fst F64zero))
  >> modify (set_sequence (snd F64zero))
  >> writeVarint (Z.of_nat (fst I32import))
  >> writeVarint (Z.of_nat (fst F32import))
  >> wlift (assert_ (snd F64import =? length vars)
              "illegal order of global variables")
  >> writeVarint (Z.of_nat (fst F64import))
  >> commit
  >> modify (set_state GLOBAL_VARIABLES).

Definition _writeGlobalVariables : M unit :=
  let size := length (globalVariables assembly) in
  while_sequence size (fun i =>
    do! variable := wlift (pool_get (globalVariables assembly) i) in
    writeCString (gv_importName variable) >> commit)
  >> modify (set_state FUNCTION_DECLARATIONS_COUNT).

Definition _writeFunctionDeclarationsCount : M unit :=
  let count := length (functionDeclarations assembly) in
  writeVarint (Z.of_nat count)
  >> commit
  >> modify (set_state FUNCTION_DECLARATIONS)
  >> modify (set_sequence 0).

Definition _writeFunctionDeclarations : M unit :=
  let size := length (functionDeclarations assembly) in
  while_sequence size (fun i =>
    do! declaration := wlift (pool_get (functionDeclarations assembly) i) in
    writeVarint (sig_index (signature declaration)) >> commit)
  >> modify (set_state FUNCTION_POINTER_TABLES_COUNT).

Definition _writeFunctionPointerTablesCount : M unit :=
  let count := length (functionPointerTables assembly) in
  writeVarint (Z.of_nat count)
  >> commit
  >> modify (set_state FUNCTION_POINTER_TABLES)
  >> modify (set_sequence 0).

Definition _writeFunctionPointerTables : M unit :=
  let size := length (functionPointerTables assembly) in
  fun w =>
    if sequence w <? size then
      (do! table := wlift (pool_get (functionPointerTables assembly) (sequence w)) in
       writeVarint (sig_index (fpt_signature table))
       >> writeVarint (Z.of_nat (length (fpt_elements table)))
       >> commit
       >> modify (set_state FUNCTION_POINTER_ELEMENTS)
       >> modify (set_subSequence 0)) w
    else
      (modify (set_state FUNCTION_DEFINITIONS)
       >> modify (set_sequence 0)) w.

Definition _writeFunctionPointerElements : M unit :=
  fun w =>
    (do! table := wlift (pool_get (functionPointerTables assembly) (sequence w)) in
     while_subSequence (length (fpt_elements table)) (fun j =>
       do! element := wlift (pool_get (fpt_elements table) j) in
       writeVarint (el_value element) >> commit)
     >> modify (set_state FUNCTION_POINTER_TABLES)
     >> modify (fun w' => set_sequence (S (sequence w')) w')) w.

(** The local-count header of [_writeFunctionDefinitions], as the writes it
    stages for the three counts. *)
Definition write_variable_counts (nI32Vars nF32Vars nF64Vars : nat) : M unit :=
  if ((nF32Vars =? 0) && (nF64Vars =? 0)
      && (Z.of_nat nI32Vars <=? OpWithImm_ImmMax)%Z)%bool
  then writeUInt8 (packWithImm VarTypeWithImm_OnlyI32 (Z.of_nat nI32Vars))
  else
    let code := 0%Z in
    let code := if 0 <? nI32Vars then Z.lor code VarType_I32 else code in
    let code := if 0 <? nF32Vars then Z.lor code VarType_F32 else code in
    let code := if 0 <? nF64Vars then Z.lor code VarType_F64 else code in
    writeUInt8 code
    >> (if 0 <? nI32Vars then writeVarint (Z.of_nat nI32Vars) else wret tt)
    >> (if 0 <? nF32Vars then writeVarint (Z.of_nat nF32Vars) else wret tt)
    >> (if 0 <? nF64Vars then writeVarint (Z.of_nat nF64Vars) else wret tt).

(** [_writeFunctionDefinitions] returns [true] when it has created the body
    writer of the current definition and resumed it. *)
Definition _writeFunctionDefinitions : M bool :=
  let size := length (functionDeclarations assembly) in
  fun w =>
    if sequence w <? size then
      (do! definition := wlift (pool_get (functionDefinitions assembly) (sequence w)) in
       do! counts := wlift (count_variables definition (variables definition) 0 0 0 0) in
       write_variable_counts (fst (fst counts)) (snd (fst counts)) (snd counts)
       >> commit
       >> modify (set_astWriter (Some definition))
       >> wret true) w
    else
      (modify (set_state EXPORT) >> wret false) w.

Definition _writeExport : M unit :=
  match export assembly with
  | DefaultExport function =>
      writeUInt8 types.ExportFormat_Default
      >> writeVarint (decl_index function)
      >> commit
  | RecordExport functions =>
      writeUInt8 types.ExportFormat_Record
      >> writeVarint (Z.of_nat (length (Object_keys functions)))
      >> forEach (Object_keys functions) (fun name =>
           writeCString (Some name)
           >> match Object_get functions name with
              | Some function => writeVarint (decl_index function)
              | None => wthrow (TypeError "undefined has no index")
              end)
      >> commit
  | OtherExport => wthrow (Error "illegal export")
  end
  >> modify (set_state END).

(** The [case END: case ERROR:] branch: flush, clear, end the stream. *)
Definition finish (w : Writer) : Writer :=
  push_null
    (set_bufferQueue (bq_clear (bufferQueue w))
       (push_chunk (bq_toBuffer (bufferQueue w)) w)).

(** The [switch] of [_process]; [true] when [_process] returns after it. *)
Definition step : M bool :=
  fun w =>
    match state w with
    | HEADER => (_writeHeader >> wret false) w
    | CONSTANTS_COUNT => (_writeConstantsCount >> wret false) w
    | CONSTANTS_I32 => (_writeConstantsI32 >> wret false) w
    | CONSTANTS_F32 => (_writeConstantsF32 >> wret false) w
    | CONSTANTS_F64 => (_writeConstantsF64 >> wret false) w
    | SIGNATURES_COUNT => (_writeSignaturesCount >> wret false) w
    | SIGNATURES => (_writeSignatures >> wret false) w
    | FUNCTION_IMPORTS_COUNT => (_writeFunctionImportsCount >> wret false) w
    | FUNCTION_IMPORTS => (_writeFunctionImports >> wret false) w
    | GLOBAL_VARIABLES_COUNT => (_writeGlobalVariablesCount >> wret false) w
    | GLOBAL_VARIABLES => (_writeGlobalVariables >> wret false) w
    | FUNCTION_DECLARATIONS_COUNT => (_writeFunctionDeclarationsCount >> wret false) w
    | FUNCTION_DECLARATIONS => (_writeFunctionDeclarations >> wret false) w
    | FUNCTION_POINTER_TABLES_COUNT => (_writeFunctionPointerTablesCount >> wret false) w
    | FUNCTION_POINTER_TABLES => (_writeFunctionPointerTables >> wret false) w
    | FUNCTION_POINTER_ELEMENTS => (_writeFunctionPointerElements >> wret false) w
    | FUNCTION_DEFINITIONS => _writeFunctionDefinitions w
    | EXPORT => (_writeExport >> wret false) w
    | END | ERROR => (Ok true, finish w)
    end.

(** The [catch] branch for [E_MORE]: hand over what is committed, and wait
    for the next read. *)
Definition suspend (w : Writer) : Writer :=
  let q := bq_reset (bufferQueue w) in
  let buf := bq_toBuffer q in
  let w1 := push_chunk buf (set_bufferQueue q w) in
  if 0 <? length buf then set_bufferQueue (bq_clear q) w1 else w1.

(** The [while (true)] of [_process].  [None]: out of fuel. *)
Fixpoint process_loop (fuel : nat) (w : Writer) : option Writer :=
  match fuel with
  | O => None
  | S fuel' =>
      match step w with
      | (Ok true, w') => Some w'
      | (Ok false, w') => process_loop fuel' w'
      | (Throw E_MORE, w') => Some (suspend w')
      | (Throw err, w') => process_loop fuel' (set_state ERROR (emit_error err w'))
      end
  end.

Definition _process (fuel : nat) (w : Writer) : option Writer :=
  match state w with
  | END | ERROR => Some w
  | _ => process_loop fuel w
  end.

Definition _read (fuel : nat) (size : Z) (w : Writer) : option Writer :=
  match astWriter w with
  | Some _ => Some (set_lastSwallowedRead size w)
  | None =>
      if (size <=? 0)%Z then Some w
      else _process fuel (set_bufferQueue (bq_push (Z.to_nat size) (bufferQueue w)) w)
  end.

(** The three listeners that [_writeFunctionDefinitions] installs on the body
    writer.  The [end] listener defers its [_read] with [setImmediate]; the
    call is made here at once. *)
Definition on_astWriter_data (chunk : list Z) (w : Writer) : Writer :=
  push_chunk chunk w.

Definition on_astWriter_end (fuel : nat) (w : Writer) : option Writer :=
  let w1 := set_sequence (S (sequence w)) (set_astWriter None w) in
  _read fuel (_lastSwallowedRead w1) w1.

Definition on_astWriter_error (err : exn) (w : Writer) : Writer :=
  emit_error err (set_state ERROR (set_astWriter None w)).

(** Modelled from the spec: a run of the body writer ([ast/Writer], not among
    the sources) that completes.  It shares the writer's buffer queue, so
    what the writer had committed leaves with the body writer's data, ahead
    of the encoded statement tree; it then "reports an explicit completion
    signal". *)
Definition astWriter_run (fuel : nat) (w : Writer) : option Writer :=
  match astWriter w with
  | Some definition =>
      let chunk := bq_toBuffer (bufferQueue w) ++ astEncode definition in
      on_astWriter_end fuel
        (on_astWriter_data chunk
           (set_bufferQueue (bq_clear (bufferQueue w)) w))
  | None => Some w
  end.

(** What the environment does to a writer: the stream asks for [size] bytes,
    or the active body writer runs to completion, or it fails. *)
Inductive Event : Type :=
| Read (size : Z)
| BodyWritten
| BodyFailed (err : exn).

Definition handle (fuel : nat) (ev : Event) (w : Writer) : option Writer :=
  match ev with
  | Read size => _read fuel size w
  | BodyWritten => astWriter_run fuel w
  | BodyFailed err =>
      match astWriter w with
      | Some _ => Some (on_astWriter_error err w)
      | None => Some w
      end
  end.

Fixpoint run (fuel : nat) (events : list Event) (w : Writer) : option Writer :=
  match events with
  | [] => Some w
  | ev :: events' =>
      match handle fuel ev w with
      | Some w' => run fuel events' w'
      | None => None
      end
  end.

(** Every byte the writer has emitted or committed, in order. *)
Definition output (w : Writer) : list Z :=
  concat (pushed w) ++ committed (bufferQueue w).

(** *** The layout of the output

    The bytes of each entry and, for every state, the bytes that are still to
    come from that state on: the sections in the order of the states, the
    entries of a pool in the order of their indices, every table directly
    followed by its elements. *)

Definition signature_bytes (signature : FunctionSignature) : list Z :=
  uint8 (TypeCode (returnType signature))
  ++ varint (Z.of_nat (length (argumentTypes signature)))
  ++ flat_map (fun type => uint8 (TypeCode type)) (argumentTypes signature).

Definition import_bytes (imprt : FunctionImport) : list Z :=
  cstring (imp_importName imprt)
  ++ varint (Z.of_nat (length (imp_signatures imprt)))
  ++ flat_map (fun signature => varint (sig_index (fis_signature signature)))
       (imp_signatures imprt).

Definition global_name_bytes (variable : GlobalVariable) : list Z :=
  match gv_importName variable with
  | Some name => cstring name
  | None => []
  end.

Definition declaration_bytes (declaration : FunctionDeclaration) : list Z :=
  varint (sig_index (signature declaration)).

Definition element_bytes (element : FunctionPointerElement) : list Z :=
  varint (el_value element).

Definition table_header_bytes (table : FunctionPointerTable) : list Z :=
  varint (sig_index (fpt_signature table))
  ++ varint (Z.of_nat (length (fpt_elements table))).

Definition table_bytes (table : FunctionPointerTable) : list Z :=
  table_header_bytes table ++ flat_map element_bytes (fpt_elements table).

Definition variable_counts_bytes (nI32Vars nF32Vars nF64Vars : nat) : list Z :=
  if ((nF32Vars =? 0) && (nF64Vars =? 0)
      && (Z.of_nat nI32Vars <=? OpWithImm_ImmMax)%Z)%bool
  then uint8 (packWithImm VarTypeWithImm_OnlyI32 (Z.of_nat nI32Vars))
  else
    let code := 0%Z in
    let code := if 0 <? nI32Vars then Z.lor code VarType_I32 else code in
    let code := if 0 <? nF32Vars then Z.lor code VarType_F32 else code in
    let code := if 0 <? nF64Vars then Z.lor code VarType_F64 else code in
    uint8 code
    ++ (if 0 <? nI32Vars then varint (Z.of_nat nI32Vars) else [])
    ++ (if 0 <? nF32Vars then varint (Z.of_nat nF32Vars) else [])
    ++ (if 0 <? nF64Vars then varint (Z.of_nat nF64Vars) else []).

Definition definition_header_bytes (definition : FunctionDefinition) : list Z :=
  match count_variables definition (variables definition) 0 0 0 0 with
  | Ok counts =>
      variable_counts_bytes (fst (fst counts)) (snd (fst counts)) (snd counts)
  | Throw _ => []
  end.

Definition export_pair_bytes (functions : JsObject FunctionDeclaration)
    (name : string) : list Z :=
  cstring name
  ++ match Object_get functions name with
     | Some function => varint (decl_index function)
     | None => []
     end.

Definition export_bytes : list Z :=
  match export assembly with
  | DefaultExport function =>
      uint8 types.ExportFormat_Default ++ varint (decl_index function)
  | RecordExport functions =>
      uint8 types.ExportFormat_Record
      ++ varint (Z.of_nat (length (Object_keys functions)))
      ++ flat_map (export_pair_bytes functions) (Object_keys functions)
  | OtherExport => []
  end.

(** The six scans of [_writeGlobalVariablesCount]: the counts, and the
    position after the third scan. *)
Definition global_scans : list nat * nat * nat :=
  let vars := globalVariables assembly in
  let fuel := length vars in
  let I32zero := scan_globals fuel vars types.I32 0 0 in
  let F32zero := scan_globals fuel vars types.F32 0 (snd I32zero) in
  let F64zero := scan_globals fuel vars types.F64 0 (snd F32zero) in
  let I32import := scan_globals fuel vars types.I32 0 (snd F64zero) in
  let F32import := scan_globals fuel vars types.F32 0 (snd I32import) in
  let F64import := scan_globals fuel vars types.F64 0 (snd F32import) in
  ([fst I32zero; fst F32zero; fst F64zero;
    fst I32import; fst F32import; fst F64import],
   snd F64zero, snd F64import).

Definition global_counts_bytes : list Z :=
  flat_map (fun n => varint (Z.of_nat n)) (fst (fst global_scans)).

Definition from_export : list Z := export_bytes.

Definition from_definitions (seq : nat) : list Z :=
  flat_map (fun definition =>
              definition_header_bytes definition ++ astEncode definition)
    (drop seq (take (length (functionDeclarations assembly))
                 (functionDefinitions assembly)))
  ++ from_export.

Definition from_tables (seq : nat) : list Z :=
  flat_map table_bytes (drop seq (functionPointerTables assembly))
  ++ from_definitions 0.

Definition from_elements (seq sub : nat) : list Z :=
  match functionPointerTables assembly !! seq with
  | Some table => flat_map element_bytes (drop sub (fpt_elements table))
  | None => []
  end
  ++ from_tables (S seq).

Definition from_tables_count : list Z :=
  varint (Z.of_nat (length (functionPointerTables assembly))) ++ from_tables 0.

Definition from_declarations (seq : nat) : list Z :=
  flat_map declaration_bytes (drop seq (functionDeclarations assembly))
  ++ from_tables_count.

Definition from_declarations_count : list Z :=
  varint (Z.of_nat (length (functionDeclarations assembly)))
  ++ from_declarations 0.

Definition from_globals (seq : nat) : list Z :=
  flat_map global_name_bytes (drop seq (globalVariables assembly))
  ++ from_declarations_count.

Definition from_globals_count : list Z :=
  global_counts_bytes ++ from_globals (snd (fst global_scans)).

Definition from_imports (seq : nat) : list Z :=
  flat_map import_bytes (drop seq (functionImports assembly))
  ++ from_globals_count.

Definition from_imports_count : list Z :=
  varint (Z.of_nat (length (functionImports assembly)))
  ++ varint (Z.of_nat (functionImportSignaturePoolSize assembly))
  ++ from_imports 0.

Definition from_signatures (seq : nat) : list Z :=
  flat_map signature_bytes (drop seq (functionSignatures assembly))
  ++ from_imports_count.

Definition from_signatures_count : list Z :=
  varint (Z.of_nat (length (functionSignatures assembly)))
  ++ from_signatures 0.

Definition from_constantsF64 (seq : nat) : list Z :=
  flat_map doubleLE (drop seq (constantsF64 assembly))
  ++ from_signatures_count.

Definition from_constantsF32 (seq : nat) : list Z :=
  flat_map floatLE (drop seq (constantsF32 assembly))
  ++ from_constantsF64 0.

Definition from_constantsI32 (seq : nat) : list Z :=
  flat_map varint (drop seq (constantsI32 assembly))
  ++ from_constantsF32 0.

Definition from_constants_count : list Z :=
  varint (Z.of_nat (length (constantsI32 assembly)))
  ++ varint (Z.of_nat (length (constantsF32 assembly)))
  ++ varint (Z.of_nat (length (constantsF64 assembly)))
  ++ from_constantsI32 0.

Definition from_header : list Z :=
  uint32LE MagicNumber ++ uint32LE (precomputedSize assembly)
  ++ from_constants_count.

(** The whole module, and what is still to come from a state on. *)
Definition layout : list Z := from_header.

Definition pending (st : State) (seq sub : nat) : list Z :=
  match st with
  | HEADER => from_header
  | CONSTANTS_COUNT => from_constants_count
  | CONSTANTS_I32 => from_constantsI32 seq
  | CONSTANTS_F32 => from_constantsF32 seq
  | CONSTANTS_F64 => from_constantsF64 seq
  | SIGNATURES_COUNT => from_signatures_count
  | SIGNATURES => from_signatures seq
  | FUNCTION_IMPORTS_COUNT => from_imports_count
  | FUNCTION_IMPORTS => from_imports seq
  | GLOBAL_VARIABLES_COUNT => from_globals_count
  | GLOBAL_VARIABLES => from_globals seq
  | FUNCTION_DECLARATIONS_COUNT => from_declarations_count
  | FUNCTION_DECLARATIONS => from_declarations seq
  | FUNCTION_POINTER_TABLES_COUNT => from_tables_count
  | FUNCTION_POINTER_TABLES => from_tables seq
  | FUNCTION_POINTER_ELEMENTS => from_elements seq sub
  | FUNCTION_DEFINITIONS => from_definitions seq
  | EXPORT => from_export
  | END | ERROR => []
  end.

(** What is still to come for a writer: while a body writer is active, the
    body of the current definition and all that follows it. *)
Definition pending_of (w : Writer) : list Z :=
  match astWriter w with
  | Some definition => astEncode definition ++ from_definitions (S (sequence w))
  | None => pending (state w) (sequence w) (subSequence w)
  end.

(** The writer is at a step boundary of a run on [assembly]: nothing is
    staged, a body writer is active in [FUNCTION_DEFINITIONS] only, and the
    output so far followed by what is still to come is the layout; after an
    error the output is a prefix of the layout. *)
Definition consistent (w : Writer) : Prop :=
  match state w with
  | ERROR => astWriter w = None /\ exists suffix, output w ++ suffix = layout
  | st =>
      staged (bufferQueue w) = []
      /\ (astWriter w <> None -> st = FUNCTION_DEFINITIONS)
      /\ output w ++ pending_of w = layout
  end.

End Writer.

(** ** Notions used to state what a step does *)

(** The writer after [bytes] have been staged. *)
Definition stage (bytes : list Z) (w : Writer) : Writer :=
  set_bufferQueue (bq_write bytes (bufferQueue w)) w.

(** The writer after [bytes] have been committed on top of an empty batch. *)
Definition committing (bytes : list Z) (w : Writer) : Writer :=
  set_bufferQueue
    {| capacity := capacity (bufferQueue w);
       committed := committed (bufferQueue w) ++ bytes;
       staged := [] |} w.

(** [w'] differs from [w] at most in the two counters and in the staged and
    committed bytes. *)
Definition frame (w w' : Writer) : Prop :=
  state w' = state w
  /\ astWriter w' = astWriter w
  /\ pushed w' = pushed w
  /\ ended w' = ended w
  /\ errors w' = errors w
  /\ _lastSwallowedRead w' = _lastSwallowedRead w
  /\ capacity (bufferQueue w') = capacity (bufferQueue w).

(** [m] only stages [bytes]. *)
Definition stages (m : M unit) (bytes : list Z) : Prop :=
  forall w, m w = (Ok tt, stage bytes w).

(** [m] commits [bytes] in one batch and touches nothing else, or raises
    before anything of the batch is committed. *)
Definition emits (m : M unit) (bytes : list Z) : Prop :=
  forall w, staged (bufferQueue w) = [] ->
    match m w with
    | (Ok _, w') =>
        frame w w' /\ sequence w' = sequence w
        /\ subSequence w' = subSequence w
        /\ committed (bufferQueue w') = committed (bufferQueue w) ++ bytes
        /\ staged (bufferQueue w') = []
    | (Throw _, w') =>
        frame w w' /\ sequence w' = sequence w
        /\ subSequence w' = subSequence w
        /\ committed (bufferQueue w') = committed (bufferQueue w)
    end.

(** What holds of the writer [w'] reached when a step taken from [w] raises:
    the state is that of [w], nothing was handed over, and what is committed
    followed by what is still to come from the position reached is the
    layout. *)
Definition interrupted `{Externals} (assembly : Assembly) (w w' : Writer)
  : Prop :=
  state w' = state w
  /\ astWriter w' = None
  /\ pushed w' = pushed w
  /\ output w' ++ pending assembly (state w') (sequence w') (subSequence w')
     = layout assembly.

(** A bound on the iterations of [_process]'s loop that are left. *)
Definition remaining_steps `{Externals} (assembly : Assembly) (w : Writer)
  : nat :=
  let tables := length (functionPointerTables assembly) in
  match state w with
  | HEADER => 2 * tables + 19
  | CONSTANTS_COUNT => 2 * tables + 18
  | CONSTANTS_I32 => 2 * tables + 17
  | CONSTANTS_F32 => 2 * tables + 16
  | CONSTANTS_F64 => 2 * tables + 15
  | SIGNATURES_COUNT => 2 * tables + 14
  | SIGNATURES => 2 * tables + 13
  | FUNCTION_IMPORTS_COUNT => 2 * tables + 12
  | FUNCTION_IMPORTS => 2 * tables + 11
  | GLOBAL_VARIABLES_COUNT => 2 * tables + 10
  | GLOBAL_VARIABLES => 2 * tables + 9
  | FUNCTION_DECLARATIONS_COUNT => 2 * tables + 8
  | FUNCTION_DECLARATIONS => 2 * tables + 7
  | FUNCTION_POINTER_TABLES_COUNT => 2 * tables + 6
  | FUNCTION_POINTER_TABLES => 2 * (tables - sequence w) + 5
  | FUNCTION_POINTER_ELEMENTS => 2 * (tables - sequence w) + 4
  | FUNCTION_DEFINITIONS => 3
  | EXPORT => 2
  | END | ERROR => 1
  end.

(** What a step taken from [w] guarantees of its outcome. *)
Definition step_post `{Externals} (assembly : Assembly) (w : Writer)
    (r : result bool * Writer) : Prop :=
  match r with
  | (Ok again, w') =>
      consistent assembly w'
      /\ (again = false ->
          astWriter w' = None
          /\ remaining_steps assembly w' < remaining_steps assembly w)
  | (Throw _, w') =>
      interrupted assembly w w' /\ 1 < remaining_steps assembly w
  end.

(** Fuel that suffices for any call of [_process] on [assembly]. *)
Definition enough_fuel `{Externals} (assembly : Assembly) : nat :=
  2 * length (functionPointerTables assembly) + 19.

(** The outcome of a step that stages [bytes], commits them and then applies
    [after]. *)
Definition batch_outcome {A : Type} (bytes : list Z) (value : A)
    (after : Writer -> Writer) (w : Writer) : result A * Writer :=
  if length (committed (bufferQueue w)) + length bytes
       <=? capacity (bufferQueue w)
  then (Ok value, after (committing bytes w))
  else (Throw E_MORE, stage bytes w).

(** ** Well-formed assemblies *)

(** Modelled from the spec: the six groups of the global-variable pool, in
    their mandated order "[I32 zero-init][F32 zero-init][F64 zero-init][I32
    imported][F32 imported][F64 imported]". *)
Definition global_group (variable : GlobalVariable) : option nat :=
  match gv_importName variable, gv_type variable with
  | None, types.I32 => Some 0
  | None, types.F32 => Some 1
  | None, types.F64 => Some 2
  | Some _, types.I32 => Some 3
  | Some _, types.F32 => Some 4
  | Some _, types.F64 => Some 5
  | _, types.Void => None
  end.

Fixpoint grouped_from (group : nat) (vars : list GlobalVariable) : bool :=
  match vars with
  | [] => true
  | variable :: vars' =>
      match global_group variable with
      | Some group' => (group <=? group') && grouped_from group' vars'
      | None => false
      end
  end.

Definition in_grouped_order (vars : list GlobalVariable) : bool :=
  grouped_from 0 vars.

(** Modelled from the spec: an assembly is well formed when its global pool
    is in the grouped order, its definitions are one to one with its
    declarations by index, and its export is a default or a record export. *)
Definition well_formed `{Externals} (assembly : Assembly) : Prop :=
  in_grouped_order (globalVariables assembly) = true
  /\ map declaration (functionDefinitions assembly)
     = functionDeclarations assembly
  /\ export assembly <> OtherExport.

(** ** Sample data *)

(** Sample values for what the absent modules define; the F32 and F64
    constants of a sample are given by their bit patterns. *)
Definition sample_externals : Externals :=
  {| Float := Z;
     floatLE := uint32LE;
     doubleLE := fun v => uint32LE v ++ uint32LE (v / 2 ^ 32);
     MagicNumber := 1836278016;
     TypeCode := fun type =>
       match type with
       | types.I32 => 0 | types.F32 => 1 | types.F64 => 2 | types.Void => 3
       end%Z;
     VarType_I32 := 1;
     VarType_F32 := 2;
     VarType_F64 := 4;
     OpWithImm_ImmMax := 31;
     VarTypeWithImm_OnlyI32 := 0;
     packWithImm := fun code imm => Z.lor 128 (Z.lor (Z.shiftl code 5) imm);
     astEncode := fun _ => [] |}.

Definition sample_signature : FunctionSignature :=
  {| sig_index := 0; returnType := types.I32;
     argumentTypes := [types.F64; types.F64] |}.

Definition sample_declaration : FunctionDeclaration :=
  {| decl_index := 0; signature := sample_signature |}.

(** A function with two arguments and the given locals. *)
Definition sample_definition (nI32vars nF32vars nF64vars : nat)
  : FunctionDefinition :=
  new_FunctionDefinition sample_declaration nI32vars nF32vars nF64vars
    undefined undefined.

(** An assembly with one function, the given global pool and the given
    export. *)
Definition sample_assembly `{Externals} (definition : FunctionDefinition)
    (globals : list GlobalVariable) (exprt : Export) : Assembly :=
  {| precomputedSize := 0;
     constantsI32 := [5%Z; 300%Z];
     constantsF32 := [];
     constantsF64 := [];
     functionSignatures := [sample_signature];
     functionImports := [];
     functionImportSignaturePoolSize := 0;
     globalVariables := globals;
     functionDeclarations := [sample_declaration];
     functionPointerTables :=
       [{| fpt_signature := sample_signature;
           fpt_elements := [{| el_value := 0 |}; {| el_value := 0 |}] |}];
     functionDefinitions := [definition];
     export := exprt |}.

(** A writer as created, with [room] bytes of room in its queue. *)
Definition writer_with_room (room : nat) (st : State) : Writer :=
  set_state st (set_bufferQueue (bq_push room new_BufferQueue) new_Writer).

(** ** Notions used to state what [replace] does *)

(** [r] after [oldStmt] has been replaced by [newStmt]. *)
Definition subst_ref (oldStmt newStmt r : ref) : ref :=
  if decide (r = oldStmt) then newStmt else r.

Definition subst_operand (oldStmt newStmt : ref) (operand : Operand) : Operand :=
  match operand with
  | OStmt r => OStmt (subst_ref oldStmt newStmt r)
  | OImm v => OImm v
  end.

(** The nodes of the tree under the root list: a root, or a node operand of
    a node of the tree. *)
Inductive reachable (s : Store) (roots : list ref) : ref -> Prop :=
| reachable_root r : In r roots -> reachable s roots r
| reachable_operand r c :
    reachable s roots r -> In c (stmt_operands (operands_of s r)) ->
    reachable s roots c.

(** The nodes form a tree (or a graph without cycles) and stay one when
    [oldStmt] is replaced by [newStmt]: along every operand slot the rank
    falls, also when the slot is taken to hold [newStmt] for [oldStmt]. *)
Definition ranked (s : Store) (oldStmt newStmt : ref) (rank : ref -> nat)
  : Prop :=
  map_Forall
    (fun r node =>
       Forall (fun c => rank c < rank r
                        /\ rank (subst_ref oldStmt newStmt c) < rank r)
         (stmt_operands (operands node)))
    s.

(** A bound on the pops of [replace]'s loop that start from [r]: one for [r]
    and, down to [depth] levels, those of its operands before and after the
    substitution. *)
Fixpoint weight (s : Store) (oldStmt newStmt : ref) (depth : nat) (r : ref)
  : nat :=
  match depth with
  | O => 1
  | S depth' =>
      1 + sum_list_with (weight s oldStmt newStmt depth')
            (stmt_operands (operands_of s r))
        + sum_list_with (weight s oldStmt newStmt depth')
            (map (subst_ref oldStmt newStmt)
               (stmt_operands (operands_of s r)))
  end.

(** Fuel that suffices for [replace] on the roots [roots]. *)
Definition replace_fuel (s : Store) (oldStmt newStmt : ref)
    (rank : ref -> nat) (roots : list ref) : nat :=
  sum_list_with (fun r => weight s oldStmt newStmt (rank r) r) roots.

(** The invariant of [replace]'s loop, for the store [s1] it starts from:
    [s] has the nodes of [s1] with their class, code and behavior; the nodes
    of [visited] have had the substitution applied to their operands; the
    other nodes have the operands they had; and every operand that a visited
    node had in [s1] is visited or on the stack. *)
Definition same_shape (s1 s : Store) : Prop :=
  forall r,
    match s1 !! r, s !! r with
    | Some node1, Some node =>
        cls node = cls node1 /\ code node = code node1
        /\ behavior node = behavior node1
    | None, None => True
    | _, _ => False
    end.

Definition replace_invariant (s1 : Store) (oldStmt newStmt : ref)
    (visited : list ref) (s : Store) (stack : list ref) : Prop :=
  same_shape s1 s
  /\ (forall v, In v visited ->
        operands_of s v
        = map (subst_operand oldStmt newStmt) (operands_of s1 v))
  /\ (forall r, ~ In r visited -> operands_of s r = operands_of s1 r)
  /\ (forall v c, In v visited ->
        In c (stmt_operands (operands_of s1 v)) ->
        In c visited \/ In c stack).

(** ** A sample tree for the optimizer *)

Definition sample_store : Store :=
  <[10 := {| cls := CStmt; code := 1; operands := [OStmt 1; OImm 7; OStmt 1];
             behavior := 0 |}]>
  (<[11 := {| cls := CStmt; code := 2; operands := [OStmt 1]; behavior := 0 |}]>
  (<[1 := {| cls := CExpr types.I32; code := 3; operands := [OStmt 2];
             behavior := 1 |}]>
  (<[2 := {| cls := CExpr types.I32; code := 4; operands := []; behavior := 0 |}]>
  (<[3 := {| cls := CExpr types.I32; code := 5; operands := [OStmt 4];
             behavior := 0 |}]>
  (<[4 := {| cls := CExpr types.I32; code := 6; operands := []; behavior := 0 |}]>
   ∅))))).


Definition sample_rank (r : ref) : nat :=
  if (r =? 10) || (r =? 11) then 2
  else if (r =? 1) || (r =? 3) then 1
  else 0.

(** ** [LoadBehavior] *)

Record LoadBehavior : Type := {
  lb_name : string;
  lb_description : string;
  lb_heapType : types.Type_
}.

(** [LoadBehavior.prototype.validate]. *)
Definition LoadBehavior_validate (this : LoadBehavior) (s : Store)
    (definition : FunctionDefinition) (stmt : Stmt) : result unit :=
  run! assert_ (length (operands stmt) =? 1)
         "Load requires exactly 1 operand" in
  let index := operands stmt !! 0 in
  assert_ (instanceof_ExprI32 s index)
    "Load heap index (operand 0) must be an I32 expression".

(** ** Notions used to state what a run of [optimize] visits *)

(** The nodes form a tree (or a graph without cycles): along every operand
    slot the rank falls. *)
Definition acyclic (s : Store) (rank : ref -> nat) : Prop :=
  map_Forall
    (fun r node => Forall (fun c => rank c < rank r)
                     (stmt_operands (operands node)))
    s.

(** The nodes under [r] down to [depth] levels, parent first, the node
    operands of a node from the first to the last; a node that fills several
    slots is listed once for each. *)
Fixpoint preorder (s : Store) (depth : nat) (r : ref) : list ref :=
  r :: match depth with
       | O => []
       | S depth' =>
           flat_map (preorder s depth') (stmt_operands (operands_of s r))
       end.

(** The trees under a list of roots, in the order of the roots. *)
Definition preorder_all (s : Store) (rank : ref -> nat) (roots : list ref)
  : list ref :=
  flat_map (fun r => preorder s (rank r) r) roots.

(** A slot after [replace]: as it was, or [newStmt] where it held
    [oldStmt]. *)
Definition slot_replaced {A : Type} (oldSlot newSlot before after : A) : Prop :=
  after = before \/ (before = oldSlot /\ after = newSlot).

(** [definition.ast = roots]. *)
Definition set_ast (roots : list ref) (def : FunctionDefinition)
  : FunctionDefinition :=
  {| declaration := declaration def; variables := variables def;
     byteOffset := byteOffset def; byteLength := byteLength def;
     ast := Some roots |}.

(** A behavior table whose only [optimize], that of behavior 1, returns the
    node it is given and touches nothing. *)
Definition idle_optimizeOf (b : nat)
  : option (FunctionDefinition -> Store -> ref -> Store * ref) :=
  if b =? 1 then Some (fun _ s r => (s, r)) else None.

(** ** Notions used to state what a run of the writer keeps *)

(** The states in which [_process] still has steps to take. *)
Definition active (st : State) : Prop := st <> END /\ st <> ERROR.

Definition unfailed (st : State) : Prop := st <> ERROR.

(** A method that, called in a state of [allowed], leaves the writer in a
    state of [allowed] and neither pushes to the stream, nor ends it, nor
    emits an error. *)
Definition orderly (allowed : State -> Prop) {A : Type} (m : M A) : Prop :=
  forall w, allowed (state w) ->
    allowed (state (snd (m w)))
    /\ pushed (snd (m w)) = pushed w
    /\ ended (snd (m w)) = ended w
    /\ errors (snd (m w)) = errors w.

(** What holds of the writer whenever [_process] is entered or left: the
    stream has been ended exactly in [END] and [ERROR] reached by [_process],
    with nothing left in the queue, and an error has been emitted, once,
    exactly in [ERROR]. *)
Definition settled (w : Writer) : Prop :=
  (state w = END ->
     ended w = true /\ committed (bufferQueue w) = []
     /\ staged (bufferQueue w) = [])
  /\ (ended w = true -> state w = END \/ state w = ERROR)
  /\ (state w = ERROR -> length (errors w) = 1)
  /\ (state w <> ERROR -> errors w = []).

(** What holds of the writer between two steps of one call of [_process]. *)
Definition inflight (w : Writer) : Prop :=
  ended w = false
  /\ (state w = ERROR -> length (errors w) = 1)
  /\ (state w <> ERROR -> errors w = []).

(** ** Notions used to state what the scan of the global pool accepts *)

(** The variables that one loop of [_writeGlobalVariablesCount] leaves: those
    from the first whose type is not [type]. *)
Fixpoint skip_type (type : types.Type_) (vars : list GlobalVariable)
  : list GlobalVariable :=
  match vars with
  | [] => []
  | variable :: vars' =>
      if types.Type_eqb (gv_type variable) type then skip_type type vars'
      else vars
  end.

(** The type of the variables of a group of the pool. *)
Definition group_type (group : nat) : types.Type_ :=
  match group with
  | 0 | 3 => types.I32
  | 1 | 4 => types.F32
  | 2 | 5 => types.F64
  | _ => types.Void
  end.

(** ** [FunctionDefinition.prototype.asmHeader] *)

(** The line feed of the string literals. *)
Definition newline : string := String (ascii_of_nat 10) EmptyString.

Section AsmHeader.

(** What the absent modules supply: [declaration.name], the local names of
    [assembly.localName] and the name that
    [util.hotStdLibName(types.HotStdLib.FRound)] returns. *)
Variable declaration_name : FunctionDeclaration -> string.
Variable localName : nat -> string.
Variable FRound : string.

(** The [for] over the arguments that pushes their names, [sb] being the
    array of pieces. *)
Definition asmHeader_names (args : list types.Type_) (sb : list string)
  : list string :=
  fold_left
    (fun sb i =>
       let sb := if 0 <? i then sb ++ [","] else sb in
       sb ++ [localName i])
    (seq 0 (length args)) sb.

(** The [for] over the arguments that pushes their coercions. *)
Definition asmHeader_coercions (indent ws nl : string)
    (args : list types.Type_) (sb : list string) : list string :=
  fold_left
    (fun sb i =>
       let sb := sb ++ [indent; localName i; ws; "="; ws] in
       match args !! i with
       | Some types.I32 => sb ++ [localName i; "|0;"; nl]
       | Some types.F32 => sb ++ [FRound; "("; localName i; ");"; nl]
       | Some types.F64 => sb ++ ["+"; localName i; ";"; nl]
       | _ => sb
       end)
    (seq 0 (length args)) sb.

(** The [for] over the variables that are not arguments. *)
Definition asmHeader_locals (indent ws nl : string) (def : FunctionDefinition)
    (sb : list string) : list string :=
  let args := argumentTypes (signature (declaration def)) in
  fold_left
    (fun sb i =>
       let sb := if length args <? i then sb ++ [","; nl; indent] else sb in
       let sb := sb ++ [localName (i + length args); ws; "="; ws] in
       match option_map var_type (variables def !! i) with
       | Some types.I32 => sb ++ ["0"]
       | Some types.F32 => sb ++ [FRound; "(0)"]
       | Some types.F64 => sb ++ ["0."]
       | _ => sb
       end)
    (seq (length args) (length (variables def) - length args)) sb.

(** [asmHeader(pack)]: the pieces are pushed to [sb] and joined at the
    end. *)
Definition asmHeader (def : FunctionDefinition) (pack : bool) : string :=
  let indent := if pack then "" else "    " in
  let ws := if pack then "" else " " in
  let nl := if pack then "" else newline in
  let sb := ["function "; declaration_name (declaration def); "("] in
  let args := argumentTypes (signature (declaration def)) in
  let sb := asmHeader_names args sb in
  let sb := sb ++ [")"; ws; "{" +:+ newline] in
  let sb :=
    if 0 <? length args then asmHeader_coercions indent ws nl args sb
    else sb in
  let sb :=
    if length args <? length (variables def)
    then asmHeader_locals indent ws nl def (sb ++ [indent; "var "]) ++ [";"]
    else sb in
  String.concat "" sb.

End AsmHeader.

(** Sample names: the function [f], the locals [a], [b], [c], ..., and
    [fround]. *)
Definition sample_localName (i : nat) : string :=
  String (ascii_of_nat (97 + i)) EmptyString.

(** ** Notions used to state what the count of the local variables returns *)

(** The types of the variables of [vars] that are not arguments, in the order
    of the table, [k] being the position of the variable at the head. *)
Fixpoint local_types (def : FunctionDefinition) (vars : list LocalVariable)
    (k : nat) : list types.Type_ :=
  match vars with
  | [] => []
  | variable :: vars' =>
      if isArgument def k then local_types def vars' (S k)
      else var_type variable :: local_types def vars' (S k)
  end.

(** How many of [l] are [type]. *)
Definition count_type (type : types.Type_) (l : list types.Type_) : nat :=
  length (List.filter (types.Type_eqb type) l).

(** A definition whose table holds, after the two arguments, an F32, an I32
    and an F32 variable: a table that the constructor does not build. *)
Definition mixed_definition : FunctionDefinition :=
  {| declaration := sample_declaration;
     variables := map new_LocalVariable
                    [types.F64; types.F64; types.F32; types.I32; types.F32];
     byteOffset := -1; byteLength := -1; ast := None |}.

(** A tree in which a replacement wraps the node it replaces: node 20 has
    node 1 as its operand and is not under node 10. *)
Definition wrap_store : Store :=
  <[10 := {| cls := CStmt; code := 1; operands := [OStmt 1]; behavior := 0 |}]>
  (<[1 := {| cls := CExpr types.I32; code := 2; operands := [];
             behavior := 1 |}]>
  (<[20 := {| cls := CExpr types.I32; code := 3; operands := [OStmt 1];
              behavior := 0 |}]>
   ∅)).



(** * Part II: the properties *)

(** ** The function definition: variable table and constructor *)

Lemma lookup_map {A B : Type} (f : A -> B) (l : list A) (k : nat) :
  map f l !! k = option_map f (l !! k).
Proof.
  revert k; induction l as [|x l IH]; intros [|k]; simpl; auto.
Qed.

Lemma variables_length declaration i f d bo bl :
  length (variables (new_FunctionDefinition declaration i f d bo bl))
  = length (argumentTypes (signature declaration)) + i + f + d.
Proof.
  simpl. rewrite !length_app, !length_replicate, length_map. lia.
Qed.

(** The table of a constructed definition, position by position. *)
Lemma variables_lookup declaration i f d bo bl (k : nat) :
  let args := argumentTypes (signature declaration) in
  let a := length args in
  variables (new_FunctionDefinition declaration i f d bo bl) !! k
  = if k <? a then option_map new_LocalVariable (args !! k)
    else if k <? a + i then Some (new_LocalVariable types.I32)
    else if k <? a + i + f then Some (new_LocalVariable types.F32)
    else if k <? a + i + f + d then Some (new_LocalVariable types.F64)
    else None.
Proof.
  simpl.
  destruct (Nat.ltb_spec k (length (argumentTypes (signature declaration)))) as [Ha|Ha].
  { rewrite lookup_app_l by (rewrite length_map; lia). apply lookup_map. }
  rewrite lookup_app_r by (rewrite length_map; lia). rewrite length_map.
  destruct (Nat.ltb_spec k (length (argumentTypes (signature declaration)) + i)) as [Hi|Hi].
  { rewrite lookup_app_l by (rewrite length_replicate; lia).
    apply lookup_replicate_2. lia. }
  rewrite lookup_app_r by (rewrite length_replicate; lia). rewrite length_replicate.
  destruct (Nat.ltb_spec k (length (argumentTypes (signature declaration)) + i + f)) as [Hf|Hf].
  { rewrite lookup_app_l by (rewrite length_replicate; lia).
    apply lookup_replicate_2. lia. }
  rewrite lookup_app_r by (rewrite length_replicate; lia). rewrite length_replicate.
  destruct (Nat.ltb_spec k (length (argumentTypes (signature declaration)) + i + f + d)) as [Hd|Hd].
  { apply lookup_replicate_2. lia. }
  apply lookup_replicate_None. lia.
Qed.

Lemma getVariable_in_range def (k : nat) :
  k < length (variables def) ->
  getVariable def (Z.of_nat k) = Ok (variables def !! k).
Proof.
  intros Hk. unfold getVariable, assertInteger.
  replace ((0 <=? Z.of_nat k)%Z && (Z.of_nat k <=? Z.of_nat (length (variables def)) - 1)%Z)
    with true.
  - simpl. now rewrite Nat2Z.id.
  - symmetry. apply andb_true_iff. split; apply Z.leb_le; lia.
Qed.

Lemma getVariable_out_of_range def (index : Z) :
  (index < 0 \/ Z.of_nat (length (variables def)) <= index)%Z ->
  getVariable def index = Throw (RangeError "index out of range").
Proof.
  intros Hk. unfold getVariable, assertInteger.
  replace ((0 <=? index)%Z && (index <=? Z.of_nat (length (variables def)) - 1)%Z)
    with false; [reflexivity|].
  symmetry. apply andb_false_iff.
  destruct Hk; [left|right]; apply Z.leb_gt; lia.
Qed.

(** C4: for a definition constructed with [a] arguments and [i] I32, [f] F32
    and [d] F64 locals, [getVariable(k)] returns the variable of argument [k]
    for [k < a], an I32 local for [a <= k < a+i], an F32 local for
    [a+i <= k < a+i+f], an F64 local for [a+i+f <= k < a+i+f+d], and raises a
    range error for [k >= a+i+f+d]. *)
Theorem getVariable_by_index (declaration : FunctionDeclaration)
    (i f d : nat) (byteOffset byteLength : JsNumber) (k : nat) :
  let def := new_FunctionDefinition declaration i f d byteOffset byteLength in
  let args := argumentTypes (signature declaration) in
  let a := length args in
  (k < a ->
     exists type, args !! k = Some type
       /\ getVariable def (Z.of_nat k) = Ok (Some (new_LocalVariable type))
       /\ isArgument def k = true)
  /\ (a <= k < a + i ->
        getVariable def (Z.of_nat k) = Ok (Some (new_LocalVariable types.I32))
        /\ isArgument def k = false)
  /\ (a + i <= k < a + i + f ->
        getVariable def (Z.of_nat k) = Ok (Some (new_LocalVariable types.F32))
        /\ isArgument def k = false)
  /\ (a + i + f <= k < a + i + f + d ->
        getVariable def (Z.of_nat k) = Ok (Some (new_LocalVariable types.F64))
        /\ isArgument def k = false)
  /\ (a + i + f + d <= k ->
        exists msg, getVariable def (Z.of_nat k) = Throw (RangeError msg)).
Proof.
  intros def args a.
  assert (Hlen : length (variables def) = a + i + f + d)
    by apply variables_length.
  assert (Hlook := variables_lookup declaration i f d byteOffset byteLength k).
  cbv zeta in Hlook. fold def args a in Hlook.
  assert (Harg : isArgument def k = (k <? a)) by reflexivity.
  repeat split.
  - intros Hk.
    destruct (lookup_lt_is_Some_2 args k Hk) as [type Htype].
    exists type. split; [exact Htype|].
    rewrite getVariable_in_range by lia. rewrite Hlook, Harg.
    destruct (Nat.ltb_spec k a); [|lia]. now rewrite Htype.
  - rewrite getVariable_in_range by lia. rewrite Hlook.
    destruct (Nat.ltb_spec k a); [lia|].
    destruct (Nat.ltb_spec k (a + i)); [reflexivity|lia].
  - rewrite Harg. apply Nat.ltb_ge. lia.
  - rewrite getVariable_in_range by lia. rewrite Hlook.
    destruct (Nat.ltb_spec k a); [lia|].
    destruct (Nat.ltb_spec k (a + i)); [lia|].
    destruct (Nat.ltb_spec k (a + i + f)); [reflexivity|lia].
  - rewrite Harg. apply Nat.ltb_ge. lia.
  - rewrite getVariable_in_range by lia. rewrite Hlook.
    destruct (Nat.ltb_spec k a); [lia|].
    destruct (Nat.ltb_spec k (a + i)); [lia|].
    destruct (Nat.ltb_spec k (a + i + f)); [lia|].
    destruct (Nat.ltb_spec k (a + i + f + d)); [reflexivity|lia].
  - rewrite Harg. apply Nat.ltb_ge. lia.
  - intros Hk. eexists. apply getVariable_out_of_range. right. lia.
Qed.

(** C10: the constructor stores [-1] for a [byteOffset] argument of [0] and
    for a [byteLength] argument that is [0] or left out; every falsy offset
    or length becomes [-1]. *)
Theorem constructor_coerces_falsy (declaration : FunctionDeclaration)
    (i f d : nat) (offset len : JsNumber) :
  byteOffset (new_FunctionDefinition declaration i f d (num 0) len) = (-1)%Z
  /\ byteLength (new_FunctionDefinition declaration i f d offset (num 0)) = (-1)%Z
  /\ byteLength (new_FunctionDefinition declaration i f d offset undefined) = (-1)%Z
  /\ (truthy offset = false ->
      byteOffset (new_FunctionDefinition declaration i f d offset len) = (-1)%Z)
  /\ (truthy len = false ->
      byteLength (new_FunctionDefinition declaration i f d offset len) = (-1)%Z).
Proof.
  repeat split; simpl.
  - destruct offset as [|z]; simpl; [reflexivity|].
    destruct (z =? 0)%Z; simpl; [reflexivity|discriminate].
  - destruct len as [|z]; simpl; [reflexivity|].
    destruct (z =? 0)%Z; simpl; [reflexivity|discriminate].
Qed.

(** ** Validation of a store node *)

Section ValidateFacts.

Variable RTypeNames : types.Type_ -> string.

Lemma Type_eqb_eq (a b : types.Type_) : types.Type_eqb a b = true <-> a = b.
Proof. destruct a, b; simpl; split; congruence. Qed.

(** C8, as amended: validation of a store node raises when the operand count
    is not 2; else raises, naming the heap index, when operand 0 is not an
    I32 expression; else raises when operand 1 is not an expression; else
    raises, naming the expected heap type, when the type of operand 1 is not
    the behavior's heap type; and succeeds otherwise. *)
Theorem StoreBehavior_validate_cases (this : StoreBehavior) (s : Store)
    (definition : FunctionDefinition) (stmt : Stmt) :
  let index := operands stmt !! 0 in
  let value := operands stmt !! 1 in
  let validate := StoreBehavior_validate RTypeNames this s definition stmt in
  (length (operands stmt) <> 2 ->
     validate = Throw (AssertionError "Store requires exactly 2 operands"))
  /\ (length (operands stmt) = 2 -> instanceof_ExprI32 s index = false ->
        validate = Throw (AssertionError
          "Store heap index (operand 0) must be an I32 expression"))
  /\ (length (operands stmt) = 2 -> instanceof_ExprI32 s index = true ->
        as_BaseExpr s value = None ->
        validate = Throw (AssertionError
          "Store value (operand 1) must be an expression"))
  /\ (forall type,
        length (operands stmt) = 2 -> instanceof_ExprI32 s index = true ->
        as_BaseExpr s value = Some type -> type <> heapType this ->
        validate = Throw (AssertionError
          ("Store value (operand 1) expression must be "
             +:+ RTypeNames (heapType this))))
  /\ (length (operands stmt) = 2 -> instanceof_ExprI32 s index = true ->
        as_BaseExpr s value = Some (heapType this) ->
        validate = Ok tt).
Proof.
  intros index value validate. subst index value validate.
  unfold StoreBehavior_validate.
  repeat split.
  - intros Hlen. apply Nat.eqb_neq in Hlen. now rewrite Hlen.
  - intros -> Hindex. simpl. now rewrite Hindex.
  - intros -> Hindex Hvalue. simpl. now rewrite Hindex, Hvalue.
  - intros type -> Hindex Hvalue Htype. simpl. rewrite Hindex, Hvalue. simpl.
    destruct (types.Type_eqb type (heapType this)) eqn:E; [|reflexivity].
    apply Type_eqb_eq in E. contradiction.
  - intros -> Hindex Hvalue. simpl. rewrite Hindex, Hvalue. simpl.
    now rewrite (proj2 (Type_eqb_eq _ _) eq_refl).
Qed.

End ValidateFacts.

(** C8 as stated fails in its last clause: a node with two operands, an I32
    expression as operand 0 and a plain statement as operand 1 meets none of
    the three failure conditions of the claim, and validation raises. *)
Lemma StoreBehavior_validate_not_otherwise_ok :
  ~ (forall (RTypeNames : types.Type_ -> string) (this : StoreBehavior)
       (s : Store) (definition : FunctionDefinition) (stmt : Stmt),
       length (operands stmt) = 2 ->
       instanceof_ExprI32 s (operands stmt !! 0) = true ->
       (forall type, as_BaseExpr s (operands stmt !! 1) = Some type ->
                     type = heapType this) ->
       StoreBehavior_validate RTypeNames this s definition stmt = Ok tt).
Proof.
  intros claim.
  set (s := (<[0 := {| cls := CExpr types.I32; code := 1%Z; operands := [];
                       behavior := 0 |}]>
             (<[1 := {| cls := CStmt; code := 2%Z; operands := [];
                        behavior := 0 |}]> ∅)) : Store).
  specialize (claim (fun _ => "I32"%string)
    {| sb_name := "StoreI32"; sb_description := ""; heapType := types.I32 |}
    s
    (new_FunctionDefinition
       {| decl_index := 0%Z;
          signature := {| sig_index := 0%Z; returnType := types.Void;
                          argumentTypes := [] |} |} 0 0 0 undefined undefined)
    {| cls := CStmt; code := 3%Z; operands := [OStmt 0; OStmt 1];
       behavior := 0 |}).
  specialize (claim eq_refl eq_refl).
  assert (H : forall type,
             as_BaseExpr s ([OStmt 0; OStmt 1] !! 1) = Some type ->
             type = types.I32).
  { intros type Htype. vm_compute in Htype. discriminate. }
  specialize (claim H). vm_compute in claim. discriminate.
Qed.

(** The amended claim at a concrete node: a store of an F64 value through a
    behavior whose heap type is I32 is rejected with the expected type named. *)
Lemma StoreBehavior_validate_cases_witness :
  StoreBehavior_validate (fun _ => "I32"%string)
    {| sb_name := "StoreI32"; sb_description := ""; heapType := types.I32 |}
    (<[0 := {| cls := CExpr types.I32; code := 1%Z; operands := [];
               behavior := 0 |}]>
       (<[1 := {| cls := CExpr types.F64; code := 2%Z; operands := [];
                  behavior := 0 |}]> ∅))
    (new_FunctionDefinition
       {| decl_index := 0%Z;
          signature := {| sig_index := 0%Z; returnType := types.Void;
                          argumentTypes := [] |} |} 0 0 0 undefined undefined)
    {| cls := CStmt; code := 3%Z; operands := [OStmt 0; OStmt 1];
       behavior := 0 |}
  = Throw (AssertionError "Store value (operand 1) expression must be I32").
Proof.
  refine (proj1 (proj2 (proj2 (proj2
    (StoreBehavior_validate_cases (fun _ => "I32"%string) _ _ _ _))))
    types.F64 _ _ _ _); vm_compute; congruence.
Defined.

(** ** The writer: what a batch and a loop do *)

Section WriterFacts.

Context `{Externals}.
Variable assembly : Assembly.

Lemma frame_refl w : frame w w.
Proof. unfold frame; tauto. Qed.

Lemma frame_trans w1 w2 w3 : frame w1 w2 -> frame w2 w3 -> frame w1 w3.
Proof. unfold frame; intuition congruence. Qed.

Lemma stage_nil w : stage [] w = w.
Proof.
  destruct w as [st [cap com stg] sq sb aw ls pu en er].
  unfold stage, set_bufferQueue, bq_write; simpl. now rewrite app_nil_r.
Qed.

Lemma stage_app a b w : stage b (stage a w) = stage (a ++ b) w.
Proof.
  unfold stage, set_bufferQueue, bq_write; simpl. now rewrite app_assoc.
Qed.

Lemma stages_write bytes : stages (write bytes) bytes.
Proof. intros w; reflexivity. Qed.

Lemma stages_ret : stages (wret tt) [].
Proof. intros w; unfold wret. now rewrite stage_nil. Qed.

Lemma stages_bind m1 m2 b1 b2 :
  stages m1 b1 -> stages m2 b2 -> stages (wbind m1 (fun _ => m2)) (b1 ++ b2).
Proof.
  intros H1 H2 w. unfold wbind. rewrite H1, H2. now rewrite stage_app.
Qed.

Lemma stages_forEach {A : Type} (f : A -> M unit) (enc : A -> list Z) l :
  (forall x, stages (f x) (enc x)) -> stages (forEach l f) (flat_map enc l).
Proof.
  intros Hf. induction l as [|x l IH]; simpl.
  - apply stages_ret.
  - apply stages_bind; auto.
Qed.

(** A staged batch followed by [commit]. *)
Lemma commit_staged bytes w :
  staged (bufferQueue w) = [] ->
  commit (stage bytes w)
  = if length (committed (bufferQueue w)) + length bytes
         <=? capacity (bufferQueue w)
    then (Ok tt, committing bytes w)
    else (Throw E_MORE, stage bytes w).
Proof.
  intros Hs. unfold commit, bq_commit, stage, committing; simpl.
  rewrite Hs; simpl.
  destruct (_ <=? _); reflexivity.
Qed.

Lemma emits_batch m bytes : stages m bytes -> emits (wbind m (fun _ => commit)) bytes.
Proof.
  intros Hm w Hs. unfold wbind. rewrite Hm, commit_staged by exact Hs.
  destruct (_ <=? _); unfold frame, committing, stage; simpl; tauto.
Qed.

Lemma emits_get {A : Type} (pool : list A) (i : nat) (x : A)
    (body : A -> M unit) bytes :
  pool !! i = Some x -> emits (body x) bytes ->
  emits (wbind (wlift (pool_get pool i)) body) bytes.
Proof.
  intros Hx Hb w Hs. unfold wbind, wlift, pool_get. rewrite Hx. now apply Hb.
Qed.

Lemma while_unfold fuel cond (body : M unit) w :
  while_ (S fuel) cond body w
  = if cond w then
      match body w with
      | (Ok _, w') => while_ fuel cond body w'
      | (Throw e, w') => (Throw e, w')
      end
    else (Ok tt, w).
Proof. reflexivity. Qed.

(** The loop over [this.sequence]: whether it completes or raises, the bytes
    committed so far followed by the entries from the position reached on
    are the bytes committed before followed by the entries from the starting
    position on.  The same holds for the loop over [this.subSequence]. *)
Lemma while_emits_sequence {A : Type} (pool : list A) (enc : A -> list Z)
    (body : nat -> M unit) :
  (forall i x, pool !! i = Some x -> emits (body i) (enc x)) ->
  forall fuel w,
    length pool - sequence w <= fuel ->
    staged (bufferQueue w) = [] ->
    let r := while_ fuel (fun w' => sequence w' <? length pool)
               (fun w' =>
                  wbind (body (sequence w'))
                    (fun _ => modify (fun w'' => set_sequence (S (sequence w'')) w''))
                    w') w in
    frame w (snd r)
    /\ subSequence (snd r) = subSequence w
    /\ committed (bufferQueue (snd r))
         ++ flat_map enc (drop (sequence (snd r)) pool)
       = committed (bufferQueue w) ++ flat_map enc (drop (sequence w) pool)
    /\ (forall u, fst r = Ok u ->
          staged (bufferQueue (snd r)) = []
          /\ length pool <= sequence (snd r)).
Proof.
  intros Hbody fuel.
  match goal with |- context [while_ _ _ ?b _] => set (iteration := b) end.
  assert (Hiter : forall w,
            iteration w
            = match body (sequence w) w with
              | (Ok _, w1) => (Ok tt, set_sequence (S (sequence w1)) w1)
              | (Throw e, w1) => (Throw e, w1)
              end).
  { intros w. unfold iteration, wbind, modify.
    destruct (body (sequence w) w) as [[[]|e] w1]; reflexivity. }
  clearbody iteration.
  induction fuel as [|fuel IH]; intros w Hfuel Hs.
  - simpl. split; [apply frame_refl|]. split; [reflexivity|].
    split; [reflexivity|]. intros _ _. split; [exact Hs|lia].
  - rewrite while_unfold.
    destruct (Nat.ltb_spec (sequence w) (length pool)) as [Hlt|Hge].
    + destruct (lookup_lt_is_Some_2 pool _ Hlt) as [x Hx].
      specialize (Hbody _ _ Hx w Hs). rewrite Hiter.
      destruct (body (sequence w) w) as [[[]|e] w1].
      * destruct Hbody as (Hf & Hsq & Hsb & Hc & Hst).
        set (w2 := set_sequence (S (sequence w1)) w1).
        assert (Hf2 : frame w w2).
        { unfold frame in *; subst w2; simpl; tauto. }
        specialize (IH w2). cbv zeta in IH.
        destruct IH as (IHf & IHo & IHc & IHok).
        { subst w2; simpl. lia. }
        { subst w2; simpl. exact Hst. }
        split; [eapply frame_trans; eauto|].
        split; [rewrite IHo; subst w2; simpl; congruence|].
        split; [|exact IHok].
        rewrite IHc. subst w2; simpl.
        replace (sequence w1) with (sequence w) by congruence.
        rewrite Hc, (drop_S _ _ _ Hx). simpl. now rewrite <- !app_assoc.
      * destruct Hbody as (Hf & Hsq & Hsb & Hc). simpl.
        split; [exact Hf|]. split; [congruence|].
        split; [|discriminate].
        replace (sequence w1) with (sequence w) by congruence. now rewrite Hc.
    + simpl. split; [apply frame_refl|]. split; [reflexivity|].
      split; [reflexivity|]. intros _ _. split; [exact Hs|lia].
Qed.

Lemma while_emits_subSequence {A : Type} (pool : list A) (enc : A -> list Z)
    (body : nat -> M unit) :
  (forall i x, pool !! i = Some x -> emits (body i) (enc x)) ->
  forall fuel w,
    length pool - subSequence w <= fuel ->
    staged (bufferQueue w) = [] ->
    let r := while_ fuel (fun w' => subSequence w' <? length pool)
               (fun w' =>
                  wbind (body (subSequence w'))
                    (fun _ => modify (fun w'' => set_subSequence (S (subSequence w'')) w''))
                    w') w in
    frame w (snd r)
    /\ sequence (snd r) = sequence w
    /\ committed (bufferQueue (snd r))
         ++ flat_map enc (drop (subSequence (snd r)) pool)
       = committed (bufferQueue w) ++ flat_map enc (drop (subSequence w) pool)
    /\ (forall u, fst r = Ok u ->
          staged (bufferQueue (snd r)) = []
          /\ length pool <= subSequence (snd r)).
Proof.
  intros Hbody fuel.
  match goal with |- context [while_ _ _ ?b _] => set (iteration := b) end.
  assert (Hiter : forall w,
            iteration w
            = match body (subSequence w) w with
              | (Ok _, w1) => (Ok tt, set_subSequence (S (subSequence w1)) w1)
              | (Throw e, w1) => (Throw e, w1)
              end).
  { intros w. unfold iteration, wbind, modify.
    destruct (body (subSequence w) w) as [[[]|e] w1]; reflexivity. }
  clearbody iteration.
  induction fuel as [|fuel IH]; intros w Hfuel Hs.
  - simpl. split; [apply frame_refl|]. split; [reflexivity|].
    split; [reflexivity|]. intros _ _. split; [exact Hs|lia].
  - rewrite while_unfold.
    destruct (Nat.ltb_spec (subSequence w) (length pool)) as [Hlt|Hge].
    + destruct (lookup_lt_is_Some_2 pool _ Hlt) as [x Hx].
      specialize (Hbody _ _ Hx w Hs). rewrite Hiter.
      destruct (body (subSequence w) w) as [[[]|e] w1].
      * destruct Hbody as (Hf & Hsq & Hsb & Hc & Hst).
        set (w2 := set_subSequence (S (subSequence w1)) w1).
        assert (Hf2 : frame w w2).
        { unfold frame in *; subst w2; simpl; tauto. }
        specialize (IH w2). cbv zeta in IH.
        destruct IH as (IHf & IHo & IHc & IHok).
        { subst w2; simpl. lia. }
        { subst w2; simpl. exact Hst. }
        split; [eapply frame_trans; eauto|].
        split; [rewrite IHo; subst w2; simpl; congruence|].
        split; [|exact IHok].
        rewrite IHc. subst w2; simpl.
        replace (subSequence w1) with (subSequence w) by congruence.
        rewrite Hc, (drop_S _ _ _ Hx). simpl. now rewrite <- !app_assoc.
      * destruct Hbody as (Hf & Hsq & Hsb & Hc). simpl.
        split; [exact Hf|]. split; [congruence|].
        split; [|discriminate].
        replace (subSequence w1) with (subSequence w) by congruence. now rewrite Hc.
    + simpl. split; [apply frame_refl|]. split; [reflexivity|].
      split; [reflexivity|]. intros _ _. split; [exact Hs|lia].
Qed.

(** *** Rewriting a chain of writes into one staged batch *)

Lemma wbind_write {B : Type} bytes (k : unit -> M B) w :
  wbind (write bytes) k w = k tt (stage bytes w).
Proof. reflexivity. Qed.

Lemma wbind_stages {B : Type} m bytes (k : unit -> M B) w :
  stages m bytes -> wbind m k w = k tt (stage bytes w).
Proof. intros Hm. unfold wbind. now rewrite Hm. Qed.

Lemma wbind_modify {B : Type} f (k : unit -> M B) w :
  wbind (modify f) k w = k tt (f w).
Proof. reflexivity. Qed.

Lemma wbind_assoc {A B C : Type} (m : M A) (k1 : A -> M B) (k2 : B -> M C) w :
  wbind (wbind m k1) k2 w = wbind m (fun x => wbind (k1 x) k2) w.
Proof.
  unfold wbind. destruct (m w) as [[a|e] w1]; reflexivity.
Qed.

Lemma wbind_ret {A B : Type} (a : A) (k : A -> M B) w :
  wbind (wret a) k w = k a w.
Proof. reflexivity. Qed.

Lemma wbind_commit {B : Type} bytes (k : unit -> M B) w :
  staged (bufferQueue w) = [] ->
  wbind commit k (stage bytes w)
  = if length (committed (bufferQueue w)) + length bytes
         <=? capacity (bufferQueue w)
    then k tt (committing bytes w)
    else (Throw E_MORE, stage bytes w).
Proof.
  intros Hs. unfold wbind. rewrite commit_staged by exact Hs.
  destruct (_ <=? _); reflexivity.
Qed.

Lemma emits_intro m bytes :
  (forall w, m w = commit (stage bytes w)) -> emits m bytes.
Proof.
  intros Hm w Hs. rewrite Hm, commit_staged by exact Hs.
  destruct (_ <=? _); unfold frame, committing, stage; simpl; tauto.
Qed.

Lemma output_committing bytes w :
  output (committing bytes w) = output w ++ bytes.
Proof. unfold output, committing; simpl. now rewrite app_assoc. Qed.

Lemma output_stage bytes w : output (stage bytes w) = output w.
Proof. reflexivity. Qed.

(** *** The steps keep the writer consistent with the layout *)

Local Opaque uint8 uint32LE varint cstring.

Ltac batch :=
  unfold writeUInt8, writeUInt32LE, writeVarint, writeFloatLE, writeDoubleLE;
  repeat (rewrite wbind_assoc || rewrite wbind_write || rewrite wbind_modify
          || rewrite wbind_ret || cbv beta);
  rewrite ?stage_app.

Lemma consistent_intro w st :
  state w = st -> st <> ERROR ->
  staged (bufferQueue w) = [] -> astWriter w = None ->
  output w ++ pending assembly st (sequence w) (subSequence w) = layout assembly ->
  consistent assembly w.
Proof.
  intros Hst Hne Hs Ha Hout. unfold consistent, pending_of.
  rewrite Hst, Ha.
  destruct st; try congruence; (split; [exact Hs|split; [congruence|exact Hout]]).
Qed.

Lemma consistent_elim w :
  consistent assembly w -> astWriter w = None ->
  state w <> ERROR ->
  staged (bufferQueue w) = []
  /\ output w ++ pending assembly (state w) (sequence w) (subSequence w)
     = layout assembly.
Proof.
  unfold consistent, pending_of. intros Hc Ha Hne. rewrite Ha in Hc.
  destruct (state w); try congruence; tauto.
Qed.

(** A step that commits one batch and moves on. *)
Lemma batch_step bytes (after : Writer -> Writer) w st :
  consistent assembly w -> astWriter w = None -> state w <> ERROR ->
  (forall w1, state (after w1) = st
              /\ bufferQueue (after w1) = bufferQueue w1
              /\ astWriter (after w1) = astWriter w1
              /\ pushed (after w1) = pushed w1) ->
  st <> ERROR ->
  (let w1 := committing bytes w in
   pending assembly (state w) (sequence w) (subSequence w)
   = bytes ++ pending assembly st (sequence (after w1)) (subSequence (after w1))) ->
  (let w1 := committing bytes w in
   remaining_steps assembly (after w1) < remaining_steps assembly w) ->
  1 < remaining_steps assembly w ->
  step_post assembly w
    (if length (committed (bufferQueue w)) + length bytes
          <=? capacity (bufferQueue w)
     then (Ok false, after (committing bytes w))
     else (Throw E_MORE, stage bytes w)).
Proof.
  intros Hc Ha Hne Hafter Hst Hpend Hrem Hone. cbv zeta in Hpend, Hrem.
  destruct (consistent_elim w Hc Ha Hne) as [Hs Hout].
  destruct (_ <=? _); unfold step_post.
  - destruct (Hafter (committing bytes w)) as (H1 & H2 & H3 & H4). split.
    + apply (consistent_intro _ st); auto.
      * now rewrite H2.
      * now rewrite H3.
      * unfold output. rewrite H2, H4. fold (output (committing bytes w)).
        rewrite output_committing, <- Hout, Hpend.
        now rewrite <- app_assoc.
    + intros _. split; [now rewrite H3|apply Hrem].
  - split; [|exact Hone]. unfold interrupted. simpl. auto.
Qed.

Ltac batch_step_with bytes after st Hc Ha Hst :=
  refine (batch_step bytes after _ st Hc Ha _ _ _ _ _ _);
  [ congruence
  | intros; simpl; auto
  | discriminate
  | intros; rewrite Hst; simpl pending;
    first [ reflexivity | progress (unfold from_header, from_constants_count,
              from_signatures_count, from_imports_count,
              from_declarations_count, from_tables_count);
            rewrite <- ?app_assoc; reflexivity ]
  | intros; unfold remaining_steps; simpl; rewrite Hst; lia
  | unfold remaining_steps; rewrite Hst; lia ].

Lemma step_HEADER w :
  consistent assembly w -> astWriter w = None -> state w = HEADER ->
  step_post assembly w (step assembly w).
Proof.
  intros Hc Ha Hst. unfold _writeHeader. unfold step; rewrite Hst.
  unfold _writeHeader. batch.
  rewrite wbind_commit by (apply (consistent_elim _ Hc Ha); congruence).
  batch. unfold wret.
  batch_step_with (uint32LE MagicNumber ++ uint32LE (precomputedSize assembly))
    (set_state CONSTANTS_COUNT) CONSTANTS_COUNT Hc Ha Hst.
Qed.

Lemma step_CONSTANTS_COUNT w :
  consistent assembly w -> astWriter w = None -> state w = CONSTANTS_COUNT ->
  step_post assembly w (step assembly w).
Proof.
  intros Hc Ha Hst. unfold step; rewrite Hst.
  unfold _writeConstantsCount. batch.
  rewrite wbind_commit by (apply (consistent_elim _ Hc Ha); congruence).
  batch. unfold wret.
  batch_step_with
    (varint (Z.of_nat (length (constantsI32 assembly)))
     ++ varint (Z.of_nat (length (constantsF32 assembly)))
     ++ varint (Z.of_nat (length (constantsF64 assembly))))
    (fun w1 => set_sequence 0 (set_state CONSTANTS_I32 w1)) CONSTANTS_I32 Hc Ha Hst.
Qed.

Lemma step_SIGNATURES_COUNT w :
  consistent assembly w -> astWriter w = None -> state w = SIGNATURES_COUNT ->
  step_post assembly w (step assembly w).
Proof.
  intros Hc Ha Hst. unfold step; rewrite Hst.
  unfold _writeSignaturesCount. batch.
  rewrite wbind_commit by (apply (consistent_elim _ Hc Ha); congruence).
  batch. unfold wret.
  batch_step_with
    (varint (Z.of_nat (length (functionSignatures assembly))))
    (fun w1 => set_sequence 0 (set_state SIGNATURES w1)) SIGNATURES Hc Ha Hst.
Qed.

Lemma step_FUNCTION_IMPORTS_COUNT w :
  consistent assembly w -> astWriter w = None ->
  state w = FUNCTION_IMPORTS_COUNT ->
  step_post assembly w (step assembly w).
Proof.
  intros Hc Ha Hst. unfold step; rewrite Hst.
  unfold _writeFunctionImportsCount. batch.
  rewrite wbind_commit by (apply (consistent_elim _ Hc Ha); congruence).
  batch. unfold wret.
  batch_step_with
    (varint (Z.of_nat (length (functionImports assembly)))
     ++ varint (Z.of_nat (functionImportSignaturePoolSize assembly)))
    (fun w1 => set_sequence 0 (set_state FUNCTION_IMPORTS w1))
    FUNCTION_IMPORTS Hc Ha Hst.
Qed.

Lemma step_FUNCTION_DECLARATIONS_COUNT w :
  consistent assembly w -> astWriter w = None ->
  state w = FUNCTION_DECLARATIONS_COUNT ->
  step_post assembly w (step assembly w).
Proof.
  intros Hc Ha Hst. unfold step; rewrite Hst.
  unfold _writeFunctionDeclarationsCount. batch.
  rewrite wbind_commit by (apply (consistent_elim _ Hc Ha); congruence).
  batch. unfold wret.
  batch_step_with
    (varint (Z.of_nat (length (functionDeclarations assembly))))
    (fun w1 => set_sequence 0 (set_state FUNCTION_DECLARATIONS w1))
    FUNCTION_DECLARATIONS Hc Ha Hst.
Qed.

Lemma step_FUNCTION_POINTER_TABLES_COUNT w :
  consistent assembly w -> astWriter w = None ->
  state w = FUNCTION_POINTER_TABLES_COUNT ->
  step_post assembly w (step assembly w).
Proof.
  intros Hc Ha Hst. unfold step; rewrite Hst.
  unfold _writeFunctionPointerTablesCount. batch.
  rewrite wbind_commit by (apply (consistent_elim _ Hc Ha); congruence).
  batch. unfold wret.
  batch_step_with
    (varint (Z.of_nat (length (functionPointerTables assembly))))
    (fun w1 => set_sequence 0 (set_state FUNCTION_POINTER_TABLES w1))
    FUNCTION_POINTER_TABLES Hc Ha Hst.
Qed.

(** A step that runs a loop over [this.sequence] and moves on. *)
Lemma loop_step {A : Type} (pool : list A) (enc : A -> list Z)
    (body : nat -> M unit) (after : Writer -> Writer) (next : State)
    (rest : list Z) w :
  consistent assembly w -> astWriter w = None -> state w <> ERROR ->
  (forall i x, pool !! i = Some x -> emits (body i) (enc x)) ->
  (forall seq sub,
     pending assembly (state w) seq sub = flat_map enc (drop seq pool) ++ rest) ->
  (forall w1, state (after w1) = next
              /\ bufferQueue (after w1) = bufferQueue w1
              /\ astWriter (after w1) = astWriter w1
              /\ pushed (after w1) = pushed w1
              /\ pending assembly next (sequence (after w1)) (subSequence (after w1))
                 = rest) ->
  next <> ERROR ->
  (forall w1, remaining_steps assembly (after w1) < remaining_steps assembly w) ->
  1 < remaining_steps assembly w ->
  step_post assembly w
    (match while_sequence (length pool) body w with
     | (Ok _, w1) => (Ok false, after w1)
     | (Throw e, w1) => (Throw e, w1)
     end).
Proof.
  intros Hc Ha Hne Hbody Hpend Hafter Hnext Hrem Hone.
  destruct (consistent_elim w Hc Ha Hne) as [Hs Hout].
  pose proof (while_emits_sequence pool enc body Hbody
                (length pool - sequence w) w (Nat.le_refl _) Hs) as Hloop.
  cbv zeta in Hloop. unfold while_sequence.
  destruct (while_ _ _ _ w) as [[u|e] w1]; simpl in Hloop;
    destruct Hloop as (Hf & Hsb & Hcons & Hok); unfold step_post.
  - destruct (Hok u eq_refl) as [Hst1 Hlen].
    rewrite (drop_ge pool (sequence w1)), app_nil_r in Hcons by exact Hlen.
    destruct (Hafter w1) as (H1 & H2 & H3 & H4 & H5). split.
    + apply (consistent_intro _ next); auto.
      * now rewrite H2.
      * rewrite H3. unfold frame in Hf. intuition congruence.
      * unfold output. rewrite H2, H4, H5, Hcons.
        replace (pushed w1) with (pushed w) by (unfold frame in Hf; intuition congruence).
        rewrite <- Hout, Hpend. unfold output. now rewrite <- !app_assoc.
    + intros _. split; [|apply Hrem].
      rewrite H3. unfold frame in Hf. intuition congruence.
  - split; [|exact Hone]. unfold interrupted.
    assert (Hst : state w1 = state w) by (unfold frame in Hf; tauto).
    assert (Hpu : pushed w1 = pushed w) by (unfold frame in Hf; tauto).
    assert (Haw : astWriter w1 = None) by (unfold frame in Hf; intuition congruence).
    repeat split; auto.
    rewrite Hst, Hpend. unfold output. rewrite Hpu.
    rewrite <- Hout, Hpend. unfold output.
    rewrite <- !app_assoc. f_equal. rewrite !app_assoc. now rewrite Hcons.
Qed.

Ltac loop_step_with pool enc after next rest Hc Ha Hst :=
  refine (loop_step pool enc _ after next rest _ Hc Ha _ _ _ _ _ _ _);
  [ congruence
  |
  | intros; rewrite Hst; reflexivity
  | intros; simpl; auto
  | discriminate
  | intros; unfold remaining_steps; simpl; rewrite Hst; lia
  | unfold remaining_steps; rewrite Hst; lia ].

Lemma step_CONSTANTS_I32 w :
  consistent assembly w -> astWriter w = None -> state w = CONSTANTS_I32 ->
  step_post assembly w (step assembly w).
Proof.
  intros Hc Ha Hst. unfold step; rewrite Hst. unfold _writeConstantsI32.
  repeat (rewrite wbind_assoc || cbv beta). unfold wbind at 1.
  loop_step_with (constantsI32 assembly) varint
    (fun w1 => set_sequence 0 (set_state CONSTANTS_F32 w1)) CONSTANTS_F32
    (from_constantsF32 assembly 0) Hc Ha Hst.
  intros i x Hx. apply (emits_get _ _ _ _ _ Hx).
  apply emits_intro. intros w0. batch. reflexivity.
Qed.

Lemma step_CONSTANTS_F32 w :
  consistent assembly w -> astWriter w = None -> state w = CONSTANTS_F32 ->
  step_post assembly w (step assembly w).
Proof.
  intros Hc Ha Hst. unfold step; rewrite Hst. unfold _writeConstantsF32.
  repeat (rewrite wbind_assoc || cbv beta). unfold wbind at 1.
  loop_step_with (constantsF32 assembly) floatLE
    (fun w1 => set_sequence 0 (set_state CONSTANTS_F64 w1)) CONSTANTS_F64
    (from_constantsF64 assembly 0) Hc Ha Hst.
  intros i x Hx. apply (emits_get _ _ _ _ _ Hx).
  apply emits_intro. intros w0. batch. reflexivity.
Qed.

Lemma step_CONSTANTS_F64 w :
  consistent assembly w -> astWriter w = None -> state w = CONSTANTS_F64 ->
  step_post assembly w (step assembly w).
Proof.
  intros Hc Ha Hst. unfold step; rewrite Hst. unfold _writeConstantsF64.
  repeat (rewrite wbind_assoc || cbv beta). unfold wbind at 1.
  loop_step_with (constantsF64 assembly) doubleLE
    (set_state SIGNATURES_COUNT) SIGNATURES_COUNT
    (from_signatures_count assembly) Hc Ha Hst.
  intros i x Hx. apply (emits_get _ _ _ _ _ Hx).
  apply emits_intro. intros w0. batch. reflexivity.
Qed.

Lemma step_SIGNATURES w :
  consistent assembly w -> astWriter w = None -> state w = SIGNATURES ->
  step_post assembly w (step assembly w).
Proof.
  intros Hc Ha Hst. unfold step; rewrite Hst. unfold _writeSignatures.
  repeat (rewrite wbind_assoc || cbv beta). unfold wbind at 1.
  loop_step_with (functionSignatures assembly) signature_bytes
    (set_state FUNCTION_IMPORTS_COUNT) FUNCTION_IMPORTS_COUNT
    (from_imports_count assembly) Hc Ha Hst.
  intros i x Hx. apply (emits_get _ _ _ _ _ Hx).
  apply emits_intro. intros w0. batch.
  rewrite (wbind_stages _ _ _ _
             (stages_forEach _ (fun type => uint8 (TypeCode type)) _
                (fun type => stages_write _))).
  rewrite stage_app. unfold signature_bytes. now rewrite <- app_assoc.
Qed.

Lemma step_FUNCTION_IMPORTS w :
  consistent assembly w -> astWriter w = None -> state w = FUNCTION_IMPORTS ->
  step_post assembly w (step assembly w).
Proof.
  intros Hc Ha Hst. unfold step; rewrite Hst. unfold _writeFunctionImports.
  repeat (rewrite wbind_assoc || cbv beta). unfold wbind at 1.
  loop_step_with (functionImports assembly) import_bytes
    (set_state GLOBAL_VARIABLES_COUNT) GLOBAL_VARIABLES_COUNT
    (from_globals_count assembly) Hc Ha Hst.
  intros i x Hx. apply (emits_get _ _ _ _ _ Hx).
  apply emits_intro. intros w0. unfold writeCString. batch.
  rewrite (wbind_stages _ _ _ _
             (stages_forEach _
                (fun signature => varint (sig_index (fis_signature signature))) _
                (fun signature => stages_write _))).
  rewrite stage_app. unfold import_bytes. now rewrite <- app_assoc.
Qed.

Lemma step_GLOBAL_VARIABLES w :
  consistent assembly w -> astWriter w = None -> state w = GLOBAL_VARIABLES ->
  step_post assembly w (step assembly w).
Proof.
  intros Hc Ha Hst. unfold step; rewrite Hst. unfold _writeGlobalVariables.
  repeat (rewrite wbind_assoc || cbv beta). unfold wbind at 1.
  loop_step_with (globalVariables assembly) global_name_bytes
    (set_state FUNCTION_DECLARATIONS_COUNT) FUNCTION_DECLARATIONS_COUNT
    (from_declarations_count assembly) Hc Ha Hst.
  intros i x Hx. apply (emits_get _ _ _ _ _ Hx).
  unfold global_name_bytes, writeCString.
  destruct (gv_importName x) as [name|].
  - apply emits_intro. intros w0. batch. reflexivity.
  - intros w0 Hs0. unfold wbind, wthrow. unfold frame. tauto.
Qed.

Lemma step_FUNCTION_DECLARATIONS w :
  consistent assembly w -> astWriter w = None ->
  state w = FUNCTION_DECLARATIONS ->
  step_post assembly w (step assembly w).
Proof.
  intros Hc Ha Hst. unfold step; rewrite Hst. unfold _writeFunctionDeclarations.
  repeat (rewrite wbind_assoc || cbv beta). unfold wbind at 1.
  loop_step_with (functionDeclarations assembly) declaration_bytes
    (set_state FUNCTION_POINTER_TABLES_COUNT) FUNCTION_POINTER_TABLES_COUNT
    (from_tables_count assembly) Hc Ha Hst.
  intros i x Hx. apply (emits_get _ _ _ _ _ Hx).
  apply emits_intro. intros w0. batch. reflexivity.
Qed.

Lemma wbind_get {A B : Type} (pool : list A) i x (k : A -> M B) w :
  pool !! i = Some x -> wbind (wlift (pool_get pool i)) k w = k x w.
Proof. intros Hx. unfold wbind, wlift, pool_get. now rewrite Hx. Qed.

Lemma wbind_get_None {A B : Type} (pool : list A) i (k : A -> M B) w :
  pool !! i = None ->
  wbind (wlift (pool_get pool i)) k w
  = (Throw (RangeError "index out of range"), w).
Proof. intros Hx. unfold wbind, wlift, pool_get. now rewrite Hx. Qed.

(** A step that raises before it writes leaves a consistent writer
    interrupted where it stood. *)
Lemma interrupted_refl w :
  consistent assembly w -> astWriter w = None -> state w <> ERROR ->
  interrupted assembly w w.
Proof.
  intros Hc Ha Hne. destruct (consistent_elim w Hc Ha Hne) as [Hs Hout].
  unfold interrupted. auto.
Qed.

Lemma step_FUNCTION_POINTER_TABLES w :
  consistent assembly w -> astWriter w = None ->
  state w = FUNCTION_POINTER_TABLES ->
  step_post assembly w (step assembly w).
Proof.
  intros Hc Ha Hst. unfold step; rewrite Hst.
  assert (Hne : state w <> ERROR) by congruence.
  destruct (consistent_elim w Hc Ha Hne) as [Hs Hout].
  unfold wbind at 1. unfold _writeFunctionPointerTables.
  destruct (Nat.ltb_spec (sequence w) (length (functionPointerTables assembly)))
    as [Hlt|Hge].
  - destruct (lookup_lt_is_Some_2 _ _ Hlt) as [table Htable].
    rewrite (wbind_get _ _ _ _ _ Htable). batch.
    rewrite wbind_commit by exact Hs.
    assert (Hb := batch_step (table_header_bytes table)
              (fun w1 => set_subSequence 0 (set_state FUNCTION_POINTER_ELEMENTS w1))
              w FUNCTION_POINTER_ELEMENTS Hc Ha Hne).
    unfold table_header_bytes in Hb.
    destruct (_ <=? _); apply Hb; try discriminate;
      try (intros; simpl; tauto);
      try (unfold remaining_steps; simpl; rewrite Hst; lia);
      (rewrite Hst; simpl; unfold from_tables, from_elements;
       rewrite Htable, (drop_S _ _ _ Htable); simpl; unfold table_bytes;
       unfold from_tables, table_header_bytes; now rewrite <- !app_assoc).
  - batch. unfold wret, step_post.
    split.
    + apply (consistent_intro _ FUNCTION_DEFINITIONS); auto; try discriminate.
      rewrite Hst in Hout. simpl in *. unfold from_tables in Hout.
      now rewrite (drop_ge _ _ Hge) in Hout.
    + intros _. split; [exact Ha|].
      unfold remaining_steps; simpl; rewrite Hst; lia.
Qed.

Lemma step_FUNCTION_POINTER_ELEMENTS w :
  consistent assembly w -> astWriter w = None ->
  state w = FUNCTION_POINTER_ELEMENTS ->
  step_post assembly w (step assembly w).
Proof.
  intros Hc Ha Hst. unfold step; rewrite Hst.
  unfold wbind at 1. unfold _writeFunctionPointerElements.
  assert (Hne : state w <> ERROR) by congruence.
  destruct (consistent_elim w Hc Ha Hne) as [Hs Hout].
  destruct (functionPointerTables assembly !! sequence w) as [table|] eqn:Htable.
  2:{ rewrite (wbind_get_None _ _ _ _ Htable). split.
      - now apply interrupted_refl.
      - unfold remaining_steps; rewrite Hst; lia. }
  rewrite (wbind_get _ _ _ _ _ Htable). unfold wbind at 1.
  assert (Hbody : forall i x, fpt_elements table !! i = Some x ->
            emits (fun w0 =>
                     wbind (wlift (pool_get (fpt_elements table) i))
                       (fun element =>
                          wbind (writeVarint (el_value element)) (fun _ => commit)) w0)
                  (element_bytes x)).
  { intros i x Hx. apply (emits_get _ _ _ _ _ Hx).
    apply emits_intro. intros w0. batch. reflexivity. }
  pose proof (while_emits_subSequence (fpt_elements table) element_bytes _ Hbody
                (length (fpt_elements table) - subSequence w) w
                (Nat.le_refl _) Hs) as Hloop.
  cbv zeta in Hloop. unfold while_subSequence.
  destruct (while_ _ _ _ w) as [[u|e] w1]; simpl in Hloop;
    destruct Hloop as (Hf & Hsq & Hcons & Hok); unfold step_post.
  - destruct (Hok u eq_refl) as [Hst1 Hlen].
    rewrite (drop_ge _ (subSequence w1)), app_nil_r in Hcons by exact Hlen.
    batch. unfold wret.
    assert (Hpu : pushed w1 = pushed w) by (unfold frame in Hf; tauto).
    assert (Haw : astWriter w1 = None) by (unfold frame in Hf; intuition congruence).
    split.
    + apply (consistent_intro _ FUNCTION_POINTER_TABLES); auto; try discriminate.
      unfold output; simpl. rewrite Hpu, Hcons, Hsq.
      rewrite <- Hout, Hst. simpl. unfold from_elements. rewrite Htable.
      unfold output. now rewrite <- !app_assoc.
    + intros _. split; [exact Haw|].
      apply lookup_lt_Some in Htable.
      unfold remaining_steps; simpl; rewrite Hst, Hsq; lia.
  - split; [|unfold remaining_steps; rewrite Hst; lia].
    unfold interrupted.
    assert (Hst' : state w1 = state w) by (unfold frame in Hf; tauto).
    assert (Hpu : pushed w1 = pushed w) by (unfold frame in Hf; tauto).
    assert (Haw : astWriter w1 = None) by (unfold frame in Hf; intuition congruence).
    repeat split; auto.
    rewrite Hst', Hst, Hsq. simpl. unfold from_elements. rewrite Htable.
    unfold output. rewrite Hpu.
    rewrite <- Hout, Hst. simpl. unfold from_elements. rewrite Htable.
    unfold output.
    rewrite <- !app_assoc. f_equal. rewrite !app_assoc. now rewrite Hcons.
Qed.

Lemma stage_set_sequence bytes n w :
  set_sequence n (stage bytes w) = stage bytes (set_sequence n w).
Proof. reflexivity. Qed.

Lemma wbind_assert {B : Type} cond message (k : unit -> M B) w :
  wbind (wlift (assert_ cond message)) k w
  = if cond then k tt w else (Throw (AssertionError message), w).
Proof. unfold wbind, wlift, assert_. destruct cond; reflexivity. Qed.

Lemma step_GLOBAL_VARIABLES_COUNT w :
  consistent assembly w -> astWriter w = None ->
  state w = GLOBAL_VARIABLES_COUNT ->
  step_post assembly w (step assembly w).
Proof.
  intros Hc Ha Hst. unfold step; rewrite Hst.
  assert (Hne : state w <> ERROR) by congruence.
  destruct (consistent_elim w Hc Ha Hne) as [Hs Hout].
  assert (Hone : 1 < remaining_steps assembly w)
    by (unfold remaining_steps; rewrite Hst; lia).
  rewrite Hst in Hout. simpl in Hout. unfold from_globals_count in Hout.
  unfold global_counts_bytes, global_scans in Hout. cbv zeta in Hout.
  simpl flat_map in Hout. simpl fst in Hout. simpl snd in Hout.
  unfold _writeGlobalVariablesCount. cbv zeta. batch.
  rewrite !stage_set_sequence, ?stage_app, wbind_assert.
  destruct (_ =? _).
  2:{ split; [|exact Hone]. unfold interrupted; simpl.
      rewrite Hst. repeat split; auto. }
  batch. rewrite wbind_commit by exact Hs. batch. unfold wret.
  destruct (_ <=? _).
  - split.
    + apply (consistent_intro _ GLOBAL_VARIABLES); auto; try discriminate.
      simpl sequence. simpl subSequence. simpl pending.
      change (output (set_state GLOBAL_VARIABLES ?x)) with (output x).
      rewrite output_committing.
      change (output (set_sequence ?n w)) with (output w).
      rewrite <- Hout, <- ?app_assoc, ?app_nil_r. reflexivity.
    + intros _. split; [exact Ha|].
      unfold remaining_steps; simpl; rewrite Hst; lia.
  - split; [|exact Hone]. unfold interrupted; simpl.
    rewrite Hst. repeat split; auto.
Qed.

Lemma stages_write_variable_counts nI32Vars nF32Vars nF64Vars :
  stages (write_variable_counts nI32Vars nF32Vars nF64Vars)
         (variable_counts_bytes nI32Vars nF32Vars nF64Vars).
Proof.
  unfold write_variable_counts, variable_counts_bytes.
  destruct (_ && _)%bool.
  - apply stages_write.
  - cbv zeta. apply stages_bind; [apply stages_write|].
    apply stages_bind; [destruct (0 <? nI32Vars); [apply stages_write|apply stages_ret]|].
    apply stages_bind; [destruct (0 <? nF32Vars); [apply stages_write|apply stages_ret]|].
    destruct (0 <? nF64Vars); [apply stages_write|apply stages_ret].
Qed.

Lemma from_definitions_S definition (seq : nat) :
  seq < length (functionDeclarations assembly) ->
  functionDefinitions assembly !! seq = Some definition ->
  from_definitions assembly seq
  = definition_header_bytes definition ++ astEncode definition
    ++ from_definitions assembly (S seq).
Proof.
  intros Hlt Hd. unfold from_definitions.
  assert (Ht : take (length (functionDeclarations assembly))
                 (functionDefinitions assembly) !! seq = Some definition).
  { rewrite lookup_take_lt by exact Hlt. exact Hd. }
  rewrite (drop_S _ _ _ Ht). simpl. now rewrite <- !app_assoc.
Qed.

Lemma from_definitions_done (seq : nat) :
  length (functionDeclarations assembly) <= seq ->
  from_definitions assembly seq = from_export assembly.
Proof.
  intros Hge. unfold from_definitions. rewrite drop_ge; [reflexivity|].
  rewrite length_take. lia.
Qed.

Lemma step_FUNCTION_DEFINITIONS w :
  consistent assembly w -> astWriter w = None ->
  state w = FUNCTION_DEFINITIONS ->
  step_post assembly w (step assembly w).
Proof.
  intros Hc Ha Hst. unfold step; rewrite Hst.
  assert (Hne : state w <> ERROR) by congruence.
  destruct (consistent_elim w Hc Ha Hne) as [Hs Hout].
  assert (Hone : 1 < remaining_steps assembly w)
    by (unfold remaining_steps; rewrite Hst; lia).
  rewrite Hst in Hout. simpl in Hout.
  unfold _writeFunctionDefinitions.
  destruct (Nat.ltb_spec (sequence w) (length (functionDeclarations assembly)))
    as [Hlt|Hge].
  - destruct (functionDefinitions assembly !! sequence w) as [definition|] eqn:Hd.
    2:{ rewrite (wbind_get_None _ _ _ _ Hd). split; [|exact Hone].
        now apply interrupted_refl. }
    rewrite (wbind_get _ _ _ _ _ Hd).
    unfold wbind at 1. unfold wlift at 1.
    destruct (count_variables definition (variables definition) 0 0 0 0)
      as [counts|e] eqn:Hcount.
    2:{ split; [|exact Hone]. now apply interrupted_refl. }
    rewrite (wbind_stages _ _ _ _ (stages_write_variable_counts _ _ _)).
    rewrite wbind_commit by exact Hs. batch. unfold wret.
    destruct (_ <=? _).
    + rewrite (from_definitions_S _ _ Hlt Hd) in Hout.
      unfold definition_header_bytes in Hout. rewrite Hcount in Hout.
      split; [|discriminate].
      unfold consistent, pending_of. simpl. rewrite Hst.
      split; [reflexivity|]. split; [reflexivity|].
      change (output (set_astWriter ?a ?x)) with (output x).
      rewrite output_committing, <- Hout. now rewrite <- !app_assoc.
    + split; [|exact Hone]. unfold interrupted; simpl.
      rewrite Hst. repeat split; auto.
  - batch. unfold wret. split.
    + apply (consistent_intro _ EXPORT); auto; try discriminate.
      simpl. now rewrite (from_definitions_done _ Hge) in Hout.
    + intros _. split; [exact Ha|].
      unfold remaining_steps; simpl; rewrite Hst; lia.
Qed.

Lemma stages_forEach_In {A : Type} (f : A -> M unit) (enc : A -> list Z) l :
  (forall x, In x l -> stages (f x) (enc x)) ->
  stages (forEach l f) (flat_map enc l).
Proof.
  induction l as [|x l IH]; intros Hf; simpl.
  - apply stages_ret.
  - apply stages_bind; [apply Hf; now left|].
    apply IH. intros y Hy. apply Hf. now right.
Qed.

Lemma In_insert_index k l x :
  In x (insert_index k l) <-> x = k \/ In x l.
Proof.
  induction l as [|k' l IH]; simpl.
  - intuition.
  - destruct (_ <=? _)%Z; simpl; [intuition|].
    rewrite IH. intuition.
Qed.

(** Every key that [Object.keys] lists is a key of the object. *)
Lemma Object_keys_In {V : Type} (o : JsObject V) name :
  In name (Object_keys o) -> In name (map fst o).
Proof.
  unfold Object_keys. rewrite in_app_iff, in_map_iff.
  intros [[[n k] [Hk Hin]]|Hin].
  - simpl in Hk. subst k. induction o as [|[key v] o IH]; simpl in *; [contradiction|].
    destruct (array_index key).
    + apply In_insert_index in Hin. destruct Hin as [Heq|Hin].
      * left. congruence.
      * right. now apply IH.
    + right. now apply IH.
  - induction o as [|[key v] o IH]; simpl in *; [contradiction|].
    destruct (array_index key); simpl in Hin.
    + right. now apply IH.
    + destruct Hin as [Heq|Hin]; [now left|right; now apply IH].
Qed.

Lemma Object_get_In {V : Type} (o : JsObject V) name :
  In name (map fst o) -> exists v, Object_get o name = Some v.
Proof.
  induction o as [|[key v] o IH]; simpl; [contradiction|].
  intros Hin. destruct (String.eqb_spec key name) as [Heq|Hneq].
  - now exists v.
  - destruct Hin as [Heq|Hin]; [contradiction|]. now apply IH.
Qed.

Lemma stages_export_pairs functions :
  stages
    (forEach (Object_keys functions) (fun name =>
       wbind (writeCString (Some name)) (fun _ =>
         match Object_get functions name with
         | Some function => writeVarint (decl_index function)
         | None => wthrow (TypeError "undefined has no index")
         end)))
    (flat_map (export_pair_bytes functions) (Object_keys functions)).
Proof.
  apply stages_forEach_In. intros name Hin.
  destruct (Object_get_In _ _ (Object_keys_In _ _ Hin)) as [function Hget].
  unfold export_pair_bytes. rewrite Hget.
  apply stages_bind; apply stages_write.
Qed.

Lemma step_EXPORT w :
  consistent assembly w -> astWriter w = None -> state w = EXPORT ->
  step_post assembly w (step assembly w).
Proof.
  intros Hc Ha Hst. unfold step; rewrite Hst.
  assert (Hne : state w <> ERROR) by congruence.
  destruct (consistent_elim w Hc Ha Hne) as [Hs Hout].
  assert (Hone : 1 < remaining_steps assembly w)
    by (unfold remaining_steps; rewrite Hst; lia).
  unfold _writeExport.
  assert (Hb := fun bytes =>
            batch_step bytes (set_state END) w END Hc Ha Hne).
  assert (Hpend : pending assembly (state w) (sequence w) (subSequence w)
                  = export_bytes assembly) by now rewrite Hst.
  unfold export_bytes in Hpend.
  destruct (export assembly) as [function|functions|].
  - batch. rewrite wbind_commit by exact Hs. batch. unfold wret.
    apply Hb; try discriminate; try (intros; simpl; tauto).
    simpl. now rewrite Hpend, app_nil_r.
  - batch. rewrite (wbind_stages _ _ _ _ (stages_export_pairs functions)).
    rewrite stage_app. rewrite wbind_commit by exact Hs. batch. unfold wret.
    apply Hb; try discriminate; try (intros; simpl; tauto).
    simpl. now rewrite Hpend, app_nil_r, <- !app_assoc.
  - unfold wbind, wthrow. split; [|exact Hone]. now apply interrupted_refl.
Qed.

Lemma consistent_finish w :
  consistent assembly w -> astWriter w = None ->
  state w = END \/ state w = ERROR ->
  consistent assembly (finish w).
Proof.
  intros Hc Ha Hst.
  assert (Hout : output (finish w) = output w).
  { unfold output, finish; simpl. rewrite concat_app. simpl.
    now rewrite !app_nil_r. }
  unfold consistent, pending_of in *. simpl. rewrite Ha in *.
  rewrite Hout.
  destruct Hst as [Hst|Hst]; rewrite Hst in *; simpl in *; tauto.
Qed.

(** Every step taken from a consistent writer meets [step_post]. *)
Lemma step_consistent w :
  consistent assembly w -> astWriter w = None ->
  step_post assembly w (step assembly w).
Proof.
  intros Hc Ha. destruct (state w) eqn:Hst.
  - now apply step_HEADER.
  - now apply step_CONSTANTS_COUNT.
  - now apply step_CONSTANTS_I32.
  - now apply step_CONSTANTS_F32.
  - now apply step_CONSTANTS_F64.
  - now apply step_SIGNATURES_COUNT.
  - now apply step_SIGNATURES.
  - now apply step_FUNCTION_IMPORTS_COUNT.
  - now apply step_FUNCTION_IMPORTS.
  - now apply step_GLOBAL_VARIABLES_COUNT.
  - now apply step_GLOBAL_VARIABLES.
  - now apply step_FUNCTION_DECLARATIONS_COUNT.
  - now apply step_FUNCTION_DECLARATIONS.
  - now apply step_FUNCTION_POINTER_TABLES_COUNT.
  - now apply step_FUNCTION_POINTER_TABLES.
  - now apply step_FUNCTION_POINTER_ELEMENTS.
  - now apply step_FUNCTION_DEFINITIONS.
  - now apply step_EXPORT.
  - unfold step. rewrite Hst. split; [|discriminate].
    apply consistent_finish; auto.
  - unfold step. rewrite Hst. split; [|discriminate].
    apply consistent_finish; auto.
Qed.

Lemma output_suspend w : output (suspend w) = output w.
Proof.
  unfold suspend, output. simpl.
  destruct (committed (bufferQueue w)) as [|b l] eqn:Hcom; simpl;
    rewrite concat_app; simpl; rewrite ?Hcom, ?app_nil_r; reflexivity.
Qed.

Lemma consistent_suspend w w' :
  interrupted assembly w w' -> consistent assembly (suspend w').
Proof.
  intros (Hst & Ha & Hpu & Hout).
  assert (Hstate : state (suspend w') = state w').
  { unfold suspend. simpl. destruct (0 <? _); reflexivity. }
  assert (Hast : astWriter (suspend w') = None).
  { unfold suspend. simpl. destruct (0 <? _); exact Ha. }
  assert (Hstg : staged (bufferQueue (suspend w')) = []).
  { unfold suspend. simpl. destruct (0 <? _); reflexivity. }
  assert (Hseq : sequence (suspend w') = sequence w'
                 /\ subSequence (suspend w') = subSequence w').
  { unfold suspend. simpl. destruct (0 <? _); split; reflexivity. }
  destruct Hseq as [Hseq Hsub].
  unfold consistent, pending_of.
  rewrite Hstate, Hast, Hstg, Hseq, Hsub, output_suspend.
  destruct (state w'); try (split; [reflexivity|split; [congruence|exact Hout]]).
  split; [reflexivity|]. eexists. exact Hout.
Qed.

Lemma consistent_error w w' err :
  interrupted assembly w w' ->
  consistent assembly (set_state ERROR (emit_error err w')).
Proof.
  intros (Hst & Ha & Hpu & Hout). unfold consistent. simpl.
  split; [exact Ha|]. eexists. exact Hout.
Qed.

(** [_process]'s loop ends within [remaining_steps] iterations, in a
    consistent writer. *)
Lemma process_loop_consistent fuel w :
  consistent assembly w -> astWriter w = None ->
  remaining_steps assembly w <= fuel ->
  exists w', process_loop assembly fuel w = Some w' /\ consistent assembly w'.
Proof.
  revert w. induction fuel as [|fuel IH]; intros w Hc Ha Hfuel.
  - exfalso. unfold remaining_steps in Hfuel. destruct (state w); lia.
  - simpl. pose proof (step_consistent w Hc Ha) as Hpost.
    destruct (step assembly w) as [[[|]|e] w1]; unfold step_post in Hpost.
    + exists w1. tauto.
    + destruct Hpost as [Hc1 Hagain].
      destruct (Hagain eq_refl) as [Ha1 Hrem].
      apply IH; auto. lia.
    + destruct Hpost as [Hint Hone].
      assert (Herr : forall err,
                exists w', process_loop assembly fuel
                             (set_state ERROR (emit_error err w1)) = Some w'
                           /\ consistent assembly w').
      { intros err. apply IH.
        - eapply consistent_error; eauto.
        - simpl. apply Hint.
        - unfold remaining_steps at 1. simpl. lia. }
      destruct e; try apply Herr.
      exists (suspend w1). split; [reflexivity|].
      eapply consistent_suspend; eauto.
Qed.

(** Results do not depend on fuel beyond what is needed. *)
Lemma process_loop_more fuel w w' k :
  process_loop assembly fuel w = Some w' ->
  process_loop assembly (fuel + k) w = Some w'.
Proof.
  revert w. induction fuel as [|fuel IH]; intros w; simpl; [discriminate|].
  destruct (step assembly w) as [[[|]|e] w1]; auto.
  destruct e; auto.
Qed.

Lemma remaining_steps_bound w :
  remaining_steps assembly w <= enough_fuel assembly.
Proof. unfold remaining_steps, enough_fuel. destruct (state w); lia. Qed.

Lemma _process_consistent k w :
  consistent assembly w -> astWriter w = None ->
  exists w', _process assembly (enough_fuel assembly + k) w = Some w'
             /\ consistent assembly w'.
Proof.
  intros Hc Ha. unfold _process.
  assert (Hloop : exists w',
            process_loop assembly (enough_fuel assembly + k) w = Some w'
            /\ consistent assembly w').
  { apply process_loop_consistent; auto.
    pose proof (remaining_steps_bound w). lia. }
  destruct (state w); try exact Hloop; exists w; auto.
Qed.

Lemma consistent_bq_push size w :
  consistent assembly w ->
  consistent assembly (set_bufferQueue (bq_push size (bufferQueue w)) w).
Proof. intros Hc. exact Hc. Qed.

Lemma _read_consistent k size w :
  consistent assembly w ->
  exists w', _read assembly (enough_fuel assembly + k) size w = Some w'
             /\ consistent assembly w'.
Proof.
  intros Hc. unfold _read.
  destruct (astWriter w) as [definition|] eqn:Ha.
  - eexists. split; [reflexivity|].
    unfold consistent, pending_of in *. simpl. rewrite Ha in *. exact Hc.
  - destruct (size <=? 0)%Z.
    + exists w. auto.
    + apply _process_consistent; [now apply consistent_bq_push|exact Ha].
Qed.

Lemma consistent_active w definition :
  consistent assembly w -> astWriter w = Some definition ->
  state w = FUNCTION_DEFINITIONS /\ staged (bufferQueue w) = []
  /\ output w ++ astEncode definition
       ++ from_definitions assembly (S (sequence w))
     = layout assembly.
Proof.
  unfold consistent, pending_of. intros Hc Ha. rewrite Ha in Hc.
  assert (Hsome : Some definition <> None) by discriminate.
  destruct (state w) eqn:Hst;
    try (destruct Hc as [_ [Hfd _]]; discriminate (Hfd Hsome)).
  - destruct Hc as [Hs [_ Hout]]. auto.
  - destruct Hc as [Hn _]. discriminate Hn.
Qed.

Lemma astWriter_run_consistent k w :
  consistent assembly w ->
  exists w', astWriter_run assembly (enough_fuel assembly + k) w = Some w'
             /\ consistent assembly w'.
Proof.
  intros Hc. unfold astWriter_run.
  destruct (astWriter w) as [definition|] eqn:Ha.
  2:{ exists w. auto. }
  unfold on_astWriter_end. apply _read_consistent.
  destruct (consistent_active w definition Hc Ha) as (Hst & Hs & Hout).
  apply (consistent_intro _ FUNCTION_DEFINITIONS);
    [exact Hst|discriminate|reflexivity|reflexivity|].
  simpl. rewrite <- Hout. unfold output, on_astWriter_data. simpl.
  rewrite concat_app. simpl. now rewrite !app_nil_r, <- !app_assoc.
Qed.

Lemma on_astWriter_error_consistent err w :
  consistent assembly w -> consistent assembly (on_astWriter_error err w).
Proof.
  intros Hc. unfold consistent, on_astWriter_error. simpl.
  split; [reflexivity|].
  unfold consistent in Hc.
  destruct (state w); try (destruct Hc as (_ & _ & Hout); eexists; exact Hout).
  tauto.
Qed.

Lemma handle_consistent k ev w :
  consistent assembly w ->
  exists w', handle assembly (enough_fuel assembly + k) ev w = Some w'
             /\ consistent assembly w'.
Proof.
  intros Hc. destruct ev as [size| |err]; simpl.
  - now apply _read_consistent.
  - now apply astWriter_run_consistent.
  - destruct (astWriter w).
    + eexists. split; [reflexivity|]. now apply on_astWriter_error_consistent.
    + exists w. auto.
Qed.

(** Every run on [assembly] ends, and leaves a consistent writer. *)
Lemma run_consistent k events w :
  consistent assembly w ->
  exists w', run assembly (enough_fuel assembly + k) events w = Some w'
             /\ consistent assembly w'.
Proof.
  revert w. induction events as [|ev events IH]; intros w Hc; simpl.
  - exists w. auto.
  - destruct (handle_consistent k ev w Hc) as (w1 & Hw1 & Hc1).
    rewrite Hw1. now apply IH.
Qed.

Lemma consistent_new_Writer : consistent assembly new_Writer.
Proof. unfold consistent. simpl. repeat split; congruence. Qed.

Lemma consistent_prefix w :
  consistent assembly w -> exists suffix, output w ++ suffix = layout assembly.
Proof.
  unfold consistent. intros Hc.
  destruct (state w); try (destruct Hc as (_ & _ & Hout); eexists; exact Hout).
  tauto.
Qed.

(** The layout, section by section. *)
Lemma layout_sections :
  layout assembly
  = (uint32LE MagicNumber ++ uint32LE (precomputedSize assembly))
    ++ (varint (Z.of_nat (length (constantsI32 assembly)))
        ++ varint (Z.of_nat (length (constantsF32 assembly)))
        ++ varint (Z.of_nat (length (constantsF64 assembly))))
    ++ flat_map varint (constantsI32 assembly)
    ++ flat_map floatLE (constantsF32 assembly)
    ++ flat_map doubleLE (constantsF64 assembly)
    ++ varint (Z.of_nat (length (functionSignatures assembly)))
    ++ flat_map signature_bytes (functionSignatures assembly)
    ++ (varint (Z.of_nat (length (functionImports assembly)))
        ++ varint (Z.of_nat (functionImportSignaturePoolSize assembly)))
    ++ flat_map import_bytes (functionImports assembly)
    ++ global_counts_bytes assembly
    ++ flat_map global_name_bytes
         (drop (snd (fst (global_scans assembly))) (globalVariables assembly))
    ++ varint (Z.of_nat (length (functionDeclarations assembly)))
    ++ flat_map declaration_bytes (functionDeclarations assembly)
    ++ varint (Z.of_nat (length (functionPointerTables assembly)))
    ++ flat_map (fun table =>
                   table_header_bytes table
                   ++ flat_map element_bytes (fpt_elements table))
         (functionPointerTables assembly)
    ++ flat_map (fun definition =>
                   definition_header_bytes definition ++ astEncode definition)
         (take (length (functionDeclarations assembly))
            (functionDefinitions assembly))
    ++ export_bytes assembly.
Proof.
  unfold layout, from_header, from_constants_count, from_constantsI32,
    from_constantsF32, from_constantsF64, from_signatures_count,
    from_signatures, from_imports_count, from_imports, from_globals_count,
    from_globals, from_declarations_count, from_declarations,
    from_tables_count, from_tables, from_definitions, from_export.
  rewrite !drop_0, <- !app_assoc. reflexivity.
Qed.

(** C9: every run of the writer ends, and what it has emitted is a prefix of
    the layout, which is the sections in the order of the states from
    [HEADER] to [EXPORT], the entries of each pool in the order of their
    indices, and each function pointer table followed by all of its elements
    ahead of the next table; short of an error, what is still to come is the
    rest of the layout from the writer's position on. *)
Theorem run_emits_layout_in_order (events : list Event) (k : nat) :
  (exists w,
     run assembly (enough_fuel assembly + k) events new_Writer = Some w
     /\ (exists suffix, output w ++ suffix = layout assembly)
     /\ (state w <> ERROR ->
         output w ++ pending_of assembly w = layout assembly))
  /\ layout assembly
     = (uint32LE MagicNumber ++ uint32LE (precomputedSize assembly))
       ++ (varint (Z.of_nat (length (constantsI32 assembly)))
           ++ varint (Z.of_nat (length (constantsF32 assembly)))
           ++ varint (Z.of_nat (length (constantsF64 assembly))))
       ++ flat_map varint (constantsI32 assembly)
       ++ flat_map floatLE (constantsF32 assembly)
       ++ flat_map doubleLE (constantsF64 assembly)
       ++ varint (Z.of_nat (length (functionSignatures assembly)))
       ++ flat_map signature_bytes (functionSignatures assembly)
       ++ (varint (Z.of_nat (length (functionImports assembly)))
           ++ varint (Z.of_nat (functionImportSignaturePoolSize assembly)))
       ++ flat_map import_bytes (functionImports assembly)
       ++ global_counts_bytes assembly
       ++ flat_map global_name_bytes
            (drop (snd (fst (global_scans assembly))) (globalVariables assembly))
       ++ varint (Z.of_nat (length (functionDeclarations assembly)))
       ++ flat_map declaration_bytes (functionDeclarations assembly)
       ++ varint (Z.of_nat (length (functionPointerTables assembly)))
       ++ flat_map (fun table =>
                      table_header_bytes table
                      ++ flat_map element_bytes (fpt_elements table))
            (functionPointerTables assembly)
       ++ flat_map (fun definition =>
                      definition_header_bytes definition ++ astEncode definition)
            (take (length (functionDeclarations assembly))
               (functionDefinitions assembly))
       ++ export_bytes assembly.
Proof.
  split; [|apply layout_sections].
  destruct (run_consistent k events new_Writer consistent_new_Writer)
    as (w & Hrun & Hc).
  exists w. split; [exact Hrun|]. split; [now apply consistent_prefix|].
  intros Hne. unfold consistent in Hc.
  destruct (state w); try (destruct Hc as (_ & _ & Hout); exact Hout).
  contradiction.
Qed.

(** C5: when a step raises the insufficient-room condition, [_process]
    returns after pushing exactly the bytes that were committed; the state is
    the one the step started in, so that the next read runs the same step
    again; nothing stays committed or staged in the queue, and the bytes
    pushed so far followed by what is to come from the position reached are
    the layout, so that no byte of it is emitted twice. *)
Theorem insufficient_room_suspends (w w1 : Writer) (fuel : nat) :
  consistent assembly w -> astWriter w = None ->
  step assembly w = (Throw E_MORE, w1) ->
  let w' := suspend w1 in
  process_loop assembly (S fuel) w = Some w'
  /\ pushed w' = pushed w ++ [committed (bufferQueue w1)]
  /\ state w' = state w
  /\ committed (bufferQueue w') = []
  /\ staged (bufferQueue w') = []
  /\ concat (pushed w')
       ++ pending assembly (state w) (sequence w') (subSequence w')
     = layout assembly
  /\ (forall size, (0 < size)%Z ->
        _read assembly (S fuel) size w'
        = process_loop assembly (S fuel)
            (set_bufferQueue (bq_push (Z.to_nat size) (bufferQueue w')) w')).
Proof.
  intros Hc Ha Hstep w'.
  pose proof (step_consistent w Hc Ha) as Hpost. rewrite Hstep in Hpost.
  destruct Hpost as [(Hst & Ha1 & Hpu & Hout) Hone].
  assert (Hcom : committed (bufferQueue w') = []).
  { subst w'. unfold suspend. simpl.
    destruct (committed (bufferQueue w1)) eqn:E; simpl; [exact E|reflexivity]. }
  assert (Hstate : state w' = state w1).
  { subst w'. unfold suspend. simpl. destruct (0 <? _); reflexivity. }
  assert (Hseq : sequence w' = sequence w1 /\ subSequence w' = subSequence w1).
  { subst w'. unfold suspend. simpl. destruct (0 <? _); split; reflexivity. }
  assert (Hout' : output w' = output w1) by apply output_suspend.
  split; [simpl; now rewrite Hstep|].
  split.
  { subst w'. unfold suspend. simpl. destruct (0 <? _); simpl; now rewrite Hpu. }
  split; [congruence|]. split; [exact Hcom|].
  split.
  { subst w'. unfold suspend. simpl. destruct (0 <? _); reflexivity. }
  split.
  { destruct Hseq as [-> ->]. rewrite <- Hst, <- Hout, <- Hout'.
    unfold output. now rewrite Hcom, app_nil_r. }
  intros size Hsize. unfold _read, _process.
  replace (astWriter w') with (@None FunctionDefinition).
  2:{ subst w'. unfold suspend. simpl. destruct (0 <? _); simpl; now rewrite Ha1. }
  destruct (Z.leb_spec size 0); [lia|]. simpl state.
  rewrite Hstate, Hst.
  unfold remaining_steps in Hone.
  destruct (state w); try reflexivity; lia.
Qed.

(** *** The local-count header *)

Lemma count_variables_arguments def l rest k n1 n2 n3 :
  k + length l <= length (argumentTypes (signature (declaration def))) ->
  count_variables def (l ++ rest) k n1 n2 n3
  = count_variables def rest (k + length l) n1 n2 n3.
Proof.
  revert k. induction l as [|v l IH]; intros k Hk; simpl in *.
  - now rewrite Nat.add_0_r.
  - unfold isArgument.
    destruct (Nat.ltb_spec k (length (argumentTypes (signature (declaration def)))));
      [|lia].
    rewrite IH by lia. f_equal. lia.
Qed.

Lemma count_variables_locals def type m rest k n1 n2 n3 :
  length (argumentTypes (signature (declaration def))) <= k ->
  count_variables def (replicate m (new_LocalVariable type) ++ rest) k n1 n2 n3
  = match type with
    | types.I32 => count_variables def rest (k + m) (n1 + m) n2 n3
    | types.F32 => count_variables def rest (k + m) n1 (n2 + m) n3
    | types.F64 => count_variables def rest (k + m) n1 n2 (n3 + m)
    | types.Void =>
        match m with
        | O => count_variables def rest k n1 n2 n3
        | S _ => Throw (Error "illegal variable type")
        end
    end.
Proof.
  revert k n1 n2 n3. induction m as [|m IH]; intros k n1 n2 n3 Hk; simpl.
  - destruct type; rewrite ?Nat.add_0_r; reflexivity.
  - unfold isArgument.
    destruct (Nat.ltb_spec k (length (argumentTypes (signature (declaration def)))));
      [lia|].
    destruct type; simpl; try reflexivity;
      rewrite IH by lia; simpl; f_equal; lia.
Qed.

(** The counts that [_writeFunctionDefinitions] derives for a constructed
    definition are the counts it was constructed with. *)
Lemma count_variables_new declaration n f d bo bl :
  let definition := new_FunctionDefinition declaration n f d bo bl in
  count_variables definition (variables definition) 0 0 0 0 = Ok (n, f, d).
Proof.
  simpl.
  rewrite count_variables_arguments by (simpl; rewrite length_map; lia).
  rewrite length_map. simpl.
  rewrite (count_variables_locals _ types.I32) by (simpl; lia).
  rewrite (count_variables_locals _ types.F32) by (simpl; lia).
  rewrite <- (app_nil_r (replicate d _)).
  rewrite (count_variables_locals _ types.F64) by (simpl; lia).
  reflexivity.
Qed.

(** C6: for a definition constructed with [n] I32 locals and no F32 or F64
    local, [n] at most the packed-immediate maximum, the local-count header
    that [_writeFunctionDefinitions] commits is the single byte that packs
    the I32-only form with [n]; with at least one F32 or F64 local it is the
    byte of type-presence flags followed by one varint count per present
    type, and for 3 I32 locals and 1 F32 local the flags byte followed by
    [varint 3] and [varint 1]. *)
Theorem local_count_header (w : Writer) (declaration : FunctionDeclaration)
    (n f d : nat) (bo bl : JsNumber) :
  let definition := new_FunctionDefinition declaration n f d bo bl in
  sequence w < length (functionDeclarations assembly) ->
  functionDefinitions assembly !! sequence w = Some definition ->
  staged (bufferQueue w) = [] ->
  exists header,
    _writeFunctionDefinitions assembly w
    = batch_outcome header true (set_astWriter (Some definition)) w
    /\ (f = 0 -> d = 0 -> (Z.of_nat n <= OpWithImm_ImmMax)%Z ->
        header = uint8 (packWithImm VarTypeWithImm_OnlyI32 (Z.of_nat n))
        /\ length header = 1)
    /\ (0 < f \/ 0 < d ->
        header
        = uint8 (Z.lor (Z.lor (if 0 <? n then VarType_I32 else 0)
                          (if 0 <? f then VarType_F32 else 0))
                   (if 0 <? d then VarType_F64 else 0))
          ++ (if 0 <? n then varint (Z.of_nat n) else [])
          ++ (if 0 <? f then varint (Z.of_nat f) else [])
          ++ (if 0 <? d then varint (Z.of_nat d) else []))
    /\ (n = 3 -> f = 1 -> d = 0 ->
        header = uint8 (Z.lor VarType_I32 VarType_F32) ++ varint 3 ++ varint 1).
Proof.
  intros definition Hlt Hd Hs.
  exists (variable_counts_bytes n f d). split.
  - unfold _writeFunctionDefinitions.
    destruct (Nat.ltb_spec (sequence w) (length (functionDeclarations assembly)));
      [|lia].
    rewrite (wbind_get _ _ _ _ _ Hd).
    unfold wbind at 1. unfold wlift at 1.
    unfold definition. rewrite count_variables_new. simpl fst. simpl snd.
    rewrite (wbind_stages _ _ _ _ (stages_write_variable_counts _ _ _)).
    rewrite wbind_commit by exact Hs. reflexivity.
  - unfold variable_counts_bytes. split; [|split].
    + intros -> -> Hn. apply Z.leb_le in Hn. simpl. rewrite Hn.
      split; reflexivity.
    + intros Hfd.
      replace ((f =? 0) && (d =? 0) && (Z.of_nat n <=? OpWithImm_ImmMax)%Z)%bool
        with false.
      2:{ symmetry. apply andb_false_iff. left. apply andb_false_iff.
          destruct Hfd; [left|right]; apply Nat.eqb_neq; lia. }
      cbv zeta. f_equal. f_equal.
      destruct (0 <? n), (0 <? f), (0 <? d);
        rewrite ?Z.lor_0_l, ?Z.lor_0_r; reflexivity.
    + intros -> -> ->. simpl. reflexivity.
Qed.

(** *** The export *)

Lemma index_keys_none {V : Type} (o : JsObject V) :
  (forall name, In name (map fst o) -> array_index name = None) ->
  Object_keys o = map fst o.
Proof.
  unfold Object_keys. induction o as [|[key v] o IH]; intros Hnone; simpl.
  - reflexivity.
  - assert (Hkey : array_index key = None) by (apply Hnone; now left).
    assert (IH' : map snd (index_keys o) ++ string_keys o = map fst o).
    { apply IH. intros name Hin. apply Hnone. now right. }
    rewrite Hkey.
    destruct (index_keys o) eqn:E; simpl in *.
    + now rewrite IH'.
    + exfalso.
      assert (Hin : In (snd p) (map fst o)).
      { apply Object_keys_In. unfold Object_keys. rewrite E. now left. }
      assert (Harr : exists n, array_index (snd p) = Some n).
      { clear IH IH' Hnone Hin Hkey.
        assert (Hp : In p (index_keys o)) by (rewrite E; now left).
        clear E. induction o as [|[key' v'] o IHo]; simpl in Hp; [contradiction|].
        destruct (array_index key') eqn:Ek.
        - apply In_insert_index in Hp. destruct Hp as [->|Hp]; eauto.
        - eauto. }
      destruct Harr as [n Hn].
      rewrite (Hnone (snd p)) in Hn by (now right). discriminate.
Qed.

Lemma export_pairs_in_insertion_order (functions : JsObject FunctionDeclaration) :
  NoDup (map fst functions) ->
  flat_map (export_pair_bytes functions) (map fst functions)
  = flat_map (fun entry => cstring (fst entry) ++ varint (decl_index (snd entry)))
      functions.
Proof.
  intros Hnd.
  assert (Hgen : forall (l : JsObject FunctionDeclaration),
            (forall name function, In (name, function) l ->
               Object_get functions name = Some function) ->
            flat_map (export_pair_bytes functions) (map fst l)
            = flat_map (fun entry =>
                          cstring (fst entry) ++ varint (decl_index (snd entry))) l).
  { induction l as [|[name function] l IH]; intros Hget; simpl; [reflexivity|].
    unfold export_pair_bytes at 1. rewrite (Hget name function) by now left.
    rewrite IH; [now rewrite <- app_assoc|].
    intros name' function' Hin. apply Hget. now right. }
  apply Hgen. clear Hgen.
  induction functions as [|[key v] o IH]; intros name function Hin;
    [contradiction|].
  simpl in *. inversion Hnd as [|? ? Hnotin Hnd']; subst.
  destruct Hin as [Heq|Hin].
  - inversion Heq; subst. now rewrite String.eqb_refl.
  - destruct (String.eqb_spec key name) as [->|Hneq].
    + exfalso. apply Hnotin. apply list_elem_of_In, in_map_iff.
      now exists (name, function).
    + now apply IH.
Qed.

(** C7, as amended: the [EXPORT] step commits, in one batch, the format byte
    and then, for a default export, the varint index of the function (so
    index 3 gives [0; varint 3]), and for a record export the varint count of
    the names and one pair of NUL-terminated name and varint function index
    per name in the order of [Object.keys]: the names that are array indices
    in ascending numeric order, then the other names in insertion order,
    which is the insertion order of all pairs when no name is an array
    index.  For a value of neither class it raises an error, and [_process]
    then ends the stream in [ERROR]. *)
Theorem export_step (w : Writer) :
  staged (bufferQueue w) = [] ->
  (forall function, export assembly = DefaultExport function ->
     _writeExport assembly w
     = batch_outcome (0%Z :: varint (decl_index function)) tt (set_state END) w
     /\ (decl_index function = 3%Z ->
         _writeExport assembly w
         = batch_outcome (0%Z :: varint 3) tt (set_state END) w))
  /\ (forall functions, export assembly = RecordExport functions ->
        _writeExport assembly w
        = batch_outcome
            (1%Z :: varint (Z.of_nat (length (Object_keys functions)))
               ++ flat_map (export_pair_bytes functions) (Object_keys functions))
            tt (set_state END) w
        /\ (NoDup (map fst functions) ->
            (forall name, In name (map fst functions) ->
                          array_index name = None) ->
            _writeExport assembly w
            = batch_outcome
                (1%Z :: varint (Z.of_nat (length functions))
                   ++ flat_map (fun entry =>
                                  cstring (fst entry)
                                  ++ varint (decl_index (snd entry)))
                        functions)
                tt (set_state END) w))
  /\ (export assembly = OtherExport ->
        _writeExport assembly w = (Throw (Error "illegal export"), w)
        /\ (state w = EXPORT ->
            forall fuel,
              process_loop assembly (S (S fuel)) w
              = Some (finish (set_state ERROR
                                (emit_error (Error "illegal export") w))))).
Proof.
  intros Hs.
  assert (Hrecord : forall functions, export assembly = RecordExport functions ->
            _writeExport assembly w
            = batch_outcome
                (1%Z :: varint (Z.of_nat (length (Object_keys functions)))
                   ++ flat_map (export_pair_bytes functions) (Object_keys functions))
                tt (set_state END) w).
  { intros functions Hexp. unfold _writeExport. rewrite Hexp. batch.
    rewrite (wbind_stages _ _ _ _ (stages_export_pairs functions)).
    rewrite stage_app. rewrite wbind_commit by exact Hs. batch.
    unfold batch_outcome. rewrite <- !app_assoc. reflexivity. }
  split; [|split].
  - intros function Hexp.
    assert (Hrun : _writeExport assembly w
                   = batch_outcome (0%Z :: varint (decl_index function)) tt
                       (set_state END) w).
    { unfold _writeExport. rewrite Hexp. batch.
      rewrite wbind_commit by exact Hs. batch. reflexivity. }
    split; [exact Hrun|]. intros Hidx. now rewrite Hrun, Hidx.
  - intros functions Hexp. split; [now apply Hrecord|].
    intros Hnd Hnone. rewrite (Hrecord _ Hexp).
    rewrite (index_keys_none _ Hnone), length_map.
    now rewrite export_pairs_in_insertion_order.
  - intros Hexp.
    assert (Hrun : _writeExport assembly w = (Throw (Error "illegal export"), w)).
    { unfold _writeExport. rewrite Hexp. reflexivity. }
    split; [exact Hrun|]. intros Hst fuel.
    change (process_loop assembly (S (S fuel)) w)
      with (match step assembly w with
            | (Ok true, w') => Some w'
            | (Ok false, w') => process_loop assembly (S fuel) w'
            | (Throw E_MORE, w') => Some (suspend w')
            | (Throw err, w') =>
                process_loop assembly (S fuel) (set_state ERROR (emit_error err w'))
            end).
    unfold step at 1. rewrite Hst. unfold wbind at 1. rewrite Hrun.
    reflexivity.
Qed.

Lemma consistent_END w :
  consistent assembly w -> state w = END -> output w = layout assembly.
Proof.
  unfold consistent, pending_of. intros Hc Hst. rewrite Hst in Hc.
  destruct Hc as (_ & Ha & Hout).
  destruct (astWriter w).
  - assert (Hsome : Some f <> None) by discriminate.
    discriminate (Ha Hsome).
  - simpl in Hout. now rewrite app_nil_r in Hout.
Qed.

End WriterFacts.

(** ** The writer on sample assemblies *)

Section Samples.

Context `{Externals}.

(** C2 (the code accepts a pool that is out of order): for the pool of an
    F32 zero-initialized variable followed by an I32 zero-initialized one,
    which is not in the grouped order, the [GLOBAL_VARIABLES_COUNT] step
    raises nothing: it commits the counts 0 1 0 1 0 0, which announce the
    I32 variable as an imported one, and moves on to [GLOBAL_VARIABLES]. *)
Theorem misordered_globals_accepted :
  let globals := [ {| gv_type := types.F32; gv_importName := None |};
                   {| gv_type := types.I32; gv_importName := None |} ] in
  let assembly :=
    sample_assembly (sample_definition 0 0 0) globals
      (DefaultExport sample_declaration) in
  let w := writer_with_room 6 GLOBAL_VARIABLES_COUNT in
  in_grouped_order globals = false
  /\ step assembly w
     = (Ok false,
        set_state GLOBAL_VARIABLES
          (set_sequence 1 (committing [0; 1; 0; 1; 0; 0]%Z w))).
Proof.
  split; vm_compute; reflexivity.
Qed.

(** C1 (no decoder can undo the writer): two well-formed assemblies that
    differ only in their global pool, one zero-initialized I32 variable in
    the first and one imported I32 variable in the second, have the same
    layout; every run of the writer that reaches [END] has emitted exactly
    the layout, and with the sample constants three events take both runs
    there with the same bytes; so no function of the emitted bytes gives back
    the global pool of both. *)
Theorem roundtrip_fails_on_imported_global :
  let zero := [ {| gv_type := types.I32; gv_importName := None |} ] in
  let imported := [ {| gv_type := types.I32; gv_importName := Some "x"%string |} ] in
  let a1 := sample_assembly (sample_definition 0 0 0) zero
              (DefaultExport sample_declaration) in
  let a2 := sample_assembly (sample_definition 0 0 0) imported
              (DefaultExport sample_declaration) in
  well_formed a1 /\ well_formed a2
  /\ globalVariables a1 <> globalVariables a2
  /\ layout a1 = layout a2
  /\ (forall events k, exists w1 w2,
        run a1 (enough_fuel a1 + k) events new_Writer = Some w1
        /\ run a2 (enough_fuel a2 + k) events new_Writer = Some w2
        /\ (state w1 = END -> output w1 = layout a1)
        /\ (state w2 = END -> output w2 = layout a2))
  /\ (let s1 := @sample_assembly sample_externals (sample_definition 0 0 0)
                   zero (DefaultExport sample_declaration) in
      let s2 := @sample_assembly sample_externals (sample_definition 0 0 0)
                   imported (DefaultExport sample_declaration) in
      exists w1 w2,
        run s1 (enough_fuel s1) [Read 1000; BodyWritten; Read 1000] new_Writer
        = Some w1
        /\ run s2 (enough_fuel s2) [Read 1000; BodyWritten; Read 1000] new_Writer
           = Some w2
        /\ state w1 = END /\ state w2 = END
        /\ concat (pushed w1) = concat (pushed w2))
  /\ (forall decode : list Z -> option Assembly,
        ~ ((exists a, decode (layout a1) = Some a
                      /\ globalVariables a = globalVariables a1)
           /\ (exists a, decode (layout a2) = Some a
                         /\ globalVariables a = globalVariables a2))).
Proof.
  intros zero imported a1 a2.
  assert (Hlayout : layout a1 = layout a2) by reflexivity.
  assert (Hglobals : globalVariables a1 <> globalVariables a2)
    by (simpl; subst zero imported; congruence).
  split; [repeat split; discriminate|].
  split; [repeat split; discriminate|].
  split; [exact Hglobals|]. split; [exact Hlayout|].
  split; [|split].
  - intros events k.
    destruct (run_consistent a1 k events new_Writer (consistent_new_Writer a1))
      as (w1 & Hrun1 & Hc1).
    destruct (run_consistent a2 k events new_Writer (consistent_new_Writer a2))
      as (w2 & Hrun2 & Hc2).
    exists w1, w2. repeat split; auto using consistent_END.
  - cbv zeta. eexists. eexists.
    split; [vm_compute; reflexivity|]. split; [vm_compute; reflexivity|].
    repeat split.
  - intros decode [(b1 & Hd1 & Hg1) (b2 & Hd2 & Hg2)].
    rewrite Hlayout in Hd1. rewrite Hd1 in Hd2. inversion Hd2; subst.
    apply Hglobals. congruence.
Qed.

End Samples.

(** ** Witnesses and counterexamples on the sample constants *)

(** C5 at a concrete writer: with 4 bytes of room the 8-byte header does not
    fit; [_process] returns with the writer suspended in [HEADER]. *)
Lemma insufficient_room_suspends_witness :
  let assembly := @sample_assembly sample_externals (sample_definition 3 1 0)
                    [] (DefaultExport sample_declaration) in
  let w := writer_with_room 4 HEADER in
  let w1 := stage (uint32LE 1836278016 ++ uint32LE 0) w in
  process_loop assembly 1 w = Some (suspend w1)
  /\ state (suspend w1) = HEADER
  /\ pushed (suspend w1) = [[]].
Proof.
  intros assembly w w1.
  destruct (insufficient_room_suspends assembly w w1 0)
    as (Hloop & Hpushed & Hstate & _).
  - unfold consistent. simpl. repeat split. intros Hne. now contradiction Hne.
  - reflexivity.
  - vm_compute. reflexivity.
  - split; [exact Hloop|]. split; [exact Hstate|exact Hpushed].
Defined.

(** C6 at a concrete definition: 3 I32 locals and 1 F32 local give the flags
    byte 3 (I32 and F32 present) followed by the counts 3 and 1. *)
Lemma local_count_header_witness :
  let assembly := @sample_assembly sample_externals (sample_definition 3 1 0)
                    [] (DefaultExport sample_declaration) in
  let w := writer_with_room 100 FUNCTION_DEFINITIONS in
  _writeFunctionDefinitions assembly w
  = batch_outcome [3; 3; 1]%Z true
      (set_astWriter (Some (sample_definition 3 1 0))) w.
Proof.
  intros assembly w.
  destruct (local_count_header assembly w sample_declaration 3 1 0
              undefined undefined)
    as (header & Hrun & _ & _ & Hexample).
  - simpl. lia.
  - reflexivity.
  - reflexivity.
  - rewrite (Hexample eq_refl eq_refl eq_refl) in Hrun. exact Hrun.
Defined.

(** C7 as stated fails for a record export whose names include an array
    index: the pairs leave in the order of [Object.keys], not in insertion
    order. *)
Lemma record_export_not_in_insertion_order :
  ~ (forall (X : Externals) (assembly : Assembly) (w : Writer)
       (functions : JsObject FunctionDeclaration),
       export assembly = RecordExport functions ->
       NoDup (map fst functions) ->
       staged (bufferQueue w) = [] ->
       _writeExport assembly w
       = batch_outcome
           (1%Z :: varint (Z.of_nat (length functions))
              ++ flat_map (fun entry =>
                             cstring (fst entry)
                             ++ varint (decl_index (snd entry)))
                   functions)
           tt (set_state END) w).
Proof.
  intros claim.
  set (functions := [("b"%string, sample_declaration);
                     ("1"%string, {| decl_index := 1%Z;
                                     signature := sample_signature |})]).
  specialize (claim sample_externals
                (sample_assembly (sample_definition 0 0 0) []
                   (RecordExport functions))
                (writer_with_room 100 EXPORT) functions eq_refl).
  assert (Hnd : NoDup (map fst functions)).
  { apply NoDup_ListNoDup. repeat constructor; simpl; intuition discriminate. }
  specialize (claim Hnd eq_refl). vm_compute in claim. discriminate.
Qed.

(** C7 at a concrete record export: the names [main] and [init], neither an
    array index, leave in insertion order with the indices 0 and 1. *)
Lemma export_step_witness :
  let functions := [("main"%string, sample_declaration);
                    ("init"%string, {| decl_index := 1%Z;
                                       signature := sample_signature |})] in
  let assembly := @sample_assembly sample_externals (sample_definition 0 0 0)
                    [] (RecordExport functions) in
  let w := writer_with_room 100 EXPORT in
  _writeExport assembly w
  = batch_outcome
      ([1; 2] ++ cstring "main" ++ [0] ++ cstring "init" ++ [1])%Z
      tt (set_state END) w.
Proof.
  intros functions assembly w.
  refine (proj2 (proj1 (proj2 (export_step assembly w eq_refl))
                   functions eq_refl) _ _).
  - apply NoDup_ListNoDup. repeat constructor; simpl; intuition discriminate.
  - intros name [<-|[<-|[]]]; reflexivity.
Defined.

(** ** The optimizer: [replace] and one visit of [optimize] *)

Section ReplaceFacts.

Variables (s1 : Store) (oldStmt newStmt : ref) (rank : ref -> nat).
Hypothesis Hranked : ranked s1 oldStmt newStmt rank.

Local Abbreviation sub := (subst_ref oldStmt newStmt).
Local Abbreviation subO := (subst_operand oldStmt newStmt).
Local Abbreviation W := (weight s1 oldStmt newStmt).
Local Abbreviation kids1 r := (stmt_operands (operands_of s1 r)) (only parsing).

Lemma subst_ref_idem r : sub (sub r) = sub r.
Proof.
  unfold subst_ref. destruct (decide (r = oldStmt)) as [->|Hne].
  - destruct (decide (newStmt = oldStmt)); reflexivity.
  - destruct (decide (r = oldStmt)); [contradiction|reflexivity].
Qed.

Lemma subst_operand_idem ops : map subO (map subO ops) = map subO ops.
Proof.
  induction ops as [|[r|v] ops IH]; simpl; [reflexivity| |now rewrite IH].
  now rewrite subst_ref_idem, IH.
Qed.

Lemma stmt_operands_subst ops :
  stmt_operands (map subO ops) = map sub (stmt_operands ops).
Proof.
  induction ops as [|[r|v] ops IH]; simpl; [reflexivity| |exact IH].
  now rewrite IH.
Qed.

(** The inner loop of [replace] substitutes in every slot and pushes every
    node operand it read, the last one on top. *)
Lemma replace_operands_spec ops stack :
  replace_operands ops oldStmt newStmt stack
  = (map subO ops, rev (stmt_operands ops) ++ stack).
Proof.
  revert stack. induction ops as [|[r|v] ops IH]; intros stack; simpl.
  - reflexivity.
  - rewrite IH. unfold subst_ref.
    rewrite <- app_assoc. simpl.
    destruct (decide (r = oldStmt)); reflexivity.
  - now rewrite IH.
Qed.

(** The first loop of [replace] substitutes in every root and pushes every
    root it read, the first one on top. *)
Lemma replace_roots_spec i ast stack :
  i <= length ast ->
  replace_roots i ast stack oldStmt newStmt
  = (map sub (take i ast) ++ drop i ast, take i ast ++ stack).
Proof.
  revert ast stack. induction i as [|i IH]; intros ast stack Hi; simpl.
  - now rewrite drop_0.
  - destruct (lookup_lt_is_Some_2 ast i) as [r Hr]; [lia|]. rewrite Hr.
    assert (Hins : (if decide (r = oldStmt) then <[i:=newStmt]> ast else ast)
                   = <[i:=sub r]> ast).
    { unfold subst_ref. destruct (decide (r = oldStmt)); [reflexivity|].
      symmetry. now apply list_insert_id. }
    rewrite Hins, IH by (rewrite length_insert; lia).
    rewrite take_insert_ge by lia.
    assert (Hdrop : drop i (<[i:=sub r]> ast) = sub r :: drop (S i) ast).
    { rewrite (drop_S _ (sub r) i).
      - now rewrite drop_insert_lt by lia.
      - apply list_lookup_insert_eq. lia. }
    rewrite Hdrop, (take_S_r _ _ _ Hr), map_app. simpl.
    now rewrite <- !app_assoc.
Qed.

(** *** The weight bounds the pops *)

Lemma sum_list_with_le {A : Type} (f g : A -> nat) l :
  (forall x, In x l -> f x <= g x) ->
  sum_list_with f l <= sum_list_with g l.
Proof.
  induction l as [|x l IH]; intros Hfg; simpl; [lia|].
  assert (f x <= g x) by (apply Hfg; now left).
  assert (sum_list_with f l <= sum_list_with g l)
    by (apply IH; intros y Hy; apply Hfg; now right).
  lia.
Qed.

Lemma sum_list_with_map {A B : Type} (f : B -> nat) (g : A -> B) l :
  sum_list_with f (map g l) = sum_list_with (fun x => f (g x)) l.
Proof. induction l as [|x l IH]; simpl; [reflexivity|now rewrite IH]. Qed.

Lemma sum_list_with_rev {A : Type} (f : A -> nat) l :
  sum_list_with f (rev l) = sum_list_with f l.
Proof.
  induction l as [|x l IH]; simpl; [reflexivity|].
  rewrite sum_list_with_app, IH. simpl. lia.
Qed.

Lemma weight_pos depth r : 1 <= W depth r.
Proof. destruct depth; simpl; lia. Qed.

Lemma weight_mono depth depth' r : depth <= depth' -> W depth r <= W depth' r.
Proof.
  revert depth' r. induction depth as [|depth IH]; intros depth' r Hle.
  - apply weight_pos.
  - destruct depth' as [|depth']; [lia|]. simpl.
    assert (H1 : sum_list_with (W depth) (kids1 r)
                 <= sum_list_with (W depth') (kids1 r)).
    { apply sum_list_with_le. intros x _. apply IH. lia. }
    assert (H2 : sum_list_with (W depth) (map sub (kids1 r))
                 <= sum_list_with (W depth') (map sub (kids1 r))).
    { apply sum_list_with_le. intros x _. apply IH. lia. }
    lia.
Qed.

Lemma ranked_kids r c :
  In c (kids1 r) -> rank c < rank r /\ rank (sub c) < rank r.
Proof.
  unfold operands_of. intros Hc.
  destruct (s1 !! r) as [node|] eqn:Hr; [|contradiction].
  pose proof (map_Forall_lookup_1 _ _ _ _ Hranked Hr) as Hall.
  simpl in Hall. rewrite Forall_forall in Hall.
  apply Hall. now apply list_elem_of_In.
Qed.

(** Popping [r] and pushing its node operands, as they were or after the
    substitution, lowers the weight of the stack. *)
Lemma weight_kids r kids :
  kids = kids1 r \/ kids = map sub (kids1 r) ->
  sum_list_with (fun c => W (rank c) c) kids + 1 <= W (rank r) r.
Proof.
  intros Hkids.
  destruct (kids1 r) as [|c0 l0] eqn:Hk.
  { destruct Hkids as [->| ->]; simpl; pose proof (weight_pos (rank r) r); lia. }
  assert (Hrank : exists m, rank r = S m).
  { destruct (ranked_kids r c0) as [Hlt _]; [rewrite Hk; now left|].
    exists (pred (rank r)). lia. }
  destruct Hrank as [m Hm]. rewrite Hm. simpl. rewrite Hk.
  assert (H1 : sum_list_with (fun c => W (rank c) c) (c0 :: l0)
               <= sum_list_with (W m) (c0 :: l0)).
  { apply sum_list_with_le. intros x Hx. apply weight_mono.
    destruct (ranked_kids r x) as [Hlt _]; [now rewrite Hk|]. lia. }
  assert (H2 : sum_list_with (fun c => W (rank c) c) (map sub (c0 :: l0))
               <= sum_list_with (W m) (map sub (c0 :: l0))).
  { rewrite !sum_list_with_map. apply sum_list_with_le. intros x Hx.
    apply weight_mono.
    destruct (ranked_kids r x) as [_ Hlt]; [now rewrite Hk|]. lia. }
  destruct Hkids as [->| ->]; lia.
Qed.

(** *** The loop *)

Lemma same_shape_lookup s r node :
  same_shape s1 s -> s !! r = Some node ->
  exists node1, s1 !! r = Some node1
    /\ cls node = cls node1 /\ code node = code node1
    /\ behavior node = behavior node1.
Proof.
  intros Hshape Hr. specialize (Hshape r). rewrite Hr in Hshape.
  destruct (s1 !! r) as [node1|]; [|contradiction]. eauto.
Qed.

Lemma same_shape_None s r :
  same_shape s1 s -> s !! r = None -> s1 !! r = None.
Proof.
  intros Hshape Hr. specialize (Hshape r). rewrite Hr in Hshape.
  destruct (s1 !! r); [contradiction|reflexivity].
Qed.

Lemma operands_of_insert s r node r' :
  operands_of (<[r:=node]> s) r'
  = if decide (r = r') then operands node else operands_of s r'.
Proof.
  unfold operands_of. rewrite lookup_insert.
  destruct (decide (r = r')); reflexivity.
Qed.

(** [replace]'s loop ends within the weight of its stack and keeps its
    invariant; whatever was visited or stacked has then been visited. *)
Lemma replace_loop_spec fuel :
  forall s stack visited,
    replace_invariant s1 oldStmt newStmt visited s stack ->
    sum_list_with (fun r => W (rank r) r) stack <= fuel ->
    exists s' visited',
      replace_loop fuel s stack oldStmt newStmt = Some s'
      /\ replace_invariant s1 oldStmt newStmt visited' s' []
      /\ (forall x, In x visited \/ In x stack -> In x visited').
Proof.
  induction fuel as [|fuel IH]; intros s stack visited Hinv Hfuel.
  - destruct stack as [|c stack].
    + exists s, visited. split; [reflexivity|]. split; [exact Hinv|].
      intros x [Hx|[]]; exact Hx.
    + simpl in Hfuel. pose proof (weight_pos (rank c) c). lia.
  - destruct stack as [|c stack].
    + exists s, visited. split; [reflexivity|]. split; [exact Hinv|].
      intros x [Hx|[]]; exact Hx.
    + destruct Hinv as (Hshape & Hdone & Hsame & Hclosed).
      simpl in Hfuel. simpl.
      destruct (s !! c) as [node|] eqn:Hc.
      * destruct (same_shape_lookup s c node Hshape Hc)
          as (node1 & Hc1 & Hcls & Hcode & Hbeh).
        rewrite replace_operands_spec.
        assert (Hops : operands node = operands node1
                       \/ operands node = map subO (operands node1)).
        { destruct (in_dec Nat.eq_dec c visited) as [Hin|Hnot].
          - right. specialize (Hdone c Hin). unfold operands_of in Hdone.
            now rewrite Hc, Hc1 in Hdone.
          - left. specialize (Hsame c Hnot). unfold operands_of in Hsame.
            now rewrite Hc, Hc1 in Hsame. }
        assert (Hnew : map subO (operands node) = map subO (operands node1)).
        { destruct Hops as [->| ->]; [reflexivity|apply subst_operand_idem]. }
        assert (Hk1 : kids1 c = stmt_operands (operands node1)).
        { unfold operands_of. now rewrite Hc1. }
        destruct (IH (<[c:=set_operands node (map subO (operands node))]> s)
                    (rev (stmt_operands (operands node)) ++ stack)
                    (c :: visited)) as (s' & visited' & Hloop & Hinv' & Hsub).
        { split; [|split; [|split]].
          - intros r. rewrite lookup_insert.
            destruct (decide (c = r)) as [<-|Hne].
            + rewrite Hc1. simpl. auto.
            + apply Hshape.
          - intros v Hv. rewrite operands_of_insert.
            destruct (decide (c = v)) as [<-|Hne].
            + simpl. rewrite Hnew. unfold operands_of. now rewrite Hc1.
            + destruct Hv as [Heq|Hv]; [contradiction|]. now apply Hdone.
          - intros r Hr. rewrite operands_of_insert.
            destruct (decide (c = r)) as [<-|Hne].
            + exfalso. apply Hr. now left.
            + apply Hsame. intros Hin. apply Hr. now right.
          - intros v k Hv Hk.
            assert (Hold : In v visited ->
                           In k (c :: visited)
                           \/ In k (rev (stmt_operands (operands node)) ++ stack)).
            { intros Hin. destruct (Hclosed v k Hin Hk) as [Hkv|[Hkc|Hks]].
              - left. now right.
              - left. now left.
              - right. apply in_or_app. now right. }
            destruct Hv as [<-|Hv]; [|now apply Hold].
            destruct (in_dec Nat.eq_dec c visited) as [Hin|Hnot];
              [now apply Hold|].
            right. apply in_or_app. left. apply in_rev. rewrite rev_involutive.
            specialize (Hsame c Hnot). unfold operands_of in Hsame.
            rewrite Hc, Hc1 in Hsame. rewrite Hsame, <- Hk1. exact Hk. }
        { rewrite sum_list_with_app, sum_list_with_rev.
          assert (Hw := weight_kids c (stmt_operands (operands node))).
          rewrite Hk1 in Hw.
          destruct Hops as [Ho|Ho]; rewrite Ho in *.
          - specialize (Hw (or_introl eq_refl)). lia.
          - rewrite stmt_operands_subst in *.
            specialize (Hw (or_intror eq_refl)). lia. }
        exists s', visited'. split; [exact Hloop|]. split; [exact Hinv'|].
        intros x [Hx|[<-|Hx]]; apply Hsub.
        -- left. now right.
        -- left. now left.
        -- right. apply in_or_app. now right.
      * assert (Hc1 : s1 !! c = None) by now apply same_shape_None with s.
        destruct (IH s stack (c :: visited)) as (s' & visited' & Hloop & Hinv' & Hsub).
        { split; [exact Hshape|]. split; [|split].
          - intros v [<-|Hv]; [|now apply Hdone].
            unfold operands_of. now rewrite Hc, Hc1.
          - intros r Hr. apply Hsame. intros Hin. apply Hr. now right.
          - intros v k [<-|Hv] Hk.
            + unfold operands_of in Hk. rewrite Hc1 in Hk. contradiction.
            + destruct (Hclosed v k Hv Hk) as [Hkv|[Hkc|Hks]].
              * left. now right.
              * left. now left.
              * now right. }
        { pose proof (weight_pos (rank c) c). lia. }
        exists s', visited'. split; [exact Hloop|]. split; [exact Hinv'|].
        intros x [Hx|[<-|Hx]]; apply Hsub.
        -- left. now right.
        -- left. now left.
        -- now right.
Qed.

(** [replace] ends and substitutes in every root and in every operand slot
    of the tree under the roots. *)
Lemma replace_spec fuel ast :
  replace_fuel s1 oldStmt newStmt rank ast <= fuel ->
  exists s2,
    replace fuel ast s1 oldStmt newStmt = Some (map sub ast, s2)
    /\ same_shape s1 s2
    /\ (forall r, reachable s1 ast r ->
          operands_of s2 r = map subO (operands_of s1 r))
    /\ (forall r, operands_of s2 r = operands_of s1 r
                  \/ operands_of s2 r = map subO (operands_of s1 r)).
Proof.
  intros Hfuel. unfold replace.
  rewrite replace_roots_spec by lia.
  rewrite firstn_all, drop_all, !app_nil_r.
  destruct (replace_loop_spec fuel s1 ast [])
    as (s2 & visited & Hloop & (Hshape & Hdone & Hsame & Hclosed) & Hsub).
  { split; [|split; [|split]].
    - intros r. destruct (s1 !! r); auto.
    - intros v [].
    - reflexivity.
    - intros v c []. }
  { exact Hfuel. }
  rewrite Hloop. exists s2. split; [reflexivity|]. split; [exact Hshape|].
  split.
  - intros r Hreach. apply Hdone.
    induction Hreach as [r Hr|r c Hreach IHr Hc].
    + apply Hsub. now right.
    + destruct (Hclosed r c IHr Hc) as [Hin|[]]. exact Hin.
  - intros r. destruct (in_dec Nat.eq_dec r visited) as [Hin|Hnot].
    + right. now apply Hdone.
    + left. now apply Hsame.
Qed.

End ReplaceFacts.

(** *** What [replace] has done whenever it returns *)

Section ReplaceReturns.

Variables (s1 : Store) (oldStmt newStmt : ref).

Local Abbreviation sub := (subst_ref oldStmt newStmt).
Local Abbreviation subO := (subst_operand oldStmt newStmt).

(** One pop of [replace]'s loop. *)
Lemma replace_loop_pop fuel s current stack node :
  s !! current = Some node ->
  replace_loop (S fuel) s (current :: stack) oldStmt newStmt
  = replace_loop fuel
      (<[current := set_operands node (map subO (operands node))]> s)
      (rev (stmt_operands (operands node)) ++ stack) oldStmt newStmt.
Proof.
  intros Hc. simpl. rewrite Hc.
  now rewrite (replace_operands_spec oldStmt newStmt).
Qed.

(** The loop keeps its invariant on any store, acyclic or not: when it
    returns, whatever was visited or stacked has been visited. *)
Lemma replace_loop_returns fuel :
  forall s stack visited s',
    replace_invariant s1 oldStmt newStmt visited s stack ->
    replace_loop fuel s stack oldStmt newStmt = Some s' ->
    exists visited',
      replace_invariant s1 oldStmt newStmt visited' s' []
      /\ (forall x, In x visited \/ In x stack -> In x visited').
Proof.
  induction fuel as [|fuel IH]; intros s stack visited s' Hinv Hloop.
  - destruct stack as [|c stack]; [|discriminate].
    injection Hloop as <-. exists visited. split; [exact Hinv|].
    intros x [Hx|[]]; exact Hx.
  - destruct stack as [|c stack].
    + injection Hloop as <-. exists visited. split; [exact Hinv|].
      intros x [Hx|[]]; exact Hx.
    + destruct Hinv as (Hshape & Hdone & Hsame & Hclosed).
      destruct (s !! c) as [node|] eqn:Hc.
      * rewrite (replace_loop_pop _ _ _ _ _ Hc) in Hloop.
        destruct (same_shape_lookup s1 s c node Hshape Hc)
          as (node1 & Hc1 & Hcls & Hcode & Hbeh).
        assert (Hops : operands node = operands node1
                       \/ operands node = map subO (operands node1)).
        { destruct (in_dec Nat.eq_dec c visited) as [Hin|Hnot].
          - right. specialize (Hdone c Hin). unfold operands_of in Hdone.
            now rewrite Hc, Hc1 in Hdone.
          - left. specialize (Hsame c Hnot). unfold operands_of in Hsame.
            now rewrite Hc, Hc1 in Hsame. }
        assert (Hnew : map subO (operands node) = map subO (operands node1)).
        { destruct Hops as [->| ->];
            [reflexivity|apply (subst_operand_idem oldStmt newStmt)]. }
        assert (Hk1 : stmt_operands (operands_of s1 c)
                      = stmt_operands (operands node1)).
        { unfold operands_of. now rewrite Hc1. }
        destruct (IH (<[c:=set_operands node (map subO (operands node))]> s)
                    (rev (stmt_operands (operands node)) ++ stack)
                    (c :: visited) s') as (visited' & Hinv' & Hsub);
          [|exact Hloop|].
        { split; [|split; [|split]].
          - intros r. rewrite lookup_insert.
            destruct (decide (c = r)) as [<-|Hne].
            + rewrite Hc1. simpl. auto.
            + apply Hshape.
          - intros v Hv. rewrite operands_of_insert.
            destruct (decide (c = v)) as [<-|Hne].
            + simpl. rewrite Hnew. unfold operands_of. now rewrite Hc1.
            + destruct Hv as [Heq|Hv]; [contradiction|]. now apply Hdone.
          - intros r Hr. rewrite operands_of_insert.
            destruct (decide (c = r)) as [<-|Hne].
            + exfalso. apply Hr. now left.
            + apply Hsame. intros Hin. apply Hr. now right.
          - intros v k Hv Hk.
            assert (Hold : In v visited ->
                           In k (c :: visited)
                           \/ In k (rev (stmt_operands (operands node)) ++ stack)).
            { intros Hin. destruct (Hclosed v k Hin Hk) as [Hkv|[Hkc|Hks]].
              - left. now right.
              - left. now left.
              - right. apply in_or_app. now right. }
            destruct Hv as [<-|Hv]; [|now apply Hold].
            destruct (in_dec Nat.eq_dec c visited) as [Hin|Hnot];
              [now apply Hold|].
            right. apply in_or_app. left. apply in_rev. rewrite rev_involutive.
            specialize (Hsame c Hnot). unfold operands_of in Hsame.
            rewrite Hc, Hc1 in Hsame. rewrite Hsame, <- Hk1. exact Hk. }
        exists visited'. split; [exact Hinv'|].
        intros x [Hx|[<-|Hx]]; apply Hsub.
        -- left. now right.
        -- left. now left.
        -- right. apply in_or_app. now right.
      * simpl in Hloop. rewrite Hc in Hloop.
        assert (Hc1 : s1 !! c = None) by now apply same_shape_None with s.
        destruct (IH s stack (c :: visited) s') as (visited' & Hinv' & Hsub);
          [|exact Hloop|].
        { split; [exact Hshape|]. split; [|split].
          - intros v [<-|Hv]; [|now apply Hdone].
            unfold operands_of. now rewrite Hc, Hc1.
          - intros r Hr. apply Hsame. intros Hin. apply Hr. now right.
          - intros v k [<-|Hv] Hk.
            + unfold operands_of in Hk. rewrite Hc1 in Hk. contradiction.
            + destruct (Hclosed v k Hv Hk) as [Hkv|[Hkc|Hks]].
              * left. now right.
              * left. now left.
              * now right. }
        exists visited'. split; [exact Hinv'|].
        intros x [Hx|[<-|Hx]]; apply Hsub.
        -- left. now right.
        -- left. now left.
        -- now right.
Qed.

(** Whenever [replace] returns, on any store: the substitution has been made
    in every root and in every operand slot of the nodes under the roots,
    and every other node has its operands as they were or with the
    substitution made. *)
Lemma replace_returns fuel ast ast' s2 :
  replace fuel ast s1 oldStmt newStmt = Some (ast', s2) ->
  ast' = map sub ast
  /\ same_shape s1 s2
  /\ (forall r, reachable s1 ast r ->
        operands_of s2 r = map subO (operands_of s1 r))
  /\ (forall r, operands_of s2 r = operands_of s1 r
                \/ operands_of s2 r = map subO (operands_of s1 r)).
Proof.
  unfold replace.
  rewrite (replace_roots_spec oldStmt newStmt) by lia.
  rewrite firstn_all, drop_all, !app_nil_r.
  destruct (replace_loop fuel s1 ast oldStmt newStmt) as [s'|] eqn:Hloop;
    [|discriminate].
  intros [= <- <-].
  destruct (replace_loop_returns fuel s1 ast [] s')
    as (visited & (Hshape & Hdone & Hsame & Hclosed) & Hsub);
    [|exact Hloop|].
  { split; [|split; [|split]].
    - intros r. destruct (s1 !! r); auto.
    - intros v [].
    - reflexivity.
    - intros v c []. }
  split; [reflexivity|]. split; [exact Hshape|]. split.
  - intros r Hreach. apply Hdone.
    induction Hreach as [r Hr|r c Hreach IHr Hc].
    + apply Hsub. now right.
    + destruct (Hclosed r c IHr Hc) as [Hin|[]]. exact Hin.
  - intros r. destruct (in_dec Nat.eq_dec r visited) as [Hin|Hnot].
    + right. now apply Hdone.
    + left. now apply Hsame.
Qed.


End ReplaceReturns.

Section OptimizerFacts.

Variable optimizeOf :
  nat -> option (FunctionDefinition -> Store -> ref -> Store * ref).


End OptimizerFacts.



(** * Part III: further properties of the code *)

(** ** More on the function definition *)

(** X1: [getVariable] returns the variable at [index] exactly when [index] is a
    position of the table, raises a range error for every other index, negative
    ones included, and never returns [undefined]. *)
Theorem getVariable_defined_or_raises (def : FunctionDefinition) (index : Z) :
  ((0 <= index < Z.of_nat (length (variables def)))%Z ->
     exists variable,
       getVariable def index = Ok (Some variable)
       /\ variables def !! Z.to_nat index = Some variable)
  /\ (~ (0 <= index < Z.of_nat (length (variables def)))%Z ->
        exists msg, getVariable def index = Throw (RangeError msg))
  /\ getVariable def index <> Ok None.
Proof.
  assert (Hin : (0 <= index < Z.of_nat (length (variables def)))%Z ->
            exists variable,
              getVariable def index = Ok (Some variable)
              /\ variables def !! Z.to_nat index = Some variable).
  { intros Hk.
    destruct (lookup_lt_is_Some_2 (variables def) (Z.to_nat index))
      as [variable Hv]; [lia|].
    exists variable. split; [|exact Hv].
    rewrite <- (Z2Nat.id index) at 1 by lia.
    rewrite getVariable_in_range by lia. now rewrite Hv. }
  assert (Hout : ~ (0 <= index < Z.of_nat (length (variables def)))%Z ->
            exists msg, getVariable def index = Throw (RangeError msg)).
  { intros Hk. eexists. apply getVariable_out_of_range. lia. }
  split; [exact Hin|]. split; [exact Hout|].
  intros Hnone.
  destruct (Z_le_dec 0 index) as [H0|H0];
    [destruct (Z_lt_dec index (Z.of_nat (length (variables def)))) as [H1|H1]|].
  - destruct Hin as (variable & Hv & _); [lia|]. congruence.
  - destruct Hout as (msg & Hv); [lia|]. congruence.
  - destruct Hout as (msg & Hv); [lia|]. congruence.
Qed.

(** X2: the constructor builds a table of as many variables as the signature
    has arguments plus the three counts, the arguments first with the types of
    the signature; it stores a [byteOffset] and a [byteLength] that are given
    and not zero as they are, so that neither is ever [0]; and it leaves [ast]
    null. *)
Theorem constructor_table_and_offsets (declaration : FunctionDeclaration)
    (i f d : nat) (offset len : JsNumber) :
  let def := new_FunctionDefinition declaration i f d offset len in
  let args := argumentTypes (signature declaration) in
  length (variables def) = length args + i + f + d
  /\ map var_type (take (length args) (variables def)) = args
  /\ map var_type (drop (length args) (variables def))
     = replicate i types.I32 ++ replicate f types.F32 ++ replicate d types.F64
  /\ byteOffset def <> 0%Z
  /\ byteLength def <> 0%Z
  /\ (forall z, z <> 0%Z -> offset = num z -> byteOffset def = z)
  /\ (forall z, z <> 0%Z -> len = num z -> byteLength def = z)
  /\ ast def = None.
Proof.
  intros def args.
  split; [apply variables_length|].
  assert (Hlen : length (map new_LocalVariable args) = length args)
    by apply length_map.
  split.
  { subst def. simpl. fold args. rewrite take_app_length' by (symmetry; exact Hlen).
    rewrite map_map. simpl. apply map_id. }
  split.
  { subst def. simpl. fold args. rewrite drop_app_length' by (symmetry; exact Hlen).
    rewrite !map_app.
    assert (Hrep : forall n type,
               map var_type (replicate n (new_LocalVariable type))
               = replicate n type).
    { intros n type. induction n as [|n IH]; simpl; [reflexivity|].
      now rewrite IH. }
    now rewrite !Hrep. }
  assert (Hor : forall v, js_or v (-1) <> 0%Z).
  { intros [|z]; simpl; [discriminate|].
    destruct (z =? 0)%Z eqn:E; simpl; [discriminate|].
    now apply Z.eqb_neq in E. }
  assert (Hkeep : forall z v, z <> 0%Z -> v = num z -> js_or v (-1) = z).
  { intros z v Hz ->. simpl. apply Z.eqb_neq in Hz. now rewrite Hz. }
  repeat split; simpl; auto.
Qed.

(** ** Validation of a load node, and the nodes that validation accepts *)

(** X3: [LoadBehavior.validate] accepts a node exactly when its only operand is
    an I32 expression, whatever the node's own class and the behavior's heap
    type; it raises the operand-count error before it looks at the operand, and
    the heap-index error for one operand that is not an I32 expression. *)
Theorem LoadBehavior_validate_accepts (this : LoadBehavior) (s : Store)
    (definition : FunctionDefinition) (stmt : Stmt) :
  let validate := LoadBehavior_validate this s definition stmt in
  (validate = Ok tt <->
     exists r node, operands stmt = [OStmt r] /\ s !! r = Some node
                    /\ cls node = CExpr types.I32)
  /\ (length (operands stmt) <> 1 ->
        validate = Throw (AssertionError "Load requires exactly 1 operand"))
  /\ (length (operands stmt) = 1 ->
        instanceof_ExprI32 s (operands stmt !! 0) = false ->
        validate = Throw (AssertionError
          "Load heap index (operand 0) must be an I32 expression")).
Proof.
  intros validate. subst validate. unfold LoadBehavior_validate.
  split; [|split].
  - split.
    + destruct (operands stmt) as [|o [|o' ops]] eqn:Hops; simpl;
        try discriminate.
      destruct o as [r|v]; simpl; [|discriminate].
      destruct (s !! r) as [node|] eqn:Hr; simpl; [|discriminate].
      destruct (cls node) as [|[]] eqn:Hcls; simpl; try discriminate.
      intros _. exists r, node. auto.
    + intros (r & node & Hops & Hr & Hcls). rewrite Hops. simpl.
      now rewrite Hr, Hcls.
  - intros Hlen. apply Nat.eqb_neq in Hlen. now rewrite Hlen.
  - intros -> Hindex. simpl. now rewrite Hindex.
Qed.

Section AcceptedNodes.

Variable RTypeNames : types.Type_ -> string.

(** X4: [StoreBehavior.validate] accepts a node exactly when it has two
    operands that are nodes, the first an I32 expression and the second an
    expression of the behavior's heap type; whatever it raises is an assertion
    error; and no node passes both the validation of a store and that of a
    load. *)
Theorem StoreBehavior_validate_accepts (this : StoreBehavior)
    (load : LoadBehavior) (s : Store) (definition : FunctionDefinition)
    (stmt : Stmt) :
  let validate := StoreBehavior_validate RTypeNames this s definition stmt in
  (validate = Ok tt <->
     exists r1 node1 r2 node2,
       operands stmt = [OStmt r1; OStmt r2]
       /\ s !! r1 = Some node1 /\ cls node1 = CExpr types.I32
       /\ s !! r2 = Some node2 /\ cls node2 = CExpr (heapType this))
  /\ (forall e, validate = Throw e -> exists msg, e = AssertionError msg)
  /\ ~ (validate = Ok tt
        /\ LoadBehavior_validate load s definition stmt = Ok tt).
Proof.
  intros validate. subst validate.
  assert (Hiff : StoreBehavior_validate RTypeNames this s definition stmt = Ok tt <->
     exists r1 node1 r2 node2,
       operands stmt = [OStmt r1; OStmt r2]
       /\ s !! r1 = Some node1 /\ cls node1 = CExpr types.I32
       /\ s !! r2 = Some node2 /\ cls node2 = CExpr (heapType this)).
  { unfold StoreBehavior_validate. split.
    - destruct (operands stmt) as [|o1 [|o2 [|o3 ops]]] eqn:Hops; simpl;
        try discriminate.
      destruct o1 as [r1|v]; simpl; [|discriminate].
      destruct (s !! r1) as [node1|] eqn:Hr1; simpl; [|discriminate].
      destruct (cls node1) as [|[]] eqn:Hcls1; simpl; try discriminate.
      destruct o2 as [r2|v]; simpl; [|discriminate].
      destruct (s !! r2) as [node2|] eqn:Hr2; simpl; [|discriminate].
      destruct (cls node2) as [|type] eqn:Hcls2; simpl; [discriminate|].
      destruct (types.Type_eqb type (heapType this)) eqn:E; simpl;
        [|discriminate].
      intros _. exists r1, node1, r2, node2.
      destruct type, (heapType this); simpl in E; try discriminate; auto.
    - intros (r1 & node1 & r2 & node2 & Hops & Hr1 & Hcls1 & Hr2 & Hcls2).
      rewrite Hops. simpl. rewrite Hr1, Hcls1. simpl. rewrite Hr2, Hcls2.
      simpl. destruct (heapType this); reflexivity. }
  split; [exact Hiff|]. split.
  - unfold StoreBehavior_validate, assert_. intros e.
    destruct (length (operands stmt) =? 2); simpl;
      [|intros [= <-]; eauto].
    destruct (instanceof_ExprI32 s (operands stmt !! 0)); simpl;
      [|intros [= <-]; eauto].
    destruct (as_BaseExpr s (operands stmt !! 1)) as [type|];
      [|intros [= <-]; eauto].
    destruct (types.Type_eqb type (heapType this));
      [discriminate|intros [= <-]; eauto].
  - intros [Hstore Hload]. apply Hiff in Hstore.
    destruct Hstore as (r1 & node1 & r2 & node2 & Hops & _).
    unfold LoadBehavior_validate in Hload. rewrite Hops in Hload.
    discriminate.
Qed.

End AcceptedNodes.

(** ** What [replace] leaves behind *)

Section ReplaceFrame.

Variables (s1 : Store) (oldStmt newStmt : ref) (rank : ref -> nat).
Hypothesis Hranked : ranked s1 oldStmt newStmt rank.

Lemma subst_ref_not_old r :
  newStmt <> oldStmt -> subst_ref oldStmt newStmt r <> oldStmt.
Proof.
  intros Hne. unfold subst_ref. destruct (decide (r = oldStmt)); congruence.
Qed.

Lemma slot_replaced_refs (ast : list ref) :
  Forall2 (slot_replaced oldStmt newStmt) ast
    (map (subst_ref oldStmt newStmt) ast).
Proof.
  induction ast as [|r ast IH]; simpl; constructor; [|exact IH].
  unfold slot_replaced, subst_ref. destruct (decide (r = oldStmt)); auto.
Qed.

Lemma slot_replaced_operands (ops : list Operand) :
  Forall2 (slot_replaced (OStmt oldStmt) (OStmt newStmt)) ops
    (map (subst_operand oldStmt newStmt) ops).
Proof.
  induction ops as [|[r|v] ops IH]; simpl; constructor; try exact IH.
  - unfold slot_replaced, subst_ref.
    destruct (decide (r = oldStmt)); [subst; auto|auto].
  - now left.
Qed.

Lemma slot_replaced_same {A : Type} (a b : A) (l : list A) :
  Forall2 (slot_replaced a b) l l.
Proof. induction l; constructor; auto. now left. Qed.

Lemma subst_refs_absent (ast : list ref) :
  ~ In oldStmt ast -> map (subst_ref oldStmt newStmt) ast = ast.
Proof.
  induction ast as [|r ast IH]; simpl; intros Hnot; [reflexivity|].
  rewrite IH by tauto. unfold subst_ref.
  destruct (decide (r = oldStmt)); [subst; tauto|reflexivity].
Qed.

Lemma subst_operands_absent (ops : list Operand) :
  ~ In oldStmt (stmt_operands ops) ->
  map (subst_operand oldStmt newStmt) ops = ops.
Proof.
  induction ops as [|[r|v] ops IH]; simpl; intros Hnot; [reflexivity| |].
  - rewrite IH by tauto. unfold subst_ref.
    destruct (decide (r = oldStmt)); [subst; tauto|reflexivity].
  - now rewrite IH.
Qed.

(** X6: after [replace] with a replacement other than [oldStmt], the old node
    is no longer part of the tree: it is no root and no operand of a node under
    the roots, whether that node was under the roots before or came in with the
    replacement. *)
Theorem replace_unlinks_old (fuel : nat) (ast : list ref) :
  newStmt <> oldStmt ->
  replace_fuel s1 oldStmt newStmt rank ast <= fuel ->
  exists ast' s2,
    replace fuel ast s1 oldStmt newStmt = Some (ast', s2)
    /\ ~ In oldStmt ast'
    /\ (forall r, reachable s2 ast' r ->
          r <> oldStmt /\ ~ In oldStmt (stmt_operands (operands_of s2 r))).
Proof.
  intros Hne Hfuel.
  destruct (replace_spec s1 oldStmt newStmt rank Hranked fuel ast Hfuel)
    as (s2 & Hreplace & Hshape & Hreach & Hany).
  exists (map (subst_ref oldStmt newStmt) ast), s2.
  split; [exact Hreplace|].
  assert (Hroots : ~ In oldStmt (map (subst_ref oldStmt newStmt) ast)).
  { intros Hin. apply in_map_iff in Hin. destruct Hin as (r0 & Hr0 & _).
    now apply (subst_ref_not_old r0). }
  split; [exact Hroots|].
  assert (Hinv : forall r, reachable s2 (map (subst_ref oldStmt newStmt) ast) r ->
            r <> oldStmt /\ (reachable s1 ast r \/ rank r <= rank newStmt)).
  { intros r Hr. induction Hr as [r Hr|r c Hr [IHne IH] Hc].
    - apply in_map_iff in Hr. destruct Hr as (r0 & <- & Hr0).
      split; [now apply subst_ref_not_old|].
      unfold subst_ref. destruct (decide (r0 = oldStmt)); [right; lia|].
      left. now apply reachable_root.
    - destruct IH as [IH|IH].
      + rewrite (Hreach r IH), (stmt_operands_subst oldStmt newStmt) in Hc.
        apply in_map_iff in Hc. destruct Hc as (c0 & <- & Hc0).
        split; [now apply subst_ref_not_old|].
        unfold subst_ref. destruct (decide (c0 = oldStmt)); [right; lia|].
        left. now apply (reachable_operand s1 ast r).
      + destruct (Hany r) as [E|E].
        * rewrite E in Hc.
          destruct (ranked_kids s1 oldStmt newStmt rank Hranked r c Hc)
            as [Hlt Hlt'].
          split; [|right; lia].
          intros ->. unfold subst_ref in Hlt'.
          destruct (decide (oldStmt = oldStmt)); [lia|congruence].
        * rewrite E, (stmt_operands_subst oldStmt newStmt) in Hc.
          apply in_map_iff in Hc. destruct Hc as (c0 & <- & Hc0).
          destruct (ranked_kids s1 oldStmt newStmt rank Hranked r c0 Hc0)
            as [Hlt Hlt'].
          split; [now apply subst_ref_not_old|right; lia]. }
  intros r Hr. split; [apply (Hinv r Hr)|].
  intros Hold.
  destruct (Hinv oldStmt (reachable_operand s2 _ r oldStmt Hr Hold)) as [H _].
  now apply H.
Qed.

End ReplaceFrame.

(** X5: whenever [replace] returns, on any nodes and for any replacement, a
    wrapper of the old node included, all it has changed are slots that held
    [oldStmt], which hold [newStmt] afterwards: the root list keeps its
    length, every node its class, code, behavior and number of operands,
    every immediate its value; when [oldStmt] is in no slot, nothing has
    changed at all.  It returns whenever the nodes form a tree that stays
    one under the substitution. *)
Theorem replace_changes_only_old_slots (s1 : Store) (oldStmt newStmt : ref)
    (fuel : nat) (ast : list ref) :
  (forall ast' s2,
     replace fuel ast s1 oldStmt newStmt = Some (ast', s2) ->
     Forall2 (slot_replaced oldStmt newStmt) ast ast'
     /\ same_shape s1 s2
     /\ (forall r, Forall2 (slot_replaced (OStmt oldStmt) (OStmt newStmt))
                     (operands_of s1 r) (operands_of s2 r))
     /\ (~ In oldStmt ast ->
         (forall r, ~ In oldStmt (stmt_operands (operands_of s1 r))) ->
         ast' = ast /\ s2 = s1))
  /\ (forall rank,
        ranked s1 oldStmt newStmt rank ->
        replace_fuel s1 oldStmt newStmt rank ast <= fuel ->
        exists ast' s2, replace fuel ast s1 oldStmt newStmt = Some (ast', s2)).
Proof.
  split.
  - intros ast' s2 Hreplace.
    destruct (replace_returns s1 oldStmt newStmt fuel ast ast' s2 Hreplace)
      as (-> & Hshape & Hreach & Hany).
    split; [apply slot_replaced_refs|].
    split; [exact Hshape|]. split.
    + intros r. destruct (Hany r) as [-> | ->];
        [apply slot_replaced_same|apply slot_replaced_operands].
    + intros Hroots Hslots. split; [now apply subst_refs_absent|].
      apply map_eq. intros r.
      assert (Hops : operands_of s2 r = operands_of s1 r).
      { destruct (Hany r) as [E|E]; [exact E|].
        rewrite E. apply subst_operands_absent, Hslots. }
      specialize (Hshape r). unfold operands_of in Hops.
      destruct (s1 !! r) as [[c1 k1 o1 b1]|], (s2 !! r) as [[c2 k2 o2 b2]|];
        simpl in *; try contradiction; [|reflexivity].
      destruct Hshape as (-> & -> & ->). now rewrite Hops.
  - intros rank Hranked Hfuel.
    destruct (replace_spec s1 oldStmt newStmt rank Hranked fuel ast Hfuel)
      as (s2 & Hreplace & _).
    eauto.
Qed.

(** ** A run of [optimize] that finds nothing to do *)

Section OptimizeRun.

Variable optimizeOf :
  nat -> option (FunctionDefinition -> Store -> ref -> Store * ref).
Variables (def : FunctionDefinition) (s : Store) (rank : ref -> nat).
Hypothesis Hacyclic : acyclic s rank.
Hypothesis Hidle :
  forall b optimize r, optimizeOf b = Some optimize -> optimize def s r = (s, r).

Lemma acyclic_kids r c :
  In c (stmt_operands (operands_of s r)) -> rank c < rank r.
Proof.
  unfold operands_of. intros Hc.
  destruct (s !! r) as [node|] eqn:Hr; [|contradiction].
  pose proof (map_Forall_lookup_1 _ _ _ _ Hacyclic Hr) as Hall.
  simpl in Hall. rewrite Forall_forall in Hall.
  apply Hall. now apply list_elem_of_In.
Qed.

Lemma flat_map_ext_In {A B : Type} (f g : A -> list B) l :
  (forall a, In a l -> f a = g a) -> flat_map f l = flat_map g l.
Proof.
  induction l as [|a l IH]; simpl; intros Hfg; [reflexivity|].
  rewrite (Hfg a) by now left. rewrite IH; [reflexivity|].
  intros a' Ha'. apply Hfg. now right.
Qed.

Lemma preorder_depth depth :
  forall depth' r, rank r <= depth -> rank r <= depth' ->
    preorder s depth r = preorder s depth' r.
Proof.
  induction depth as [|depth IH]; intros depth' r Hd Hd'.
  - destruct depth' as [|depth']; simpl; [reflexivity|].
    destruct (stmt_operands (operands_of s r)) as [|c kids] eqn:Hkids;
      [reflexivity|].
    pose proof (acyclic_kids r c) as Hc. rewrite Hkids in Hc.
    specialize (Hc (or_introl eq_refl)). lia.
  - destruct depth' as [|depth']; simpl.
    + destruct (stmt_operands (operands_of s r)) as [|c kids] eqn:Hkids;
        [reflexivity|].
      pose proof (acyclic_kids r c) as Hc. rewrite Hkids in Hc.
      specialize (Hc (or_introl eq_refl)). lia.
    + f_equal. apply flat_map_ext_In. intros c Hc.
      pose proof (acyclic_kids r c Hc). apply IH; lia.
Qed.

Lemma preorder_unfold r :
  preorder s (rank r) r
  = r :: preorder_all s rank (stmt_operands (operands_of s r)).
Proof.
  unfold preorder_all. destruct (rank r) as [|depth] eqn:Hrank; simpl.
  - destruct (stmt_operands (operands_of s r)) as [|c kids] eqn:Hkids;
      [reflexivity|].
    pose proof (acyclic_kids r c) as Hc. rewrite Hkids in Hc.
    specialize (Hc (or_introl eq_refl)). lia.
  - f_equal. apply flat_map_ext_In. intros c Hc.
    pose proof (acyclic_kids r c Hc). apply preorder_depth; lia.
Qed.

(** A visit that finds nothing to do pops the node and pushes its node
    operands. *)
Lemma optimize_visit_idle fuel roots r stack n visited :
  optimize_visit optimizeOf fuel def
    {| o_store := s; o_ast := roots; o_stack := r :: stack; o_n := n;
       o_visited := visited |}
  = Some {| o_store := s; o_ast := roots;
            o_stack := stmt_operands (operands_of s r) ++ stack; o_n := n;
            o_visited := visited ++ [r] |}.
Proof.
  unfold optimize_visit. simpl.
  destruct (s !! r) as [node|] eqn:Hr.
  - unfold optimize_call.
    destruct (optimizeOf (behavior node)) as [optimize|] eqn:Hopt;
      [|reflexivity].
    rewrite (Hidle _ _ r Hopt).
    destruct (decide (r = r)); [|congruence].
    rewrite Hr, Z.eqb_refl. reflexivity.
  - unfold operands_of. now rewrite Hr.
Qed.

Lemma preorder_all_cons r stack :
  preorder_all s rank (r :: stack)
  = r :: preorder_all s rank (stmt_operands (operands_of s r) ++ stack).
Proof.
  unfold preorder_all at 1. simpl. rewrite preorder_unfold.
  unfold preorder_all. now rewrite flat_map_app.
Qed.

Lemma optimize_loop_idle fuel :
  forall roots stack n visited,
    length (preorder_all s rank stack) <= fuel ->
    optimize_loop optimizeOf fuel def
      {| o_store := s; o_ast := roots; o_stack := stack; o_n := n;
         o_visited := visited |}
    = Some {| o_store := s; o_ast := roots; o_stack := []; o_n := n;
              o_visited := visited ++ preorder_all s rank stack |}.
Proof.
  induction fuel as [|fuel IH]; intros roots stack n visited Hfuel.
  - destruct stack as [|r stack].
    + simpl. now rewrite app_nil_r.
    + rewrite preorder_all_cons in Hfuel. simpl in Hfuel. lia.
  - destruct stack as [|r stack].
    + simpl. now rewrite app_nil_r.
    + rewrite preorder_all_cons in Hfuel. simpl in Hfuel.
      change (optimize_loop optimizeOf (S fuel) def
                {| o_store := s; o_ast := roots; o_stack := r :: stack;
                   o_n := n; o_visited := visited |})
        with (match optimize_visit optimizeOf (S fuel) def
                      {| o_store := s; o_ast := roots; o_stack := r :: stack;
                         o_n := n; o_visited := visited |} with
              | Some st' => optimize_loop optimizeOf fuel def st'
              | None => None
              end).
      rewrite optimize_visit_idle, IH by lia.
      now rewrite preorder_all_cons, <- app_assoc.
Qed.

(** X7: when no behavior has an [optimize], or each returns the node it is
    given and leaves the nodes as they are, [optimize] ends with the count 0
    and with the roots and every node unchanged, having visited the nodes under
    the roots parent first, the operands of a node from the first to the last,
    and a node that fills several slots once for each slot. *)
Theorem optimize_nothing_to_do (roots : list ref) (fuel : nat) :
  ast def = Some roots ->
  length (preorder_all s rank roots) <= fuel ->
  optimize optimizeOf fuel def s
  = Some {| o_store := s; o_ast := roots; o_stack := []; o_n := 0;
            o_visited := preorder_all s rank roots |}.
Proof.
  intros Hast Hfuel. unfold optimize. rewrite Hast.
  now rewrite optimize_loop_idle.
Qed.

End OptimizeRun.

(** The frame of [replace] on the sample tree, where replacing node 1 by
    node 3 changes the three slots that held node 1, and on the tree with a
    wrapper, where replacing node 1 by node 20 changes the slot of node 10
    and leaves the wrapper its operand. *)
Lemma replace_changes_only_old_slots_witness :
  (exists ast' s2,
     replace 40 [10; 11] sample_store 1 3 = Some (ast', s2)
     /\ Forall2 (slot_replaced 1 3) [10; 11] ast'
     /\ same_shape sample_store s2
     /\ (forall r, Forall2 (slot_replaced (OStmt 1) (OStmt 3))
                     (operands_of sample_store r) (operands_of s2 r)))
  /\ (exists ast' s2,
        replace 3 [10] wrap_store 1 20 = Some (ast', s2)
        /\ operands_of s2 10 = [OStmt 20] /\ operands_of s2 20 = [OStmt 1]
        /\ (forall r, Forall2 (slot_replaced (OStmt 1) (OStmt 20))
                        (operands_of wrap_store r) (operands_of s2 r))).
Proof.
  split.
  - destruct (replace_changes_only_old_slots sample_store 1 3 40 [10; 11])
      as [Hreturns Hends].
    destruct (Hends sample_rank) as (ast' & s2 & Hreplace).
    { unfold ranked. apply (bool_decide_unpack _). vm_compute. exact I. }
    { apply Nat.leb_le. vm_compute. reflexivity. }
    destruct (Hreturns ast' s2 Hreplace) as (H1 & H2 & H3 & _).
    exists ast', s2. auto.
  - destruct (replace_changes_only_old_slots wrap_store 1 20 3 [10])
      as [Hreturns _].
    destruct (replace 3 [10] wrap_store 1 20) as [[ast' s2]|] eqn:Hreplace;
      [|vm_compute in Hreplace; discriminate].
    destruct (Hreturns ast' s2 eq_refl) as (_ & _ & H3 & _).
    exists ast', s2. split; [reflexivity|].
    split; [|split; [|exact H3]].
    + vm_compute in Hreplace. injection Hreplace as _ <-. reflexivity.
    + vm_compute in Hreplace. injection Hreplace as _ <-. reflexivity.
Defined.

(** The same replacement unlinks node 1 from the sample tree. *)
Lemma replace_unlinks_old_witness :
  exists ast' s2,
    replace 40 [10; 11] sample_store 1 3 = Some (ast', s2)
    /\ ~ In 1 ast'
    /\ (forall r, reachable s2 ast' r ->
          r <> 1 /\ ~ In 1 (stmt_operands (operands_of s2 r))).
Proof.
  apply (replace_unlinks_old sample_store 1 3 sample_rank).
  - unfold ranked. apply (bool_decide_unpack _). vm_compute. exact I.
  - discriminate.
  - apply Nat.leb_le. vm_compute. reflexivity.
Defined.

(** An idle run on the sample tree: node 1, which fills three slots, and its
    operand are visited three times. *)
Lemma optimize_nothing_to_do_witness :
  optimize idle_optimizeOf 8 (set_ast [10; 11] (sample_definition 0 0 0))
    sample_store
  = Some {| o_store := sample_store; o_ast := [10; 11]; o_stack := [];
            o_n := 0; o_visited := [10; 1; 2; 1; 2; 11; 1; 2] |}.
Proof.
  refine (optimize_nothing_to_do idle_optimizeOf
            (set_ast [10; 11] (sample_definition 0 0 0)) sample_store
            sample_rank _ _ [10; 11] 8 eq_refl _).
  - unfold acyclic. apply (bool_decide_unpack _). vm_compute. exact I.
  - intros b optimize r. unfold idle_optimizeOf.
    destruct (b =? 1); [|discriminate]. now intros [= <-].
  - apply Nat.leb_le. vm_compute. reflexivity.
Defined.

(** ** What the steps of the writer leave alone *)

Section Orderly.

Context `{Externals}.
Variable allowed : State -> Prop.

Lemma orderly_ret {A : Type} (a : A) : orderly allowed (wret a).
Proof. intros w Hw. simpl. auto. Qed.

Lemma orderly_throw {A : Type} (e : exn) : orderly allowed (@wthrow A e).
Proof. intros w Hw. simpl. auto. Qed.

Lemma orderly_lift {A : Type} (r : result A) : orderly allowed (wlift r).
Proof. intros w Hw. simpl. auto. Qed.

Lemma orderly_write bytes : orderly allowed (write bytes).
Proof. intros w Hw. simpl. auto. Qed.

Lemma orderly_writeCString name : orderly allowed (writeCString name).
Proof. destruct name; [apply orderly_write|apply orderly_throw]. Qed.

Lemma orderly_commit : orderly allowed commit.
Proof.
  intros w Hw. unfold commit. destruct (bq_commit (bufferQueue w)); simpl; auto.
Qed.

Lemma orderly_modify (f : Writer -> Writer) :
  (forall w, allowed (state w) -> allowed (state (f w))) ->
  (forall w, pushed (f w) = pushed w /\ ended (f w) = ended w
             /\ errors (f w) = errors w) ->
  orderly allowed (modify f).
Proof. intros Hst Hf w Hw. simpl. split; [now apply Hst|apply Hf]. Qed.

Lemma orderly_set_state st :
  allowed st -> orderly allowed (modify (set_state st)).
Proof. intros Hst. apply orderly_modify; simpl; auto. Qed.

Lemma orderly_counter (f : Writer -> Writer) :
  (forall w, state (f w) = state w /\ pushed (f w) = pushed w
             /\ ended (f w) = ended w /\ errors (f w) = errors w) ->
  orderly allowed (modify f).
Proof.
  intros Hf. apply orderly_modify; intros w.
  - destruct (Hf w) as [-> _]. auto.
  - apply Hf.
Qed.

Lemma orderly_bind {A B : Type} (m : M A) (k : A -> M B) :
  orderly allowed m -> (forall a, orderly allowed (k a)) ->
  orderly allowed (wbind m k).
Proof.
  intros Hm Hk w Hw. unfold wbind. specialize (Hm w Hw).
  destruct (m w) as [[a|e] w1]; simpl in *; [|exact Hm].
  destruct Hm as (H1 & H2 & H3 & H4).
  destruct (Hk a w1 H1) as (K1 & K2 & K3 & K4).
  repeat split; congruence.
Qed.

Lemma orderly_while fuel cond (body : M unit) :
  orderly allowed body -> orderly allowed (while_ fuel cond body).
Proof.
  intros Hbody. induction fuel as [|fuel IH]; intros w Hw; simpl; auto.
  destruct (cond w); simpl; auto.
  specialize (Hbody w Hw). destruct (body w) as [[u|e] w1]; simpl in *;
    [|exact Hbody].
  destruct Hbody as (H1 & H2 & H3 & H4).
  destruct (IH w1 H1) as (K1 & K2 & K3 & K4).
  repeat split; congruence.
Qed.

Lemma orderly_at {A : Type} (m : Writer -> M A) :
  (forall w0, orderly allowed (m w0)) -> orderly allowed (fun w => m w w).
Proof. intros Hm w Hw. exact (Hm w w Hw). Qed.

Lemma orderly_while_sequence size (body : nat -> M unit) :
  (forall i, orderly allowed (body i)) ->
  orderly allowed (while_sequence size body).
Proof.
  intros Hbody. unfold while_sequence.
  apply (orderly_at (fun w0 => while_ (size - sequence w0) _ _)).
  intros w0. apply orderly_while.
  apply (orderly_at (fun w' => wbind (body (sequence w')) _)).
  intros w'. apply orderly_bind; [apply Hbody|intros _].
  apply orderly_counter. simpl. auto.
Qed.

Lemma orderly_while_subSequence size (body : nat -> M unit) :
  (forall i, orderly allowed (body i)) ->
  orderly allowed (while_subSequence size body).
Proof.
  intros Hbody. unfold while_subSequence.
  apply (orderly_at (fun w0 => while_ (size - subSequence w0) _ _)).
  intros w0. apply orderly_while.
  apply (orderly_at (fun w' => wbind (body (subSequence w')) _)).
  intros w'. apply orderly_bind; [apply Hbody|intros _].
  apply orderly_counter. simpl. auto.
Qed.

Lemma orderly_forEach {A : Type} (l : list A) (f : A -> M unit) :
  (forall x, orderly allowed (f x)) -> orderly allowed (forEach l f).
Proof.
  intros Hf. induction l as [|x l IH]; simpl; [apply orderly_ret|].
  apply orderly_bind; [apply Hf|intros _; exact IH].
Qed.

Lemma orderly_if {A : Type} (b : bool) (m1 m2 : M A) :
  orderly allowed m1 -> orderly allowed m2 ->
  orderly allowed (if b then m1 else m2).
Proof. destruct b; auto. Qed.

End Orderly.

Ltac orderly_step :=
  first
    [ apply orderly_bind; [|intros]
    | apply orderly_ret
    | apply orderly_throw
    | apply orderly_lift
    | apply orderly_write
    | apply orderly_writeCString
    | apply orderly_commit
    | apply orderly_while_sequence; intros
    | apply orderly_while_subSequence; intros
    | apply orderly_forEach; intros
    | apply orderly_if
    | apply orderly_set_state; solve [unfold active, unfailed; split; discriminate
                                     | unfold active, unfailed; discriminate]
    | apply orderly_counter; simpl; solve [auto] ].

Ltac orderly := repeat orderly_step.

Lemma State_eq_dec_EXPORT (st : State) : {st = EXPORT} + {st <> EXPORT}.
Proof. destruct st; (left; reflexivity) || (right; discriminate). Qed.

Section WriterOrder.

Context `{Externals}.
Variable assembly : Assembly.

Lemma write_variable_counts_orderly allowed n f d :
  orderly allowed (write_variable_counts n f d).
Proof.
  unfold write_variable_counts, writeUInt8, writeVarint.
  destruct (_ && _); orderly.
Qed.

Lemma _writeExport_orderly : orderly unfailed (_writeExport assembly).
Proof.
  unfold _writeExport, writeUInt8, writeVarint.
  apply orderly_bind; [|intros; orderly].
  destruct (export assembly) as [function|functions|]; orderly.
  destruct (Object_get functions x); orderly.
Qed.

Ltac orderly_at w Hw :=
  match goal with
  | |- context [snd (?m w)] =>
      apply ((fun (Hm : orderly active m) => Hm w Hw))
  end.

Lemma _writeFunctionDefinitions_orderly :
  orderly active (_writeFunctionDefinitions assembly).
Proof.
  intros w Hw. unfold _writeFunctionDefinitions.
  destruct (sequence w <? _); orderly_at w Hw; orderly.
Qed.

Lemma _writeFunctionPointerTables_orderly :
  orderly active (_writeFunctionPointerTables assembly).
Proof.
  intros w Hw. unfold _writeFunctionPointerTables, writeVarint.
  destruct (sequence w <? _); orderly_at w Hw; orderly.
Qed.

Lemma _writeFunctionPointerElements_orderly :
  orderly active (_writeFunctionPointerElements assembly).
Proof.
  intros w Hw. unfold _writeFunctionPointerElements, writeVarint.
  orderly_at w Hw; orderly.
Qed.

(** Every step but [EXPORT] keeps the writer out of [END] and [ERROR]. *)
Lemma step_active w :
  active (state w) -> state w <> EXPORT ->
  active (state (snd (step assembly w)))
  /\ pushed (snd (step assembly w)) = pushed w
  /\ ended (snd (step assembly w)) = ended w
  /\ errors (snd (step assembly w)) = errors w.
Proof.
  intros Hact Hexp. unfold step.
  destruct (state w) eqn:Hst; try congruence;
    try (destruct Hact; congruence).
  all: assert (Hw : active (state w)) by (rewrite Hst; exact Hact).
  all: orderly_at w Hw.
  all: try (apply orderly_bind; [|intros; apply orderly_ret]).
  all: try apply _writeFunctionDefinitions_orderly.
  all: try apply _writeFunctionPointerTables_orderly.
  all: try apply _writeFunctionPointerElements_orderly.
  all: unfold _writeHeader, _writeConstantsCount, _writeConstantsI32,
         _writeConstantsF32, _writeConstantsF64, _writeSignaturesCount,
         _writeSignatures, _writeFunctionImportsCount, _writeFunctionImports,
         _writeGlobalVariablesCount, _writeGlobalVariables,
         _writeFunctionDeclarationsCount, _writeFunctionDeclarations,
         _writeFunctionPointerTablesCount,
         writeUInt8, writeUInt32LE, writeVarint, writeFloatLE, writeDoubleLE;
       cbv zeta; orderly.
Qed.

Lemma step_EXPORT_orderly w :
  state w = EXPORT ->
  state (snd (step assembly w)) <> ERROR
  /\ pushed (snd (step assembly w)) = pushed w
  /\ ended (snd (step assembly w)) = ended w
  /\ errors (snd (step assembly w)) = errors w
  /\ fst (step assembly w) <> Ok true.
Proof.
  intros Hst. unfold step. rewrite Hst.
  assert (Hm : orderly unfailed (wbind (_writeExport assembly) (fun _ => wret false))).
  { apply orderly_bind; [apply _writeExport_orderly|intros; apply orderly_ret]. }
  destruct (Hm w) as (H1 & H2 & H3 & H4); [rewrite Hst; discriminate|].
  repeat split; auto.
  unfold wbind. destruct (_writeExport assembly w) as [[u|e] w1]; simpl;
    discriminate.
Qed.

Lemma step_outside_terminal (w : Writer) :
  state w <> END -> state w <> ERROR ->
  pushed (snd (step assembly w)) = pushed w
  /\ ended (snd (step assembly w)) = ended w
  /\ errors (snd (step assembly w)) = errors w
  /\ state (snd (step assembly w)) <> ERROR
  /\ (fst (step assembly w) = Ok true -> state (snd (step assembly w)) <> END).
Proof.
  intros Hend Herr.
  destruct (State_eq_dec_EXPORT (state w)) as [Hst|Hst].
  - destruct (step_EXPORT_orderly w Hst) as (H1 & H2 & H3 & H4 & H5).
    repeat split; auto; intros Htrue; contradiction.
  - destruct (step_active w (conj Hend Herr) Hst) as ([H0 H1] & H2 & H3 & H4).
    repeat split; auto.
Qed.

(** X8: a step taken in a state other than [END] and [ERROR] pushes nothing to
    the stream, does not end it and emits no error, whether it returns or
    raises, and never leaves the writer in [ERROR]; when it returns [true] the
    writer is not in [END] either. *)
Theorem steps_leave_the_stream_alone (w : Writer) :
  state w <> END -> state w <> ERROR ->
  pushed (snd (step assembly w)) = pushed w
  /\ ended (snd (step assembly w)) = ended w
  /\ errors (snd (step assembly w)) = errors w
  /\ state (snd (step assembly w)) <> ERROR
  /\ (fst (step assembly w) = Ok true -> state (snd (step assembly w)) <> END).
Proof.
  intros Hend Herr.
  destruct (State_eq_dec_EXPORT (state w)) as [Hst|Hst].
  - destruct (step_EXPORT_orderly w Hst) as (Hne & Hpu & Hen & Her & Hret).
    split; [exact Hpu|]. split; [exact Hen|]. split; [exact Her|].
    split; [exact Hne|]. intros Htrue. contradiction.
  - destruct (step_active w (conj Hend Herr) Hst)
      as ([Hne Hfail] & Hpu & Hen & Her).
    split; [exact Hpu|]. split; [exact Hen|]. split; [exact Her|].
    split; [exact Hfail|]. intros _. exact Hne.
Qed.

End WriterOrder.

(** ** Ends and errors of a run *)

Lemma State_terminal_dec (st : State) :
  {st = END \/ st = ERROR} + {st <> END /\ st <> ERROR}.
Proof.
  destruct st; (left; auto; fail) || (right; split; discriminate).
Qed.

Section RunFacts.

Context `{Externals}.
Variable assembly : Assembly.

Lemma settled_inflight w :
  settled w -> state w <> END -> state w <> ERROR -> inflight w.
Proof.
  intros (Hend & Hterm & Herr & Hnone) H1 H2. split; [|auto].
  destruct (ended w); [|reflexivity]. destruct Hterm; congruence.
Qed.

Lemma suspend_fields w :
  state (suspend w) = state w /\ ended (suspend w) = ended w
  /\ errors (suspend w) = errors w.
Proof. unfold suspend. simpl. destruct (0 <? _); auto. Qed.

Lemma finish_settled w :
  state w = END \/ state w = ERROR ->
  (state w = ERROR -> length (errors w) = 1) ->
  (state w <> ERROR -> errors w = []) ->
  settled (finish w).
Proof.
  intros Hst Herr Hnone. unfold settled, finish. simpl. auto.
Qed.

(** [_process]'s loop, entered between two steps, leaves a settled writer. *)
Lemma process_loop_settled fuel :
  forall w w',
    consistent assembly w -> astWriter w = None -> inflight w ->
    process_loop assembly fuel w = Some w' -> settled w'.
Proof.
  induction fuel as [|fuel IH]; intros w w' Hc Ha (Hended & Herr & Hnone);
    simpl; [discriminate|].
  destruct (State_terminal_dec (state w)) as [Hterm|[Hend Hfail]].
  { assert (Hstep : step assembly w = (Ok true, finish w)).
    { unfold step. destruct Hterm as [-> | ->]; reflexivity. }
    rewrite Hstep. intros [= <-]. now apply finish_settled. }
  pose proof (step_consistent assembly w Hc Ha) as Hpost.
  destruct (step_outside_terminal assembly w Hend Hfail)
    as (Hpu & Hen & Her & Hne & Htrue).
  destruct (step assembly w) as [[[|]|e] w1]; simpl in *.
  - intros [= <-]. unfold settled.
    specialize (Htrue eq_refl).
    repeat split; try congruence.
    intros _. rewrite Her. auto.
  - destruct Hpost as [Hc1 Hagain]. destruct (Hagain eq_refl) as [Ha1 _].
    apply IH; auto. unfold inflight. repeat split; try congruence.
    intros _. rewrite Her. auto.
  - destruct Hpost as [Hint _].
    assert (Hfatal : forall w',
              process_loop assembly fuel (set_state ERROR (emit_error e w1))
              = Some w' -> settled w').
    { intros w2. apply IH.
      - eapply consistent_error; eauto.
      - simpl. apply Hint.
      - unfold inflight. simpl. rewrite Her, Hnone by exact Hfail.
        repeat split; auto; congruence. }
    destruct e; try apply Hfatal.
    intros [= <-]. destruct (suspend_fields w1) as (S1 & S2 & S3).
    destruct Hint as (Hst & _). unfold settled.
    rewrite S1, S2, S3, Hst.
    repeat split; try congruence.
    intros _. rewrite Her. auto.
Qed.

Lemma _process_settled fuel w w' :
  consistent assembly w -> astWriter w = None -> settled w ->
  _process assembly fuel w = Some w' -> settled w'.
Proof.
  intros Hc Ha Hs. unfold _process.
  destruct (State_terminal_dec (state w)) as [Hterm|[Hend Hfail]].
  - destruct Hterm as [Hst|Hst]; rewrite Hst; now intros [= <-].
  - assert (Hloop : process_loop assembly fuel w = Some w' -> settled w').
    { apply process_loop_settled; auto. now apply settled_inflight. }
    destruct (state w); auto; congruence.
Qed.

Lemma _read_settled fuel size w w' :
  consistent assembly w -> settled w ->
  _read assembly fuel size w = Some w' -> settled w'.
Proof.
  intros Hc Hs. unfold _read.
  destruct (astWriter w) eqn:Ha; [now intros [= <-]|].
  destruct (size <=? 0)%Z; [now intros [= <-]|].
  apply _process_settled; auto.
Qed.

Lemma astWriter_run_settled fuel w w' :
  consistent assembly w -> settled w ->
  astWriter_run assembly fuel w = Some w' -> settled w'.
Proof.
  intros Hc Hs. unfold astWriter_run.
  destruct (astWriter w) as [definition|] eqn:Ha; [|now intros [= <-]].
  destruct (consistent_active assembly w definition Hc Ha) as (Hst & Hstg & Hout).
  unfold on_astWriter_end. apply _read_settled.
  - apply (consistent_intro assembly _ FUNCTION_DEFINITIONS);
      [exact Hst|discriminate|reflexivity|reflexivity|].
    simpl. rewrite <- Hout. unfold output, on_astWriter_data. simpl.
    rewrite concat_app. simpl. now rewrite !app_nil_r, <- !app_assoc.
  - destruct Hs as (Hend & Hterm & Herr & Hnone).
    unfold settled. simpl. rewrite Hst in *.
    repeat split; auto; try discriminate.
Qed.

Lemma handle_settled fuel ev w w' :
  consistent assembly w -> settled w ->
  handle assembly fuel ev w = Some w' -> settled w'.
Proof.
  intros Hc Hs. destruct ev as [size| |err]; simpl.
  - now apply _read_settled.
  - now apply astWriter_run_settled.
  - destruct (astWriter w) as [definition|] eqn:Ha; [|now intros [= <-]].
    intros [= <-].
    destruct (consistent_active assembly w definition Hc Ha) as (Hst & _).
    destruct Hs as (Hend & Hterm & Herr & Hnone).
    unfold settled, on_astWriter_error. simpl.
    rewrite Hnone by congruence.
    split; [discriminate|]. split; [now right|].
    split; [reflexivity|congruence].
Qed.

Lemma settled_new_Writer : settled new_Writer.
Proof. unfold settled. simpl. repeat split; auto; discriminate. Qed.

(** Every run on [assembly] ends, in a consistent and settled writer. *)
Lemma run_settled k events :
  forall w, consistent assembly w -> settled w ->
    exists w', run assembly (enough_fuel assembly + k) events w = Some w'
               /\ consistent assembly w' /\ settled w'.
Proof.
  induction events as [|ev events IH]; intros w Hc Hs; simpl.
  - exists w. split; [reflexivity|]. split; assumption.
  - destruct (handle_consistent assembly k ev w Hc) as (w1 & Hw1 & Hc1).
    rewrite Hw1. apply IH; [exact Hc1|].
    exact (handle_settled (enough_fuel assembly + k) ev w w1 Hc Hs Hw1).
Qed.

(** X9: every run of the writer ends; when it ends in [END], the stream has
    been ended, the chunks pushed are together exactly the layout of the
    assembly, nothing is left in the queue and no error has been emitted. *)
Theorem run_to_END_is_complete (events : list Event) (k : nat) :
  exists w,
    run assembly (enough_fuel assembly + k) events new_Writer = Some w
    /\ (state w = END ->
        ended w = true
        /\ concat (pushed w) = layout assembly
        /\ committed (bufferQueue w) = []
        /\ staged (bufferQueue w) = []
        /\ errors w = []).
Proof.
  destruct (run_settled k events new_Writer
              (consistent_new_Writer assembly) settled_new_Writer)
    as (w & Hrun & Hc & Hend & Hterm & Herr & Hnone).
  exists w. split; [exact Hrun|]. intros Hst.
  destruct (Hend Hst) as (Hen & Hcom & Hstg).
  repeat split; auto; [|apply Hnone; congruence].
  unfold consistent in Hc. rewrite Hst in Hc.
  destruct Hc as (_ & Hast & Hout).
  unfold pending_of in Hout.
  destruct (astWriter w) eqn:Ha.
  { assert (Hsome : Some f <> None) by discriminate.
    discriminate (Hast Hsome). }
  rewrite Hst in Hout. simpl in Hout. unfold output in Hout.
  now rewrite Hcom, !app_nil_r in Hout.
Qed.

(** X10: in every run of the writer an error is emitted at most once, and the
    writer is in [ERROR] exactly when one has been; the stream is ended only in
    [END] and [ERROR], and in [END] always. *)
Theorem run_emits_one_error_at_most (events : list Event) (k : nat) :
  exists w,
    run assembly (enough_fuel assembly + k) events new_Writer = Some w
    /\ (state w = ERROR <-> errors w <> [])
    /\ length (errors w) <= 1
    /\ (ended w = true -> state w = END \/ state w = ERROR)
    /\ (state w = END -> ended w = true).
Proof.
  destruct (run_settled k events new_Writer
              (consistent_new_Writer assembly) settled_new_Writer)
    as (w & Hrun & Hc & Hend & Hterm & Herr & Hnone).
  exists w. split; [exact Hrun|].
  destruct (State_terminal_dec (state w)) as [[Hst|Hst]|[Hne Hfail]].
  - assert (Hno : errors w = []) by (apply Hnone; congruence).
    rewrite Hno. simpl.
    repeat split; auto; try congruence; try lia; try (intros; now apply Hend).
  - specialize (Herr Hst).
    repeat split; auto; try congruence; try lia;
      try (intros _ Hno; rewrite Hno in Herr; discriminate).
  - rewrite (Hnone Hfail). simpl.
    repeat split; auto; try congruence; try lia.
Qed.

(** One event in [END] or [ERROR] without a body writer. *)
Lemma terminal_handle (w : Writer) (ev : Event) (fuel : nat) :
  state w = END \/ state w = ERROR -> astWriter w = None ->
  exists w1,
    handle assembly fuel ev w = Some w1
    /\ state w1 = state w /\ astWriter w1 = None
    /\ pushed w1 = pushed w /\ ended w1 = ended w /\ errors w1 = errors w
    /\ committed (bufferQueue w1) = committed (bufferQueue w)
    /\ sequence w1 = sequence w.
Proof.
  intros Hst Ha. destruct ev as [size| |err]; simpl.
  - unfold _read. rewrite Ha. destruct (size <=? 0)%Z.
    + exists w. auto 10.
    + unfold _process. simpl.
      destruct Hst as [Hst|Hst]; rewrite Hst; eexists;
        (split; [reflexivity|]); simpl; auto 10.
  - unfold astWriter_run. rewrite Ha. exists w. auto 10.
  - rewrite Ha. exists w. auto 10.
Qed.

Lemma terminal_states_final_run (w : Writer) (events : list Event)
    (fuel : nat) :
  state w = END \/ state w = ERROR -> astWriter w = None ->
  exists w',
    run assembly fuel events w = Some w'
    /\ state w' = state w /\ astWriter w' = None
    /\ pushed w' = pushed w /\ ended w' = ended w /\ errors w' = errors w
    /\ committed (bufferQueue w') = committed (bufferQueue w)
    /\ sequence w' = sequence w.
Proof.
  revert w. induction events as [|ev events IH]; intros w Hst Ha; simpl.
  - exists w. auto 10.
  - destruct (terminal_handle w ev fuel Hst Ha)
      as (w1 & Hw1 & H1 & H2 & H3 & H4 & H5 & H6 & H7).
    rewrite Hw1.
    destruct (IH w1) as (w' & Hrun & K1 & K2 & K3 & K4 & K5 & K6 & K7);
      [rewrite H1; exact Hst|exact H2|].
    exists w'. split; [exact Hrun|]. repeat split; congruence.
Qed.

(** X11: [END] and [ERROR] without a body writer are final: whatever the
    events, the writer stays in its state, pushes nothing, emits nothing and
    does not end the stream if it had not; a read only adds room to the
    queue. *)
Theorem terminal_states_are_final (w : Writer) (events : list Event)
    (fuel : nat) :
  state w = END \/ state w = ERROR -> astWriter w = None ->
  exists w',
    run assembly fuel events w = Some w'
    /\ state w' = state w /\ astWriter w' = None
    /\ pushed w' = pushed w /\ ended w' = ended w /\ errors w' = errors w
    /\ committed (bufferQueue w') = committed (bufferQueue w)
    /\ sequence w' = sequence w.
Proof.
  revert w. induction events as [|ev events IH]; intros w Hst Ha.
  - exists w. simpl. auto 10.
  - destruct (terminal_handle w ev fuel Hst Ha)
      as (w1 & Hw1 & Hst1 & Ha1 & Hpu1 & Hen1 & Her1 & Hco1 & Hse1).
    destruct (IH w1) as (w' & Hrun & Hst' & Ha' & Hpu' & Hen' & Her' & Hco' & Hse').
    { rewrite Hst1. exact Hst. }
    { exact Ha1. }
    exists w'. split.
    + simpl. rewrite Hw1. exact Hrun.
    + rewrite Hst', Hpu', Hen', Her', Hco', Hse'. auto 10.
Qed.

(** X12: an error of the body writer puts the writer in [ERROR] and emits the
    error, and the stream is never ended afterwards: no later event pushes
    [null], or anything else. *)
Theorem body_error_leaves_the_stream_open (w : Writer)
    (definition : FunctionDefinition) (err : exn) (events : list Event)
    (fuel : nat) :
  astWriter w = Some definition ->
  exists w',
    run assembly fuel (BodyFailed err :: events) w = Some w'
    /\ state w' = ERROR
    /\ errors w' = errors w ++ [err]
    /\ ended w' = ended w
    /\ pushed w' = pushed w.
Proof.
  intros Ha. simpl. rewrite Ha.
  destruct (terminal_states_final_run (on_astWriter_error err w) events fuel)
    as (w' & Hrun & H1 & H2 & H3 & H4 & H5 & _); [now right|reflexivity|].
  exists w'. split; [exact Hrun|]. auto.
Qed.

(** X13: a step that raises anything but the insufficient-room condition makes
    [_process] emit the error, enter [ERROR], push what was committed, and end
    the stream, all in the same call. *)
Theorem step_error_ends_the_stream (w w1 : Writer) (err : exn) (fuel : nat) :
  step assembly w = (Throw err, w1) -> err <> E_MORE ->
  let w' := finish (set_state ERROR (emit_error err w1)) in
  process_loop assembly (S (S fuel)) w = Some w'
  /\ state w' = ERROR
  /\ errors w' = errors w1 ++ [err]
  /\ pushed w' = pushed w1 ++ [committed (bufferQueue w1)]
  /\ ended w' = true
  /\ bufferQueue w' = new_BufferQueue.
Proof.
  intros Hstep Hne w'. split; [|subst w'; simpl; auto].
  change (process_loop assembly (S (S fuel)) w)
    with (match step assembly w with
          | (Ok true, w2) => Some w2
          | (Ok false, w2) => process_loop assembly (S fuel) w2
          | (Throw E_MORE, w2) => Some (suspend w2)
          | (Throw e, w2) =>
              process_loop assembly (S fuel) (set_state ERROR (emit_error e w2))
          end).
  rewrite Hstep. destruct err; try congruence; reflexivity.
Qed.

End RunFacts.

(** ** Reads while a function body is written *)

Section SwallowedReads.

Context `{Externals}.
Variable assembly : Assembly.

Lemma set_lastSwallowedRead_same w :
  set_lastSwallowedRead (_lastSwallowedRead w) w = w.
Proof. destruct w; reflexivity. Qed.

Lemma last_nonempty {A : Type} (a : A) l d d' :
  List.last (a :: l) d = List.last (a :: l) d'.
Proof.
  revert a. induction l as [|b l IH]; intros a; [reflexivity|].
  change (List.last (b :: l) d = List.last (b :: l) d'). apply IH.
Qed.

Lemma reads_swallowed fuel sizes :
  forall w definition,
    astWriter w = Some definition ->
    run assembly fuel (map Read sizes) w
    = Some (set_lastSwallowedRead (List.last sizes (_lastSwallowedRead w)) w).
Proof.
  induction sizes as [|size sizes IH]; intros w definition Ha; simpl.
  - now rewrite set_lastSwallowedRead_same.
  - unfold _read. rewrite Ha.
    rewrite (IH _ definition) by exact Ha. simpl _lastSwallowedRead.
    destruct sizes as [|size' sizes]; [reflexivity|].
    now rewrite (last_nonempty size' sizes size (_lastSwallowedRead w)).
Qed.

(** X14: while a body writer is active, reads take no step and push nothing:
    all they leave is the size of the last one. When the body writer ends, the
    writer moves to the next definition and processing resumes with that size
    as the room; if the size is not positive, as when no read came in since the
    writer was created, no step is taken until the next read. *)
Theorem reads_during_a_body_are_swallowed (w : Writer)
    (definition : FunctionDefinition) (sizes : list Z) (fuel : nat) :
  astWriter w = Some definition ->
  let size := List.last sizes (_lastSwallowedRead w) in
  let w1 := set_lastSwallowedRead size w in
  let w2 := set_sequence (S (sequence w)) (set_astWriter None w1) in
  run assembly fuel (map Read sizes) w = Some w1
  /\ ((size <= 0)%Z -> on_astWriter_end assembly fuel w1 = Some w2)
  /\ ((0 < size)%Z ->
      on_astWriter_end assembly fuel w1
      = _process assembly fuel
          (set_bufferQueue (bq_push (Z.to_nat size) (bufferQueue w)) w2)).
Proof.
  intros Ha size w1 w2.
  split; [now apply (reads_swallowed fuel sizes w definition)|].
  unfold on_astWriter_end, _read. simpl. fold size.
  split; intros Hsize.
  - destruct (Z.leb_spec size 0); [reflexivity|lia].
  - destruct (Z.leb_spec size 0); [lia|reflexivity].
Qed.

End SwallowedReads.

(** ** The scan of the global pool *)

Lemma skip_type_length type vars :
  length (skip_type type vars) <= length vars.
Proof.
  induction vars as [|v vars IH]; simpl; [lia|].
  destruct (types.Type_eqb (gv_type v) type); simpl; lia.
Qed.

(** One loop of the scan: it counts the variables it passes, and stops at
    the first of another type or at the end of the pool. *)
Lemma scan_globals_spec fuel vars type :
  forall n current,
    length vars - current <= fuel ->
    exists k,
      scan_globals fuel vars type n current = (n + k, current + k)
      /\ drop (current + k) vars = skip_type type (drop current vars)
      /\ (current <= length vars -> current + k <= length vars).
Proof.
  induction fuel as [|fuel IH]; intros n current Hfuel; simpl.
  - exists 0. rewrite !Nat.add_0_r. split; [reflexivity|].
    rewrite drop_ge by lia. simpl. auto.
  - destruct (vars !! current) as [v|] eqn:Hv.
    + pose proof (lookup_lt_Some _ _ _ Hv) as Hlt.
      rewrite (drop_S _ _ _ Hv). simpl.
      destruct (types.Type_eqb (gv_type v) type).
      * destruct (IH (S n) (S current)) as (k & Hscan & Hdrop & Hle); [lia|].
        exists (S k). rewrite Hscan.
        replace (current + S k) with (S current + k) by lia.
        replace (n + S k) with (S n + k) by lia.
        split; [reflexivity|]. split; [exact Hdrop|]. intros _. apply Hle. lia.
      * exists 0. rewrite !Nat.add_0_r. split; [reflexivity|].
        split; [now apply drop_S|auto].
    + exists 0. rewrite !Nat.add_0_r. split; [reflexivity|].
      apply lookup_ge_None in Hv. rewrite drop_ge by lia. simpl. auto.
Qed.

Lemma global_group_type variable group :
  global_group variable = Some group ->
  gv_type variable = group_type group /\ group < 6.
Proof.
  unfold global_group.
  destruct (gv_importName variable), (gv_type variable); intros [= <-];
    simpl; split; auto; lia.
Qed.

Lemma grouped_from_weaken group group' vars :
  group <= group' -> grouped_from group' vars = true ->
  grouped_from group vars = true.
Proof.
  intros Hle. destruct vars as [|v vars]; simpl; [reflexivity|].
  destruct (global_group v) as [g|]; [|discriminate].
  rewrite !andb_true_iff, !Nat.leb_le. intros [Hg Hrest].
  split; [lia|exact Hrest].
Qed.

Lemma grouped_from_skip group vars :
  grouped_from group vars = true ->
  grouped_from (S group) (skip_type (group_type group) vars) = true.
Proof.
  induction vars as [|v vars IH]; simpl; [reflexivity|].
  destruct (global_group v) as [g|] eqn:Hg; [|discriminate].
  rewrite andb_true_iff, Nat.leb_le. intros [Hle Hrest].
  destruct (global_group_type v g Hg) as [Htype _].
  destruct (types.Type_eqb (gv_type v) (group_type group)) eqn:E.
  - apply IH. now apply (grouped_from_weaken group g).
  - assert (Hlt : S group <= g).
    { destruct (Nat.eq_dec g group) as [->|Hne]; [|lia].
      rewrite Htype in E. destruct (group_type group); discriminate. }
    cbn [grouped_from]. rewrite Hg. apply andb_true_iff.
    split; [apply Nat.leb_le; exact Hlt|exact Hrest].
Qed.

Lemma grouped_from_imported group vars :
  3 <= group -> grouped_from group vars = true ->
  Forall (fun variable => gv_importName variable <> None) vars.
Proof.
  revert group. induction vars as [|v vars IH]; intros group Hge; simpl;
    [constructor|].
  destruct (global_group v) as [g|] eqn:Hg; [|discriminate].
  rewrite andb_true_iff, Nat.leb_le. intros [Hle Hrest].
  constructor; [|apply (IH g); [lia|exact Hrest]].
  unfold global_group in Hg.
  destruct (gv_importName v), (gv_type v); try discriminate;
    injection Hg as <-; lia.
Qed.

Lemma grouped_from_end vars : grouped_from 6 vars = true -> vars = [].
Proof.
  destruct vars as [|v vars]; cbn [grouped_from]; [reflexivity|].
  destruct (global_group v) as [g|] eqn:Hg; [|discriminate].
  destruct (global_group_type v g Hg) as [_ Hlt].
  rewrite andb_true_iff, Nat.leb_le. lia.
Qed.

Section GlobalScan.

Context `{Externals}.
Variable assembly : Assembly.

Local Opaque varint.

(** X15: for a pool in the grouped order, the six loops of
    [_writeGlobalVariablesCount] pass every variable, so that the assertion
    holds and the counts add up to the size of the pool; every variable from
    the position where the step leaves [sequence] has an import name, so that
    [_writeGlobalVariables] finds a name wherever it writes one; and the step
    commits the six counts in one batch, or raises the insufficient-room
    condition with [sequence] already set. *)
Theorem grouped_globals_are_accepted (w : Writer) :
  in_grouped_order (globalVariables assembly) = true ->
  staged (bufferQueue w) = [] ->
  let vars := globalVariables assembly in
  let counts := fst (fst (global_scans assembly)) in
  let seq := snd (fst (global_scans assembly)) in
  snd (global_scans assembly) = length vars
  /\ sum_list counts = length vars
  /\ (forall i variable, vars !! i = Some variable -> seq <= i ->
        exists name, gv_importName variable = Some name)
  /\ _writeGlobalVariablesCount assembly w
     = if length (committed (bufferQueue w))
            + length (global_counts_bytes assembly)
            <=? capacity (bufferQueue w)
       then (Ok tt,
             set_state GLOBAL_VARIABLES
               (committing (global_counts_bytes assembly)
                  (set_sequence seq w)))
       else (Throw E_MORE,
             stage (global_counts_bytes assembly) (set_sequence seq w)).
Proof.
  intros Hgrouped Hs vars counts seq.
  unfold in_grouped_order in Hgrouped. fold vars in Hgrouped.
  destruct (scan_globals_spec (length vars) vars types.I32 0 0)
    as (k1 & E1 & D1 & L1); [lia|].
  rewrite ?Nat.add_0_l in E1, D1, L1.
  destruct (scan_globals_spec (length vars) vars types.F32 0 k1)
    as (k2 & E2 & D2 & L2); [lia|].
  rewrite ?Nat.add_0_l in E2, D2, L2.
  destruct (scan_globals_spec (length vars) vars types.F64 0 (k1 + k2))
    as (k3 & E3 & D3 & L3); [lia|].
  rewrite ?Nat.add_0_l in E3, D3, L3.
  destruct (scan_globals_spec (length vars) vars types.I32 0 (k1 + k2 + k3))
    as (k4 & E4 & D4 & L4); [lia|].
  rewrite ?Nat.add_0_l in E4, D4, L4.
  destruct (scan_globals_spec (length vars) vars types.F32 0
              (k1 + k2 + k3 + k4))
    as (k5 & E5 & D5 & L5); [lia|].
  rewrite ?Nat.add_0_l in E5, D5, L5.
  destruct (scan_globals_spec (length vars) vars types.F64 0
              (k1 + k2 + k3 + k4 + k5))
    as (k6 & E6 & D6 & L6); [lia|].
  rewrite ?Nat.add_0_l in E6, D6, L6.
  rewrite drop_0 in D1.
  pose proof (grouped_from_skip 0 _ Hgrouped) as G1.
  simpl group_type in G1. rewrite <- D1 in G1.
  pose proof (grouped_from_skip 1 _ G1) as G2.
  simpl group_type in G2. rewrite <- D2 in G2.
  pose proof (grouped_from_skip 2 _ G2) as G3.
  simpl group_type in G3. rewrite <- D3 in G3.
  pose proof (grouped_from_skip 3 _ G3) as G4.
  simpl group_type in G4. rewrite <- D4 in G4.
  pose proof (grouped_from_skip 4 _ G4) as G5.
  simpl group_type in G5. rewrite <- D5 in G5.
  pose proof (grouped_from_skip 5 _ G5) as G6.
  simpl group_type in G6. rewrite <- D6 in G6.
  apply grouped_from_end in G6.
  assert (Hall : k1 + k2 + k3 + k4 + k5 + k6 = length vars).
  { apply (f_equal length) in G6. rewrite length_drop in G6. simpl in G6.
    lia. }
  assert (Hscans : global_scans assembly
                   = ([k1; k2; k3; k4; k5; k6],
                      k1 + k2 + k3, k1 + k2 + k3 + k4 + k5 + k6)).
  { unfold global_scans. fold vars. cbv zeta.
    rewrite E1. simpl snd. rewrite E2. simpl snd. rewrite E3. simpl snd.
    rewrite E4. simpl snd. rewrite E5. simpl snd. rewrite E6. reflexivity. }
  assert (Hstep : _writeGlobalVariablesCount assembly w
     = if length (committed (bufferQueue w))
            + length (global_counts_bytes assembly)
            <=? capacity (bufferQueue w)
       then (Ok tt,
             set_state GLOBAL_VARIABLES
               (committing (global_counts_bytes assembly)
                  (set_sequence (k1 + k2 + k3) w)))
       else (Throw E_MORE,
             stage (global_counts_bytes assembly)
               (set_sequence (k1 + k2 + k3) w))).
  { unfold global_counts_bytes. rewrite Hscans. simpl fst. simpl flat_map.
    unfold _writeGlobalVariablesCount. fold vars. cbv zeta.
    rewrite E1. simpl snd. rewrite E2. simpl snd. rewrite E3. simpl snd.
    rewrite E4. simpl snd. rewrite E5. simpl snd. rewrite E6.
    simpl fst. simpl snd.
    unfold writeVarint.
    repeat (rewrite wbind_assoc || rewrite wbind_write || rewrite wbind_modify
            || rewrite wbind_ret || cbv beta).
    rewrite ?stage_app, !stage_set_sequence, ?stage_app, wbind_assert.
    rewrite (proj2 (Nat.eqb_eq _ _) Hall).
    repeat (rewrite wbind_assoc || rewrite wbind_write || rewrite wbind_modify
            || rewrite wbind_ret || cbv beta).
    rewrite ?stage_app.
    rewrite wbind_commit by exact Hs.
    rewrite ?app_nil_r, <- ?app_assoc.
    destruct (_ <=? _); reflexivity. }
  subst counts seq. rewrite Hscans. simpl fst. simpl snd.
  split; [exact Hall|]. split; [simpl; lia|]. split; [|exact Hstep].
  intros i variable Hi Hseq.
  pose proof (grouped_from_imported 3 _ (Nat.le_refl 3) G3) as Himp.
  rewrite Forall_forall in Himp.
  assert (Hin : variable ∈ drop (k1 + k2 + k3) vars).
  { apply list_elem_of_lookup. exists (i - (k1 + k2 + k3)).
    rewrite lookup_drop. now replace (k1 + k2 + k3 + (i - (k1 + k2 + k3)))
      with i by lia. }
  specialize (Himp variable Hin).
  destruct (gv_importName variable) as [name|]; [eauto|congruence].
Qed.

End GlobalScan.

(** ** The writer's ends and errors on the sample constants *)

(** The header step with too little room raises, and has pushed nothing. *)
Lemma steps_leave_the_stream_alone_witness :
  let assembly := @sample_assembly sample_externals (sample_definition 0 0 0)
                    [] (DefaultExport sample_declaration) in
  let w := writer_with_room 4 HEADER in
  fst (step assembly w) = Throw E_MORE
  /\ pushed (snd (step assembly w)) = []
  /\ ended (snd (step assembly w)) = false
  /\ errors (snd (step assembly w)) = []
  /\ state (snd (step assembly w)) <> ERROR.
Proof.
  intros assembly w.
  destruct (steps_leave_the_stream_alone assembly w)
    as (Hpu & Hen & Her & Hst & _); [discriminate|discriminate|].
  split; [vm_compute; reflexivity|]. auto.
Defined.

(** A complete run of the sample assembly: one read with room for all of it,
    the body of its function, and the read that follows. *)
Lemma run_to_END_is_complete_witness :
  let assembly := @sample_assembly sample_externals (sample_definition 3 1 0)
                    [] (DefaultExport sample_declaration) in
  exists w,
    run assembly (enough_fuel assembly + 0)
      [Read 1000; BodyWritten; Read 1000] new_Writer = Some w
    /\ state w = END /\ ended w = true
    /\ concat (pushed w) = layout assembly /\ errors w = [].
Proof.
  intros assembly.
  destruct (run_to_END_is_complete assembly
              [Read 1000; BodyWritten; Read 1000] 0) as (w & Hrun & Hend).
  exists w. split; [exact Hrun|].
  assert (Hst : state w = END).
  { vm_compute in Hrun. injection Hrun as <-. reflexivity. }
  destruct (Hend Hst) as (H1 & H2 & _ & _ & H5). auto.
Defined.

(** The same run with a global pool that is out of order ends in [ERROR]
    with its one error. *)
Lemma run_emits_one_error_at_most_witness :
  let globals := [ {| gv_type := types.F64; gv_importName := None |};
                   {| gv_type := types.F32; gv_importName := None |};
                   {| gv_type := types.I32; gv_importName := None |};
                   {| gv_type := types.F64; gv_importName := None |} ] in
  let assembly := @sample_assembly sample_externals (sample_definition 0 0 0)
                    globals (DefaultExport sample_declaration) in
  exists w,
    run assembly (enough_fuel assembly + 0) [Read 1000; Read 1000] new_Writer
    = Some w
    /\ state w = ERROR /\ length (errors w) = 1 /\ ended w = true.
Proof.
  intros globals assembly.
  destruct (run_emits_one_error_at_most assembly [Read 1000; Read 1000] 0)
    as (w & Hrun & Hiff & Hlen & _).
  exists w. split; [exact Hrun|].
  assert (Hst : state w = ERROR /\ ended w = true).
  { vm_compute in Hrun. injection Hrun as <-. split; reflexivity. }
  destruct Hst as [Hst Hen]. split; [exact Hst|]. split; [|exact Hen].
  apply proj1 in Hiff. specialize (Hiff Hst).
  destruct (errors w) as [|e [|e' l]]; simpl in *; [congruence|reflexivity|lia].
Defined.

(** After the end of a run, reads and body events change nothing. *)
Lemma terminal_states_are_final_witness :
  let assembly := @sample_assembly sample_externals (sample_definition 0 0 0)
                    [] (DefaultExport sample_declaration) in
  let w := finish (set_state END new_Writer) in
  exists w',
    run assembly 0 [Read 10; BodyWritten; Read 3] w = Some w'
    /\ state w' = END /\ pushed w' = [[]] /\ ended w' = true.
Proof.
  intros assembly w.
  destruct (terminal_states_are_final assembly w [Read 10; BodyWritten; Read 3] 0)
    as (w' & Hrun & Hst & _ & Hpu & Hen & _); [now left|reflexivity|].
  exists w'. auto.
Defined.

(** A body writer that fails while the first function is written: the later
    read and body event find the writer in [ERROR], and the stream open. *)
Lemma body_error_leaves_the_stream_open_witness :
  let assembly := @sample_assembly sample_externals (sample_definition 0 0 0)
                    [] (DefaultExport sample_declaration) in
  let w := set_astWriter (Some (sample_definition 0 0 0))
             (writer_with_room 10 FUNCTION_DEFINITIONS) in
  exists w',
    run assembly 5 [BodyFailed (Error "boom"); Read 5; BodyWritten] w = Some w'
    /\ state w' = ERROR /\ errors w' = [Error "boom"]
    /\ ended w' = false /\ pushed w' = [].
Proof.
  intros assembly w.
  destruct (body_error_leaves_the_stream_open assembly w
              (sample_definition 0 0 0) (Error "boom") [Read 5; BodyWritten] 5)
    as (w' & Hrun & H1 & H2 & H3 & H4); [reflexivity|].
  exists w'. auto.
Defined.

(** A pool out of order fails the assertion of the count step; [_process]
    emits the error and ends the stream at once. *)
Lemma step_error_ends_the_stream_witness :
  let globals := [ {| gv_type := types.F64; gv_importName := None |};
                   {| gv_type := types.F32; gv_importName := None |};
                   {| gv_type := types.I32; gv_importName := None |};
                   {| gv_type := types.F64; gv_importName := None |} ] in
  let assembly := @sample_assembly sample_externals (sample_definition 0 0 0)
                    globals (DefaultExport sample_declaration) in
  let w := writer_with_room 100 GLOBAL_VARIABLES_COUNT in
  let err := AssertionError "illegal order of global variables" in
  exists w',
    process_loop assembly 2 w = Some w'
    /\ state w' = ERROR /\ errors w' = [err] /\ ended w' = true
    /\ pushed w' = [[]].
Proof.
  intros globals assembly w err.
  destruct (step_error_ends_the_stream assembly w (snd (step assembly w)) err 0)
    as (Hloop & Hst & Her & Hpu & Hen & _).
  - vm_compute. reflexivity.
  - discriminate.
  - eexists. split; [exact Hloop|]. auto.
Defined.

(** Two reads while the body of the first function is written leave the size
    of the second. *)
Lemma reads_during_a_body_are_swallowed_witness :
  let assembly := @sample_assembly sample_externals (sample_definition 0 0 0)
                    [] (DefaultExport sample_declaration) in
  let w := set_astWriter (Some (sample_definition 0 0 0))
             (writer_with_room 10 FUNCTION_DEFINITIONS) in
  run assembly 0 [Read 16; Read 32] w = Some (set_lastSwallowedRead 32 w).
Proof.
  intros assembly w.
  exact (proj1 (reads_during_a_body_are_swallowed assembly w
                  (sample_definition 0 0 0) [16; 32]%Z 0 eq_refl)).
Defined.

(** A pool in the grouped order: two zero-initialized variables and two
    imported ones give the counts 1 0 1 1 1 0 and leave [sequence] at 2. *)
Lemma grouped_globals_are_accepted_witness :
  let globals := [ {| gv_type := types.I32; gv_importName := None |};
                   {| gv_type := types.F64; gv_importName := None |};
                   {| gv_type := types.I32; gv_importName := Some "a"%string |};
                   {| gv_type := types.F32; gv_importName := Some "b"%string |} ] in
  let assembly := @sample_assembly sample_externals (sample_definition 0 0 0)
                    globals (DefaultExport sample_declaration) in
  let w := writer_with_room 100 GLOBAL_VARIABLES_COUNT in
  _writeGlobalVariablesCount assembly w
  = (Ok tt,
     set_state GLOBAL_VARIABLES
       (committing [1; 0; 1; 1; 1; 0]%Z (set_sequence 2 w))).
Proof.
  intros globals assembly w.
  destruct (grouped_globals_are_accepted assembly w) as (_ & _ & _ & Hstep);
    [reflexivity|reflexivity|].
  rewrite Hstep. reflexivity.
Defined.

(** ** The asm.js header of a function *)

Lemma string_app_assoc (s1 s2 s3 : string) :
  (s1 +:+ s2) +:+ s3 = s1 +:+ s2 +:+ s3.
Proof.
  induction s1 as [|c s1 IH]; [reflexivity|].
  change (String c ((s1 +:+ s2) +:+ s3) = String c (s1 +:+ s2 +:+ s3)).
  now rewrite IH.
Qed.

Lemma string_app_nil_r (s : string) : s +:+ "" = s.
Proof.
  induction s as [|c s IH]; [reflexivity|].
  change (String c (s +:+ "") = String c s). now rewrite IH.
Qed.

Lemma join_cons (x : string) l :
  String.concat "" (x :: l) = x +:+ String.concat "" l.
Proof. destruct l; simpl; [now rewrite string_app_nil_r|reflexivity]. Qed.

Lemma join_app l1 l2 :
  String.concat "" (l1 ++ l2) = String.concat "" l1 +:+ String.concat "" l2.
Proof.
  induction l1 as [|x l1 IH]; [reflexivity|].
  rewrite <- app_comm_cons, !join_cons, IH. now rewrite string_app_assoc.
Qed.

Lemma concat_sep_cons sep (x : string) l :
  String.concat sep (x :: l)
  = x +:+ String.concat "" (map (fun y => sep +:+ y) l).
Proof.
  revert x. induction l as [|y l IH]; intros x.
  - simpl. now rewrite string_app_nil_r.
  - change (String.concat sep (x :: y :: l))
      with (x +:+ sep +:+ String.concat sep (y :: l)).
    rewrite IH. simpl map. rewrite join_cons.
    now rewrite !string_app_assoc.
Qed.

(** A loop that only pushes pieces: the joined array afterwards. *)
Lemma join_fold_push {A : Type} (f : list string -> A -> list string)
    (g : A -> list string) (l : list A) :
  (forall sb i, In i l -> f sb i = sb ++ g i) ->
  forall sb,
    String.concat "" (fold_left f l sb)
    = String.concat "" sb
      +:+ String.concat "" (map (fun i => String.concat "" (g i)) l).
Proof.
  induction l as [|i l IH]; intros Hf sb; simpl fold_left.
  - simpl. now rewrite string_app_nil_r.
  - rewrite IH by (intros sb' j Hj; apply Hf; now right).
    rewrite (Hf sb i) by now left.
    simpl map. rewrite join_app, join_cons. now rewrite string_app_assoc.
Qed.

Section AsmHeaderFacts.

Variable declaration_name : FunctionDeclaration -> string.
Variable localName : nat -> string.
Variable FRound : string.

(** A loop that pushes a separator before every item but the first. *)
Lemma join_separated (sep item : nat -> list string) (joined : string)
    (text : nat -> string) (start n : nat) :
  (forall i, String.concat "" (item i) = text i) ->
  (forall i, start < i -> String.concat "" (sep i) = joined) ->
  String.concat "" (sep start) = "" ->
  String.concat ""
    (map (fun i => String.concat "" (sep i ++ item i)) (seq start n))
  = String.concat joined (map text (seq start n)).
Proof.
  intros Hitem Hsep Hfirst. destruct n as [|n]; [reflexivity|].
  simpl seq. simpl map. rewrite (concat_sep_cons joined), join_cons, join_app.
  rewrite Hfirst, Hitem. simpl. f_equal. f_equal.
  rewrite map_map. apply map_ext_in. intros i Hi. apply in_seq in Hi.
  rewrite join_app, Hsep, Hitem by lia. reflexivity.
Qed.

(** X16: the header that [asmHeader] builds: the function's name and the names
    of its arguments between commas; one coercion for each argument; and, when
    the table holds variables that are not arguments, one [var] statement that
    initializes them, separated by commas, the variable at position [i] of the
    table under the local name of index [i] plus the number of arguments.
    Without packing the lines are indented and broken; with packing only the
    line feed after the brace is left. *)
Theorem asmHeader_layout (def : FunctionDefinition) (pack : bool) :
  let indent := if pack then "" else "    " in
  let ws := if pack then "" else " " in
  let nl := if pack then "" else newline in
  let args := argumentTypes (signature (declaration def)) in
  let a := length args in
  let coercion (i : nat) :=
    indent +:+ localName i +:+ ws +:+ "=" +:+ ws
    +:+ match args !! i with
        | Some types.I32 => localName i +:+ "|0;" +:+ nl
        | Some types.F32 => FRound +:+ "(" +:+ localName i +:+ ");" +:+ nl
        | Some types.F64 => "+" +:+ localName i +:+ ";" +:+ nl
        | _ => ""
        end in
  let initial (i : nat) :=
    localName (i + a) +:+ ws +:+ "=" +:+ ws
    +:+ match option_map var_type (variables def !! i) with
        | Some types.I32 => "0"
        | Some types.F32 => FRound +:+ "(0)"
        | Some types.F64 => "0."
        | _ => ""
        end in
  asmHeader declaration_name localName FRound def pack
  = "function " +:+ declaration_name (declaration def) +:+ "("
    +:+ String.concat "," (map localName (seq 0 a))
    +:+ ")" +:+ ws +:+ "{" +:+ newline
    +:+ String.concat "" (map coercion (seq 0 a))
    +:+ (if a <? length (variables def)
         then indent +:+ "var "
              +:+ String.concat ("," +:+ nl +:+ indent)
                    (map initial (seq a (length (variables def) - a)))
              +:+ ";"
         else "").
Proof.
  intros indent ws nl args a coercion initial.
  assert (Hnames : forall sb,
            String.concat "" (asmHeader_names localName args sb)
            = String.concat "" sb
              +:+ String.concat "," (map localName (seq 0 a))).
  { intros sb. unfold asmHeader_names.
    rewrite (join_fold_push _
               (fun i => (if 0 <? i then [","] else []) ++ [localName i])).
    - f_equal.
      apply (join_separated (fun i => if 0 <? i then [","] else [])
               (fun i => [localName i]) "," localName 0 (length args)).
      + reflexivity.
      + intros i Hi. destruct (Nat.ltb_spec 0 i); [reflexivity|lia].
      + reflexivity.
    - intros sb' i _. destruct (0 <? i); simpl;
        [now rewrite <- app_assoc|reflexivity]. }
  assert (Hcoercions : forall sb,
            String.concat "" (asmHeader_coercions localName FRound indent ws nl args sb)
            = String.concat "" sb
              +:+ String.concat "" (map coercion (seq 0 a))).
  { intros sb. unfold asmHeader_coercions.
    rewrite (join_fold_push _
               (fun i => [indent; localName i; ws; "="; ws]
                         ++ match args !! i with
                            | Some types.I32 => [localName i; "|0;"; nl]
                            | Some types.F32 => [FRound; "("; localName i; ");"; nl]
                            | Some types.F64 => ["+"; localName i; ";"; nl]
                            | _ => []
                            end)).
    - f_equal. f_equal. apply map_ext. intros i. subst coercion. cbv beta.
      rewrite join_app. rewrite !join_cons. simpl String.concat.
      rewrite !string_app_assoc.
      destruct (args !! i) as [[| | |]|];
        rewrite ?join_cons; simpl String.concat;
        rewrite ?string_app_nil_r; reflexivity.
    - intros sb' i _.
      destruct (args !! i) as [[| | |]|];
        rewrite <- ?app_assoc, ?app_nil_r; reflexivity. }
  assert (Hlocals : forall sb,
            String.concat "" (asmHeader_locals localName FRound indent ws nl def sb)
            = String.concat "" sb
              +:+ String.concat ("," +:+ nl +:+ indent)
                    (map initial (seq a (length (variables def) - a)))).
  { intros sb. unfold asmHeader_locals. fold args. fold a.
    rewrite (join_fold_push _
               (fun i => (if a <? i then [","; nl; indent] else [])
                         ++ ([localName (i + a); ws; "="; ws]
                             ++ match option_map var_type (variables def !! i) with
                                | Some types.I32 => ["0"]
                                | Some types.F32 => [FRound; "(0)"]
                                | Some types.F64 => ["0."]
                                | _ => []
                                end))).
    - f_equal.
      apply (join_separated (fun i => if a <? i then [","; nl; indent] else [])
               _ ("," +:+ nl +:+ indent) initial a).
      + intros i. subst initial. cbv beta.
        rewrite join_app. rewrite !join_cons. simpl String.concat.
        rewrite !string_app_assoc.
        destruct (option_map var_type (variables def !! i)) as [[| | |]|];
          rewrite ?join_cons; simpl String.concat;
          rewrite ?string_app_nil_r; reflexivity.
      + intros i Hi. destruct (Nat.ltb_spec a i); [|lia].
        rewrite !join_cons. simpl String.concat.
        now rewrite string_app_nil_r.
      + now rewrite Nat.ltb_irrefl.
    - intros sb' i _.
      destruct (a <? i), (option_map var_type (variables def !! i))
        as [[| | |]|]; simpl; rewrite <- ?app_assoc, ?app_nil_r; reflexivity. }
  unfold asmHeader. cbv zeta. fold indent ws nl args a.
  set (sb1 := asmHeader_names localName args
                ["function "; declaration_name (declaration def); "("]
              ++ [")"; ws; "{" +:+ newline]).
  set (sb2 := if 0 <? a
              then asmHeader_coercions localName FRound indent ws nl args sb1
              else sb1).
  assert (H1 : String.concat "" sb1
               = "function " +:+ declaration_name (declaration def) +:+ "("
                 +:+ String.concat "," (map localName (seq 0 a))
                 +:+ ")" +:+ ws +:+ "{" +:+ newline).
  { subst sb1. rewrite join_app, Hnames, !join_cons. simpl String.concat.
    now rewrite ?string_app_nil_r, ?string_app_assoc. }
  assert (H2 : String.concat "" sb2
               = String.concat "" sb1
                 +:+ String.concat "" (map coercion (seq 0 a))).
  { subst sb2. destruct (Nat.ltb_spec 0 a) as [Ha|Ha]; [apply Hcoercions|].
    replace a with 0 by lia. simpl. now rewrite string_app_nil_r. }
  destruct (a <? length (variables def)).
  - rewrite join_app, Hlocals, join_app, H2, H1, !join_cons.
    simpl String.concat. now rewrite ?string_app_nil_r, ?string_app_assoc.
  - rewrite H2, H1. now rewrite ?string_app_nil_r, ?string_app_assoc.
Qed.

End AsmHeaderFacts.

(** The packed header of the sample function with two F64 arguments, one I32
    and one F32 local: the locals, at the positions 2 and 3 of the table,
    are declared under the names of the indices 4 and 5. *)
Lemma asmHeader_layout_witness :
  asmHeader (fun _ => "f"%string) sample_localName "fround"
    (sample_definition 1 1 0) true
  = ("function f(a,b){" +:+ newline
     +:+ "a=+a;b=+b;var e=0,f=fround(0);")%string.
Proof.
  rewrite asmHeader_layout. vm_compute. reflexivity.
Defined.

(** ** The local counts of any variable table *)

Lemma count_variables_spec def vars :
  forall k n1 n2 n3,
    count_variables def vars k n1 n2 n3
    = if existsb (types.Type_eqb types.Void) (local_types def vars k)
      then Throw (Error "illegal variable type")
      else Ok (n1 + count_type types.I32 (local_types def vars k),
               n2 + count_type types.F32 (local_types def vars k),
               n3 + count_type types.F64 (local_types def vars k)).
Proof.
  unfold count_type.
  induction vars as [|v vars IH]; intros k n1 n2 n3; simpl.
  - now rewrite !Nat.add_0_r.
  - destruct (isArgument def k); [apply IH|].
    destruct (var_type v); simpl; rewrite ?IH;
      try (destruct (existsb _ _); [reflexivity|];
           rewrite ?Nat.add_succ_r; reflexivity).
    reflexivity.
Qed.

Section LocalCounts.

Context `{Externals}.
Variable assembly : Assembly.

(** X17: for any variable table, built by the constructor or not,
    [_writeFunctionDefinitions] counts the variables that are not arguments
    by their type, wherever they stand in the table, and commits the header
    of these three counts; when one of them has a type other than I32, F32
    and F64 it raises at the count, with nothing staged and the writer as it
    was. *)
Theorem local_counts_go_by_type (w : Writer) (definition : FunctionDefinition) :
  sequence w < length (functionDeclarations assembly) ->
  functionDefinitions assembly !! sequence w = Some definition ->
  staged (bufferQueue w) = [] ->
  let locals := local_types definition (variables definition) 0 in
  (In types.Void locals ->
     _writeFunctionDefinitions assembly w
     = (Throw (Error "illegal variable type"), w))
  /\ (~ In types.Void locals ->
        _writeFunctionDefinitions assembly w
        = batch_outcome
            (variable_counts_bytes (count_type types.I32 locals)
               (count_type types.F32 locals) (count_type types.F64 locals))
            true (set_astWriter (Some definition)) w).
Proof.
  intros Hlt Hd Hs locals.
  assert (Hvoid : existsb (types.Type_eqb types.Void) locals = true
                  <-> In types.Void locals).
  { rewrite existsb_exists. split.
    - intros (t & Hin & Ht). destruct t; try discriminate. exact Hin.
    - intros Hin. exists types.Void. auto. }
  assert (Hstep : _writeFunctionDefinitions assembly w
            = wbind (wlift (count_variables definition (variables definition)
                              0 0 0 0))
                (fun counts =>
                   wbind (write_variable_counts (fst (fst counts))
                            (snd (fst counts)) (snd counts))
                     (fun _ => wbind commit
                        (fun _ => wbind (modify (set_astWriter (Some definition)))
                           (fun _ => wret true)))) w).
  { unfold _writeFunctionDefinitions.
    destruct (Nat.ltb_spec (sequence w) (length (functionDeclarations assembly)));
      [|lia].
    now rewrite (wbind_get _ _ _ _ _ Hd). }
  rewrite Hstep, count_variables_spec. fold locals. simpl Nat.add.
  split; intros Hin.
  - apply Hvoid in Hin. rewrite Hin. reflexivity.
  - destruct (existsb (types.Type_eqb types.Void) locals) eqn:E.
    { exfalso. apply Hin, Hvoid. reflexivity. }
    unfold wbind at 1. unfold wlift at 1. simpl fst. simpl snd.
    rewrite (wbind_stages _ _ _ _ (stages_write_variable_counts _ _ _)).
    rewrite wbind_commit by exact Hs. reflexivity.
Qed.

End LocalCounts.

(** The counts of a table in which the locals are not grouped by type: one
    I32 and two F32 locals give the flags byte 3 and the counts 1 and 2. *)
Lemma local_counts_go_by_type_witness :
  let assembly :=
    @sample_assembly sample_externals mixed_definition []
      (DefaultExport sample_declaration) in
  let w := writer_with_room 100 FUNCTION_DEFINITIONS in
  _writeFunctionDefinitions assembly w
  = batch_outcome [3; 1; 2]%Z true (set_astWriter (Some mixed_definition)) w.
Proof.
  intros assembly w.
  destruct (local_counts_go_by_type assembly w mixed_definition)
    as [_ Hcounts].
  - simpl. lia.
  - reflexivity.
  - reflexivity.
  - rewrite Hcounts; [reflexivity|].
    simpl. intuition discriminate.
Defined.
